(** * Bluebikes station map: the traffic aggregation engine

    A shallow embedding of the time bucketing, the windowed trip query,
    the per-station aggregation, the two d3 scales and the keyed join of
    the circles of [map.js], and of the linear-scan variant of the same
    pipeline, followed by the properties of the specification stated over
    them. *)

From Stdlib Require Import ZArith QArith Lia Lqa List.
From stdpp Require Import gmap strings list fin_maps.

Local Open Scope Z_scope.

(** * Part I: the programs *)

(** ** JavaScript numbers

    Minute values are integers or NaN and are kept as [option Z] ([None] is
    NaN).  The values that flow through the d3 scales are kept as [num]:
    an exact rational, an infinity or NaN.  Rounding of doubles and the
    sign of zero are not represented. *)

Inductive num :=
  | Fin (q : Q)
  | PosInf
  | NegInf
  | NaN.

Definition Qltb (a b : Q) : bool := negb (Qle_bool b a).

Definition isNaN (x : num) : bool :=
  match x with NaN => true | _ => false end.

(** [if (x)] on a number: zero and NaN are falsy. *)
Definition truthy (x : num) : bool :=
  match x with
  | Fin q => negb (Qeq_bool q 0%Q)
  | PosInf | NegInf => true
  | NaN => false
  end.

Definition num_neg (x : num) : num :=
  match x with
  | Fin q => Fin (- q)%Q
  | PosInf => NegInf
  | NegInf => PosInf
  | NaN => NaN
  end.

Definition num_add (x y : num) : num :=
  match x, y with
  | NaN, _ | _, NaN => NaN
  | Fin a, Fin b => Fin (a + b)%Q
  | PosInf, NegInf | NegInf, PosInf => NaN
  | PosInf, _ | _, PosInf => PosInf
  | NegInf, _ | _, NegInf => NegInf
  end.

Definition num_sub (x y : num) : num := num_add x (num_neg y).

(** The infinity of the sign of [c], NaN for a zero. *)
Definition inf_of_sign (c : comparison) : num :=
  match c with Gt => PosInf | Lt => NegInf | Eq => NaN end.

Definition num_sign (x : num) : comparison :=
  match x with
  | Fin q => (q ?= 0)%Q
  | PosInf => Gt
  | NegInf => Lt
  | NaN => Eq
  end.

Definition sign_mul (a b : comparison) : comparison :=
  match a, b with
  | Eq, _ | _, Eq => Eq
  | Gt, c | c, Gt => c
  | Lt, Lt => Gt
  end.

Definition num_mul (x y : num) : num :=
  match x, y with
  | NaN, _ | _, NaN => NaN
  | Fin a, Fin b => Fin (a * b)%Q
  | _, _ => inf_of_sign (sign_mul (num_sign x) (num_sign y))
  end.

Definition num_div (x y : num) : num :=
  match x, y with
  | NaN, _ | _, NaN => NaN
  | Fin a, Fin b =>
      if Qeq_bool b 0%Q then inf_of_sign (a ?= 0)%Q else Fin (a / b)%Q
  | Fin _, _ => Fin 0%Q
  | _, Fin b =>
      if Qeq_bool b 0%Q then x
      else inf_of_sign (sign_mul (num_sign x) (b ?= 0)%Q)
  | _, _ => NaN
  end.

(** [x < y] and [x <= y]; every comparison with NaN is false. *)
Definition num_ltb (x y : num) : bool :=
  match x, y with
  | NaN, _ | _, NaN => false
  | Fin a, Fin b => Qltb a b
  | NegInf, NegInf | PosInf, _ => false
  | NegInf, _ | _, PosInf => true
  | _, NegInf => false
  end.

Definition num_leb (x y : num) : bool :=
  match x, y with
  | NaN, _ | _, NaN => false
  | Fin a, Fin b => Qle_bool a b
  | NegInf, _ | _, PosInf => true
  | _, _ => false
  end.

(** A count held in a record field, read as a number; an absent field
    reads [undefined], which unary [+] turns into NaN. *)
Definition of_count (n : nat) : num := Fin (inject_Z (Z.of_nat n)).

Definition to_num (v : option nat) : num :=
  match v with Some n => of_count n | None => NaN end.

(** Integer-or-NaN comparisons, as used on minute values. *)
Definition geq (a : option Z) (b : Z) : bool :=
  match a with Some a => b <=? a | None => false end.

Definition leq (a : option Z) (b : Z) : bool :=
  match a with Some a => a <=? b | None => false end.

(** ** Records *)

(** A [Date] holds a time value in milliseconds since the epoch, or is the
    Invalid Date that [new Date(s)] yields for an unparsable string. *)
Inductive Date :=
  | InvalidDate
  | TimeValue (t : Z).

(** A trip row after the row conversion: the two station ids are CSV
    strings, the two timestamps are [Date] objects. *)
Record Trip := mkTrip {
  start_station_id : string;
  end_station_id : string;
  started_at : Date;
  ended_at : Date
}.

(** A station object.  The three derived fields are absent ([None]) on the
    objects that come out of the stations JSON. *)
Record Station := mkStation {
  short_name : string;
  lon : Q;
  lat : Q;
  arrivals : option nat;
  departures : option nat;
  totalTraffic : option nat
}.

(** Station objects live in a heap and arrays hold references to them, so
    that writing through one reference is seen through every other. *)
Abbreviation heap := (list Station).
Abbreviation ref := nat.

(** ** Arrays *)

(** [Array.prototype.flat()] at depth one, on an array of arrays whose
    elements are not arrays themselves. *)
Definition flat {A} (l : list (list A)) : list A := concat l.

(** The relative index of [Array.prototype.slice]: a negative argument
    counts from the end, and both ends are clamped to the array. *)
Definition rel_index (len k : Z) : Z :=
  if k <? 0 then Z.max (len + k) 0 else Z.min k len.

(** [arr.slice(start, end)]; [end_ = None] is the one-argument call. *)
Definition slice {A} (l : list A) (start : Z) (end_ : option Z) : list A :=
  let len := Z.of_nat (length l) in
  let k := rel_index len start in
  let final := match end_ with None => len | Some e => rel_index len e end in
  take (Z.to_nat (final - k)) (drop (Z.to_nat k) l).

(** [stations.map(f)] for a callback that reads and writes the heap.
    [None] is a thrown exception. *)
Fixpoint map_refs (f : heap → ref → option (heap * ref))
    (h : heap) (refs : list ref) : option (heap * list ref) :=
  match refs with
  | [] => Some (h, [])
  | r :: rest =>
      '(h1, r') ← f h r;
      '(h2, out) ← map_refs f h1 rest;
      Some (h2, r' :: out)
  end.

(** ** Clock time *)

(** The offset of local time from UTC, in milliseconds, at a time value:
    it is fixed by the host's time zone, not by the program. *)
Class TimeZone := LocalTZA : Z → Z.

Definition msPerMinute : Z := 60000.
Definition msPerHour : Z := 3600000.

Section Clock.
Context `{TimeZone}.

Definition LocalTime (t : Z) : Z := t + LocalTZA t.

(** [date.getHours()] and [date.getMinutes()]: NaN on an Invalid Date. *)
Definition getHours (date : Date) : option Z :=
  match date with
  | InvalidDate => None
  | TimeValue t => Some ((LocalTime t / msPerHour) mod 24)
  end.

Definition getMinutes (date : Date) : option Z :=
  match date with
  | InvalidDate => None
  | TimeValue t => Some ((LocalTime t / msPerMinute) mod 60)
  end.

(** map.js and the variant, [minutesSinceMidnight]. *)
Definition minutesSinceMidnight (date : Date) : option Z :=
  h ← getHours date; m ← getMinutes date; Some (h * 60 + m).
End Clock.

(** ** Time bucketing (map.js) *)

Record Buckets := mkBuckets {
  departuresByMinute : list (list Trip);
  arrivalsByMinute : list (list Trip)
}.

(** [Array.from({ length: 1440 }, () => [])], twice. *)
Definition empty_table : list (list Trip) := replicate 1440 [].

Definition empty_buckets : Buckets :=
  {| departuresByMinute := empty_table; arrivalsByMinute := empty_table |}.

(** [tbl[i].push(trip)]: outside the table, and at NaN, [tbl[i]] is
    [undefined] and the call throws. *)
Definition push_bucket (tbl : list (list Trip)) (i : option Z) (trip : Trip)
  : option (list (list Trip)) :=
  match i with
  | None => None
  | Some i =>
      if (0 <=? i) && (i <? Z.of_nat (length tbl))
      then Some (alter (λ b, b ++ [trip]) (Z.to_nat i) tbl)
      else None
  end.

Section Bucketing.
Context `{TimeZone}.

(** The row callback given to [d3.csv]. *)
Definition row_conversion (b : Buckets) (trip : Trip) : option Buckets :=
  let startedMinutes := minutesSinceMidnight (started_at trip) in
  let endedMinutes := minutesSinceMidnight (ended_at trip) in
  dep ← push_bucket (departuresByMinute b) startedMinutes trip;
  arr ← push_bucket (arrivalsByMinute b) endedMinutes trip;
  Some {| departuresByMinute := dep; arrivalsByMinute := arr |}.

(** [d3.csv] calls the row callback on every row in file order; an
    exception rejects the promise and the [catch] returns. *)
Fixpoint csv_rows (b : Buckets) (trips : list Trip) : option Buckets :=
  match trips with
  | [] => Some b
  | trip :: rest => b' ← row_conversion b trip; csv_rows b' rest
  end.
End Bucketing.

(** ** Windowed trip query *)

(** map.js, [filterByMinute]; [%] is the truncating remainder. *)
Definition filterByMinute {A} (tripsByMinute : list (list A)) (minute : Z)
  : list A :=
  if minute =? -1 then flat tripsByMinute
  else
    let minMinute := Z.rem (minute - 60 + 1440) 1440 in
    let maxMinute := Z.rem (minute + 60) 1440 in
    if minMinute >? maxMinute then
      let beforeMidnight := slice tripsByMinute minMinute None in
      let afterMidnight := slice tripsByMinute 0 (Some maxMinute) in
      flat (beforeMidnight ++ afterMidnight)
    else flat (slice tripsByMinute minMinute (Some maxMinute)).

(** ** d3-array

    The d3 functions follow the sources of d3 7 (d3-array 3, d3-scale 4,
    d3-interpolate 3), the version both files import. *)

(** The grouping loop of [d3.rollup]: a value joins the group of its key,
    or opens it. *)
Definition group_push {V} (groups : gmap string (list V)) (key : string)
    (value : V) : gmap string (list V) :=
  match groups !! key with
  | Some group => <[key := group ++ [value]]> groups
  | None => <[key := [value]]> groups
  end.

(** [d3.rollup(values, reduce, key)]. *)
Definition rollup {V R} (values : list V) (reduce : list V → R)
    (key : V → string) : gmap string R :=
  reduce <$> foldl (λ groups v, group_push groups (key v) v) ∅ values.

(** [d3.max(values, accessor)] on accessed values: [undefined] entries are
    skipped, and the result is [undefined] when nothing is left. *)
Definition d3_max (values : list (option nat)) : option nat :=
  foldl (λ max value,
           match value, max with
           | None, _ => max
           | Some v, None => Some v
           | Some v, Some m => if (m <? v)%nat then Some v else max
           end) None values.

(** ** Station traffic aggregation *)

(** The three assignments of map.js, as one record update. *)
Definition set_traffic (station : Station) (arrivalsCount departuresCount : nat)
  : Station :=
  {| short_name := short_name station;
     lon := lon station;
     lat := lat station;
     arrivals := Some arrivalsCount;
     departures := Some departuresCount;
     totalTraffic := Some (arrivalsCount + departuresCount)%nat |}.

(** map.js, the callback of [stations.map]: it writes the counts into the
    station object itself and returns that same object.  An array element
    that is no object makes [station.short_name] throw. *)
Definition update_station (arrivals departures : gmap string nat)
    (h : heap) (r : ref) : option (heap * ref) :=
  station ← h !! r;
  let id := short_name station in
  let arrivalsCount := default 0%nat (arrivals !! id) in
  let departuresCount := default 0%nat (departures !! id) in
  Some (<[r := set_traffic station arrivalsCount departuresCount]> h, r).

(** map.js, [computeStationTraffic]. *)
Definition computeStationTraffic (b : Buckets) (h : heap)
    (stations : list ref) (currentTimeFilter : Z) : option (heap * list ref) :=
  let departures :=
    rollup (filterByMinute (departuresByMinute b) currentTimeFilter)
           length start_station_id in
  let arrivals :=
    rollup (filterByMinute (arrivalsByMinute b) currentTimeFilter)
           length end_station_id in
  map_refs (update_station arrivals departures) h stations.

(** ** The linear-scan variant *)

Module Scan.
(** The spread [{...station, departures, arrivals, totalTraffic}]. *)
Definition spread_traffic (station : Station) (dep arr : nat) : Station :=
  {| short_name := short_name station;
     lon := lon station;
     lat := lat station;
     arrivals := Some arr;
     departures := Some dep;
     totalTraffic := Some (dep + arr)%nat |}.

(** The callback of [stations.map]: a new object is allocated. *)
Definition copy_station (departures arrivals : gmap string nat)
    (h : heap) (r : ref) : option (heap * ref) :=
  station ← h !! r;
  let id := short_name station in
  let dep := default 0%nat (departures !! id) in
  let arr := default 0%nat (arrivals !! id) in
  Some (h ++ [spread_traffic station dep arr], length h).

Section WithClock.
Context `{TimeZone}.

Definition filterTripsByTime (allTrips : list Trip) (minute : Z)
  : list Trip :=
  if minute =? -1 then allTrips
  else
    let min := minute - 60 in
    let max := minute + 60 in
    List.filter
      (λ trip,
         let startM := minutesSinceMidnight (started_at trip) in
         let endM := minutesSinceMidnight (ended_at trip) in
         (geq startM min && leq startM max)
         || (geq endM min && leq endM max))
      allTrips.

Definition computeStationTraffic (trips : list Trip) (h : heap)
    (stations : list ref) (currentTime : Z) : option (heap * list ref) :=
  let activeTrips := filterTripsByTime trips currentTime in
  let departures := rollup activeTrips length start_station_id in
  let arrivals := rollup activeTrips length end_station_id in
  map_refs (copy_station departures arrivals) h stations.
End WithClock.
End Scan.

(** ** d3-scale *)

(** [Math.sqrt] on a finite, non-negative argument: its rounding is the
    host's, so the function is left open. *)
Class Sqrt := Math_sqrt : Q → Q.

Definition sqrt_num `{Sqrt} (x : num) : num :=
  match x with
  | Fin q => if Qltb q 0%Q then NaN else Fin (Math_sqrt q)
  | PosInf => PosInf
  | NegInf | NaN => NaN
  end.

(** pow.js, [transformSqrt]: [x < 0 ? -Math.sqrt(-x) : Math.sqrt(x)]. *)
Definition transformSqrt `{Sqrt} (x : num) : num :=
  if num_ltb x (Fin 0%Q) then num_neg (sqrt_num (num_neg x)) else sqrt_num x.

(** continuous.js, [normalize]:
    [(b -= (a = +a)) ? x => (x - a) / b : constant(isNaN(b) ? NaN : 0.5)]. *)
Definition normalize (a b : num) : num → num :=
  let b := num_sub b a in
  if truthy b then λ x, num_div (num_sub x a) b
  else λ _, if isNaN b then NaN else Fin (1 # 2).

(** d3-interpolate, [interpolateNumber]: [t => a * (1 - t) + b * t]. *)
Definition interpolateNumber (a b : num) : num → num :=
  λ t, num_add (num_mul a (num_sub (Fin 1%Q) t)) (num_mul b t).

(** continuous.js, [bimap], with the number interpolator. *)
Definition bimap (domain range : num * num) : num → num :=
  let '(d0, d1) := domain in
  let '(r0, r1) := range in
  if num_ltb d1 d0
  then λ x, interpolateNumber r1 r0 (normalize d1 d0 x)
  else λ x, interpolateNumber r0 r1 (normalize d0 d1 x).

(** A continuous scale with a two-point domain and range. *)
Record Scale := mkScale {
  domain : num * num;
  range : num * num
}.

(** [d3.scaleSqrt().range([0, 25])]: the domain starts as the unit
    interval. *)
Definition initial_radiusScale : Scale :=
  {| domain := (Fin 0%Q, Fin 1%Q); range := (Fin 0%Q, Fin 25%Q) |}.

(** continuous.js, [scale(x)] for the square-root transform, called on a
    field value: an absent field gives the scale's unknown, [undefined]. *)
Definition scale_sqrt `{Sqrt} (s : Scale) (x : option nat) : option num :=
  match x with
  | None => None
  | Some n =>
      Some (bimap (transformSqrt (domain s).1, transformSqrt (domain s).2)
                  (range s) (transformSqrt (of_count n)))
  end.

(** quantize.js, [rescale]: the [n] thresholds
    [((i + 1) * x1 - (i - n) * x0) / (n + 1)]. *)
Definition quantize_thresholds (x0 x1 : Q) (n : nat) : list Q :=
  (λ i : nat,
     ((inject_Z (Z.of_nat i + 1) * x1
       - (inject_Z (Z.of_nat i) - inject_Z (Z.of_nat n)) * x0)
      / inject_Z (Z.of_nat n + 1))%Q) <$> seq 0 n.

(** d3-array, the loop of [bisectRight]. *)
Fixpoint bisect_loop (fuel : nat) (a : list Q) (x : num) (lo hi : nat) : nat :=
  match fuel with
  | O => lo
  | S fuel =>
      if (lo <? hi)%nat then
        let mid := ((lo + hi) / 2)%nat in
        if num_leb (default NaN (Fin <$> a !! mid)) x
        then bisect_loop fuel a x (mid + 1)%nat hi
        else bisect_loop fuel a x lo mid
      else lo
  end.

(** Every turn of the loop shrinks [hi - lo], so [hi - lo] turns end it. *)
Definition bisect (a : list Q) (x : num) (lo hi : nat) : nat :=
  bisect_loop (S (hi - lo)) a x lo hi.

(** quantize.js, [scale(x)]: [x <= x ? range[bisect(domain, x, 0, n)] :
    unknown]. *)
Definition scale_quantize (x0 x1 : Q) (range : list Q) (x : num) : option Q :=
  let n := (length range - 1)%nat in
  let domain := quantize_thresholds x0 x1 n in
  if num_leb x x then range !! bisect domain x 0 n else None.

(** [d3.scaleQuantize().domain([0, 1]).range([0, 0.5, 1])]. *)
Definition stationFlow : num → option Q :=
  scale_quantize 0 1 [0%Q; (1 # 2)%Q; 1%Q].

(** The argument of [stationFlow] at both call sites:
    [d.totalTraffic > 0 ? d.departures / d.totalTraffic : 0]. *)
Definition departure_ratio (d : Station) : num :=
  if num_ltb (Fin 0%Q) (to_num (totalTraffic d))
  then num_div (to_num (departures d)) (to_num (totalTraffic d))
  else Fin 0%Q.

(** ** d3-selection: the keyed data join

    A circle of the page is an element with an identity: the selection
    that map.js keeps from loading and the children of the SVG refer to
    the same elements, and an attribute set through one is seen through
    the other.  The elements are held in a heap of their own and a
    selection is an array of references into it. *)

(** A circle element: the datum bound to it ([__data__]), its [r]
    attribute and its [--departure-ratio] style, [None] where not set.
    The [cx] and [cy] attributes, which come from the projection of the
    map, and the [title] child are not represented. *)
Record Circle := mkCircle {
  datum : ref;
  attr_r : option num;
  style_departure_ratio : option Q
}.

Abbreviation elem := nat.

(** The key function [d => d.short_name]: reading the name of what is no
    object throws. *)
Definition key_of (h : heap) (d : ref) : option string :=
  short_name <$> h !! d.

(** [node.__data__ = d]. *)
Definition rebind (d : ref) (c : Circle) : Circle :=
  {| datum := d;
     attr_r := attr_r c;
     style_departure_ratio := style_departure_ratio c |}.

(** data.js, [bindKey], first loop, over the nodes of the group: the key
    of the datum of every node is computed and kept; the first node of a
    key enters [nodeByKeyValue], a later node of the same key is marked
    for the exit selection. *)
Fixpoint key_nodes (h : heap) (els : list Circle) (group : list elem)
    (nodeByKeyValue : gmap string elem)
  : option (gmap string elem * list (elem * string * bool)) :=
  match group with
  | [] => Some (nodeByKeyValue, [])
  | node :: rest =>
      c ← els !! node;
      keyValue ← key_of h (datum c);
      match nodeByKeyValue !! keyValue with
      | Some _ =>
          '(m, keyed) ← key_nodes h els rest nodeByKeyValue;
          Some (m, (node, keyValue, true) :: keyed)
      | None =>
          '(m, keyed) ←
            key_nodes h els rest (<[keyValue := node]> nodeByKeyValue);
          Some (m, (node, keyValue, false) :: keyed)
      end
  end.

(** Second loop, over the data: a datum whose key has a node takes that
    node into the update selection, is bound to it, and uses the key up;
    any other datum leaves a hole there, which is its place in the enter
    selection. *)
Fixpoint key_data (h : heap) (els : list Circle) (data : list ref)
    (nodeByKeyValue : gmap string elem)
  : option (list Circle * gmap string elem * list (option elem)) :=
  match data with
  | [] => Some (els, nodeByKeyValue, [])
  | d :: rest =>
      keyValue ← key_of h d;
      match nodeByKeyValue !! keyValue with
      | Some node =>
          '(els', m, update) ←
            key_data h (alter (rebind d) node els) rest
                     (delete keyValue nodeByKeyValue);
          Some (els', m, Some node :: update)
      | None =>
          '(els', m, update) ← key_data h els rest nodeByKeyValue;
          Some (els', m, None :: update)
      end
  end.

(** Third loop: the exit selection holds the nodes marked by the first
    loop and every node still found under its key. *)
Definition exit_nodes (nodeByKeyValue : gmap string elem)
    (keyed : list (elem * string * bool)) : list elem :=
  omap (λ entry : elem * string * bool,
          let '(node, keyValue, seen) := entry in
          if seen || bool_decide (nodeByKeyValue !! keyValue = Some node)
          then Some node else None) keyed.

(** [bindKey] on one group: the elements after binding, the update
    selection with its holes, and the exit selection. *)
Definition bindKey (h : heap) (els : list Circle) (group : list elem)
    (data : list ref)
  : option (list Circle * list (option elem) * list elem) :=
  '(m, keyed) ← key_nodes h els group ∅;
  '(els', m', update) ← key_data h els data m;
  Some (els', update, exit_nodes m' keyed).

(** [enter().append('circle')] and [merge]: every hole of the update
    selection gets a new element, bound to the datum of the hole and with
    nothing set; returned are the elements, the new ones, and per datum
    the node now joined to it. *)
Fixpoint enter_append (els : list Circle) (data : list ref)
    (update : list (option elem)) : list Circle * list elem * list elem :=
  match data, update with
  | _ :: data', Some node :: update' =>
      let '(els', entered, merged) := enter_append els data' update' in
      (els', entered, node :: merged)
  | d :: data', None :: update' =>
      let '(els', entered, merged) :=
        enter_append (els ++ [mkCircle d None None]) data' update' in
      (els', length els :: entered, length els :: merged)
  | _, _ => (els, [], [])
  end.

(** [selection.remove()] on the children of the SVG. *)
Definition remove (exit : list elem) (children : list elem) : list elem :=
  filter (λ node, node ∉ exit) children.

(** [selection.attr], [selection.style] with a function: every node of
    the selection is changed by what the function returns for it. *)
Definition each (f : Circle → Circle) (selection : list elem)
    (els : list Circle) : list Circle :=
  foldl (λ els node, alter f node els) els selection.

(** ** The page (map.js)

    The state of the page: the two bucket tables, the station objects,
    the station array, the circle elements with the children of the SVG
    (in the order of their creation; the order in the document, which a
    join may change, is not represented) and the selection [circles] kept
    from loading, the radius scale and the time filter. *)

Record App := mkApp {
  buckets : Buckets;
  store : heap;
  stationsData : list ref;
  nodes : list Circle;
  svg : list elem;
  circles : list elem;
  radiusScale : Scale;
  timeFilter : Z
}.

(** [d => d.totalTraffic] on a bound datum. *)
Definition total_of (h : heap) (r : ref) : option nat :=
  h !! r ≫= totalTraffic.

(** The range chosen by [updateScatterPlot]. *)
Definition range_for (currentTimeFilter : Z) : num * num :=
  if currentTimeFilter =? -1 then (Fin 0%Q, Fin 25%Q) else (Fin 3%Q, Fin 50%Q).

(** [d => stationFlow(d.totalTraffic > 0 ? d.departures / d.totalTraffic
    : 0)] on a bound datum. *)
Definition flow_of (h : heap) (r : ref) : option Q :=
  d ← h !! r; stationFlow (departure_ratio d).

(** What [style('--departure-ratio', …)] does to a node. *)
Definition set_departure_ratio (h : heap) (c : Circle) : Circle :=
  {| datum := datum c;
     attr_r := attr_r c;
     style_departure_ratio := flow_of h (datum c) |}.

Section Drawing.
Context `{Sqrt}.

(** What [attr('r', d => radiusScale(d.totalTraffic))] does to a node. *)
Definition set_r (scale : Scale) (h : heap) (c : Circle) : Circle :=
  {| datum := datum c;
     attr_r := scale_sqrt scale (total_of h (datum c));
     style_departure_ratio := style_departure_ratio c |}.

(** The chain [.attr('r', …).each(…).style('--departure-ratio', …)] on a
    selection. *)
Definition draw (scale : Scale) (h : heap) (selection : list elem)
    (els : list Circle) : list Circle :=
  each (set_departure_ratio h) selection (each (set_r scale h) selection els).

(** map.js, [updateScatterPlot]: the stations are recounted, the range of
    the radius scale is set, and the selection kept from loading is joined
    by name to the result: a station whose name has a node in [circles]
    takes that node, any other station gets a new circle under the SVG,
    the nodes of [circles] left over are removed from the SVG, and the
    circles so joined are drawn.  The selection that [join] returns is
    not kept: [circles] stays what it was. *)
Definition updateScatterPlot (app : App) (currentTimeFilter : Z) : option App :=
  '(h1, filteredStations) ←
    computeStationTraffic (buckets app) (store app) (stationsData app)
                          currentTimeFilter;
  let scale := {| domain := domain (radiusScale app);
                  range := range_for currentTimeFilter |} in
  '(bound, update, exit) ←
    bindKey h1 (nodes app) (circles app) filteredStations;
  let '(appended, entered, joined) :=
    enter_append bound filteredStations update in
  Some {| buckets := buckets app;
          store := h1;
          stationsData := stationsData app;
          nodes := draw scale h1 joined appended;
          svg := remove exit (svg app ++ entered);
          circles := circles app;
          radiusScale := scale;
          timeFilter := timeFilter app |}.

(** map.js, [updateTimeDisplay], on the slider's value. *)
Definition updateTimeDisplay (app : App) (sliderValue : Z) : option App :=
  updateScatterPlot
    {| buckets := buckets app; store := store app;
       stationsData := stationsData app; nodes := nodes app;
       svg := svg app; circles := circles app;
       radiusScale := radiusScale app; timeFilter := sliderValue |}
    sliderValue.

(** A run of slider events. *)
Fixpoint slide (app : App) (values : list Z) : option App :=
  match values with
  | [] => Some app
  | v :: rest => app' ← updateTimeDisplay app v; slide app' rest
  end.

(** What the callback of [attr('r', …)] returns for every station, with
    the scale and the counts that the page holds: the radius that a
    drawing gives the circle joined to the station. *)
Definition radius_attrs (app : App) : list (option num) :=
  (λ r, scale_sqrt (radiusScale app) (total_of (store app) r))
    <$> stationsData app.
End Drawing.

(** What the callback of [style('--departure-ratio', …)] returns for
    every station. *)
Definition flow_attrs (app : App) : list (option Q) :=
  (λ r, d ← store app !! r; stationFlow (departure_ratio d))
    <$> stationsData app.

(** The [r] attribute and the [--departure-ratio] style of every circle
    under the SVG. *)
Definition page_radii (app : App) : list (option num) :=
  (λ node, nodes app !! node ≫= attr_r) <$> svg app.

Definition page_flows (app : App) : list (option Q) :=
  (λ node, nodes app !! node ≫= style_departure_ratio) <$> svg app.

Section Page.
Context `{TimeZone} `{Sqrt}.

(** map.js, the load handler from the trips CSV to the first drawing:
    bucketing, the unfiltered count, the domain of the radius scale, and
    one circle entered for every station of the result (the SVG holds no
    circle before), which is the selection kept as [circles].  The call
    of [updateTimeDisplay] that ends the handler is the first event of a
    run of [slide]. *)
Definition on_load (h : heap) (stationsData : list ref) (trips : list Trip)
  : option App :=
  b ← csv_rows empty_buckets trips;
  '(h1, stations) ← computeStationTraffic b h stationsData (-1);
  let scale :=
    {| domain := (Fin 0%Q, to_num (d3_max (total_of h1 <$> stations)));
       range := range initial_radiusScale |} in
  '(bound, update, _) ← bindKey h1 [] [] stations;
  let '(appended, entered, _) := enter_append bound stations update in
  Some {| buckets := b;
          store := h1;
          stationsData := stationsData;
          nodes := draw scale h1 entered appended;
          svg := entered;
          circles := entered;
          radiusScale := scale;
          timeFilter := -1 |}.
End Page.

(** ** The page (linear-scan variant) *)

Module ScanPage.
Record App := mkApp {
  trips : list Trip;
  store : heap;
  stations : list ref;
  stationsWithTraffic : list ref;
  radiusScale : Scale;
  timeFilter : Z
}.

Section WithClock.
Context `{TimeZone}.

Definition on_load (h : heap) (stations : list ref) (trips : list Trip)
  : option App :=
  '(h1, stationsWithTraffic) ← Scan.computeStationTraffic trips h stations (-1);
  Some {| trips := trips;
          store := h1;
          stations := stations;
          stationsWithTraffic := stationsWithTraffic;
          radiusScale :=
            {| domain := (Fin 0%Q,
                          to_num (d3_max (total_of h1 <$> stationsWithTraffic)));
               range := range initial_radiusScale |};
          timeFilter := -1 |}.

Definition updateScatterPlot (app : App) (currentTime : Z) : option App :=
  '(h1, stationsWithTraffic) ←
    Scan.computeStationTraffic (trips app) (store app) (stations app)
                               currentTime;
  Some {| trips := trips app;
          store := h1;
          stations := stations app;
          stationsWithTraffic := stationsWithTraffic;
          radiusScale := {| domain := domain (radiusScale app);
                            range := range_for currentTime |};
          timeFilter := timeFilter app |}.

Definition updateTimeDisplay (app : App) (sliderValue : Z) : option App :=
  updateScatterPlot
    {| trips := trips app; store := store app; stations := stations app;
       stationsWithTraffic := stationsWithTraffic app;
       radiusScale := radiusScale app; timeFilter := sliderValue |}
    sliderValue.

Fixpoint slide (app : App) (values : list Z) : option App :=
  match values with
  | [] => Some app
  | v :: rest => app' ← updateTimeDisplay app v; slide app' rest
  end.
End WithClock.
End ScanPage.


(** * Part II: the vocabulary of the specification *)

(** The bucket at index [i] of a table (empty outside the table). *)
Definition bucket {A} (tbl : list (list A)) (i : nat) : list A :=
  default [] (tbl !! i).

(** The table whose bucket [i] holds the index [i] alone: querying it
    lists the bucket indices that a query visits, in visiting order. *)
Definition index_table : list (list nat) := (λ i, [i]) <$> seq 0 1440.

Definition window_indices (minute : Z) : list nat :=
  filterByMinute index_table minute.

(** The window in the words of the specification: the half-open circular
    interval from [lo] walking forward to [hi] on the 1440-minute dial. *)
Definition circular_window (lo hi : nat) : list nat :=
  if (lo <=? hi)%nat then seq lo (hi - lo)
  else seq lo (1440 - lo) ++ seq 0 hi.

Definition minMinute_of (m : Z) : nat := Z.to_nat ((m - 60 + 1440) mod 1440).
Definition maxMinute_of (m : Z) : nat := Z.to_nat ((m + 60) mod 1440).

(** The sum of the bucket lengths of a table. *)
Definition total_length {A} (tbl : list (list A)) : nat :=
  sum_list (length <$> tbl).

(** A trip whose two timestamps were parsed. *)
Definition valid_trip (t : Trip) : Prop :=
  started_at t ≠ InvalidDate ∧ ended_at t ≠ InvalidDate.

(** The number of trips of a selection that leave from, or arrive at, the
    station named [id]. *)
Definition count_departures (selected : list Trip) (id : string) : nat :=
  length (filter (λ t, start_station_id t = id) selected).

Definition count_arrivals (selected : list Trip) (id : string) : nat :=
  length (filter (λ t, end_station_id t = id) selected).

(** The minutes of the day at which a trip starts and ends. *)
Definition start_minute `{TimeZone} (t : Trip) : option Z :=
  minutesSinceMidnight (started_at t).

Definition end_minute `{TimeZone} (t : Trip) : option Z :=
  minutesSinceMidnight (ended_at t).

(** A station record carrying the counts [dep] and [arr]. *)
Definition has_traffic (s : Station) (dep arr : nat) : Prop :=
  departures s = Some dep ∧ arrivals s = Some arr
  ∧ totalTraffic s = Some (arr + dep)%nat.

(** What a caller sees of the returned stations: for each, its name and
    its three derived fields. *)
Definition traffic_view (h : heap) (refs : list ref)
  : list (option (string * option nat * option nat * option nat)) :=
  (λ r, (λ s, (short_name s, arrivals s, departures s, totalTraffic s))
          <$> h !! r) <$> refs.

(** The record that map.js leaves in place of [s], and the record that
    the variant allocates for [s], given the two count maps. *)
Definition derived (arr dep : gmap string nat) (s : Station) : Station :=
  set_traffic s (default 0%nat (arr !! short_name s))
                (default 0%nat (dep !! short_name s)).

Definition scan_derived (dep arr : gmap string nat) (s : Station) : Station :=
  Scan.spread_traffic s (default 0%nat (dep !! short_name s))
                        (default 0%nat (arr !! short_name s)).

(** The record at [r'] in the heap [h'] is the station at [r] in [h]
    with the counts of the two selections, zeros included. *)
Definition counted (h h' : heap) (r r' : ref) (sel_dep sel_arr : list Trip)
  : Prop :=
  ∃ s s', h !! r = Some s ∧ h' !! r' = Some s'
    ∧ short_name s' = short_name s
    ∧ has_traffic s' (count_departures sel_dep (short_name s))
                     (count_arrivals sel_arr (short_name s))
    ∧ (count_departures sel_dep (short_name s) = 0%nat →
       count_arrivals sel_arr (short_name s) = 0%nat →
       arrivals s' = Some 0%nat ∧ departures s' = Some 0%nat
       ∧ totalTraffic s' = Some 0%nat).

(** The input records are as they were and the returned ones are new. *)
Definition leaves_input_untouched (h h' : heap) (stations out : list ref)
  : Prop :=
  (∀ r, r ∈ stations → h' !! r = h !! r)
  ∧ (∀ r, r ∈ out → (length h ≤ r)%nat).

(** The two pipelines, run on the same stations, trips and filter value,
    hand back stations with the same names and the same three counts. *)
Definition variants_agree `{TimeZone} (h : heap) (stations : list ref)
    (trips : list Trip) (f : Z) : Prop :=
  ∃ b h1 out1 h2 out2,
    csv_rows empty_buckets trips = Some b
    ∧ computeStationTraffic b h stations f = Some (h1, out1)
    ∧ Scan.computeStationTraffic trips h stations f = Some (h2, out2)
    ∧ traffic_view h1 out1 = traffic_view h2 out2.

(** A minute value inside the window that map.js queries for [f], and
    inside the closed range [f - 60 .. f + 60] that the variant tests. *)
Definition in_window (f : Z) (minute : option Z) : Prop :=
  Exists (λ i : nat, minute = Some (Z.of_nat i)) (window_indices f).

Definition in_closed_range (f : Z) (minute : option Z) : Prop :=
  match minute with
  | Some i => f - 60 ≤ i ≤ f + 60
  | None => False
  end.

(** The variant's test of a trip: its start or its end is in range. *)
Definition scan_selects `{TimeZone} (f : Z) (t : Trip) : Prop :=
  in_closed_range f (start_minute t) ∨ in_closed_range f (end_minute t).

(** The condition under which a minute filter selects the same trips in
    both variants: for every trip, starting inside the window, ending
    inside the window and passing the variant's test all coincide. *)
Definition selections_coincide `{TimeZone} (trips : list Trip) (f : Z)
  : Prop :=
  ∀ t, t ∈ trips →
    (in_window f (start_minute t) ↔ scan_selects f t)
    ∧ (in_window f (end_minute t) ↔ scan_selects f t).

#[global] Instance in_window_dec (f : Z) (minute : option Z) :
  Decision (in_window f minute).
Proof. unfold in_window. apply _. Defined.

#[global] Instance in_closed_range_dec (f : Z) (minute : option Z) :
  Decision (in_closed_range f minute).
Proof. destruct minute; simpl; apply _. Defined.

#[global] Instance scan_selects_dec `{TimeZone} (f : Z) (t : Trip) :
  Decision (scan_selects f t).
Proof. unfold scan_selects. apply _. Defined.

(** The upper end of the radius scale's domain is the largest
    totalTraffic among the stations as they are now counted. *)
Definition domain_tracks_filter (app : App) : Prop :=
  (domain (radiusScale app)).2
  = to_num (d3_max (total_of (store app) <$> stationsData app)).

(** The range that a run of slider events leaves on the radius scale. *)
Definition last_range (values : list Z) : num * num :=
  match last values with
  | Some v => range_for v
  | None => range initial_radiusScale
  end.

(** Every station gets the lower end of the range as its radius, and
    every station gets the middle of the range. *)
Definition radii_at_range_minimum `{Sqrt} (app : App) : Prop :=
  Forall (λ radius, radius = Some (range (radiusScale app)).1)
         (radius_attrs app).

Definition radii_at_range_middle `{Sqrt} (app : App) : Prop :=
  Forall (λ radius, ∃ q r0 r1,
            radius = Some (Fin q)
            ∧ range (radiusScale app) = (Fin r0, Fin r1)
            ∧ (q == (r0 + r1) / 2)%Q)
         (radius_attrs app).

(** A square root on the rationals, rounded down to 26 binary places. *)
Definition rational_sqrt : Sqrt :=
  λ q, Qmake (Z.sqrt (Qnum q * 2 ^ 52 / Z.pos (Qden q))) (2 ^ 26).

(** What the radius scale needs of the host's square root on counts: 0
    at 0, positive on positive counts, and monotone. *)
Definition sqrt_fits_counts `{Sqrt} : Prop :=
  (Math_sqrt 0 == 0)%Q
  ∧ (∀ k : nat, (0 < k)%nat → (0 < Math_sqrt (inject_Z (Z.of_nat k)))%Q)
  ∧ (∀ j k : nat, (j ≤ k)%nat →
       (Math_sqrt (inject_Z (Z.of_nat j))
        <= Math_sqrt (inject_Z (Z.of_nat k)))%Q).

(** The [r] attribute of every circle under the SVG is a finite number
    within the range of the scale. *)
Definition radii_within_range (app : App) : Prop :=
  ∃ r0 r1, range (radiusScale app) = (Fin r0, Fin r1)
    ∧ Forall (λ radius, ∃ v, radius = Some (Fin v) ∧ (r0 <= v <= r1)%Q)
             (page_radii app).

(** Every circle that the page holds, in the selection kept from loading
    or under the SVG, is an element bound to a listed station. *)
Definition circles_bound (app : App) : Prop :=
  ∀ node, node ∈ circles app ∨ node ∈ svg app →
    ∃ c, nodes app !! node = Some c ∧ datum c ∈ stationsData app.

(** The page holds one circle for every listed station: the circles of
    the selection kept from loading are the elements of the page, they
    are the children of the SVG, and circle [i] is bound to station
    [i]. *)
Definition one_circle_per_station (app : App) : Prop :=
  circles app = seq 0 (length (nodes app))
  ∧ svg app = circles app
  ∧ datum <$> nodes app = stationsData app.

(** What binding may change of the elements: the datum of an element,
    to one of the data. *)
Definition rebound (data : list ref) (els els' : list Circle) : Prop :=
  length els' = length els
  ∧ ∀ node c, els !! node = Some c →
      ∃ c', els' !! node = Some c'
        ∧ attr_r c' = attr_r c
        ∧ style_departure_ratio c' = style_departure_ratio c
        ∧ (datum c' = datum c ∨ datum c' ∈ data).

(** The elements of a page that holds one circle for every station of
    [data], each drawn with the scale [scale] and the counts [h]. *)
Definition drawn `{Sqrt} (scale : Scale) (h : heap) (data : list ref)
  : list Circle :=
  (λ d, mkCircle d (scale_sqrt scale (total_of h d)) (flow_of h d)) <$> data.

(** The windowed query of the specification, read for the variant, which
    holds no bucket table: the trips returned are those whose start
    minute lies in the half-open circular window. *)
Definition scan_returns_window `{TimeZone} (trips : list Trip) (m : Z)
  : Prop :=
  ∀ t, t ∈ Scan.filterTripsByTime trips m
       ↔ t ∈ trips ∧ in_window m (start_minute t).

(** The object at [r] is a station record that carries counts. *)
Definition carries_counts (h : heap) (r : ref) : Prop :=
  ∃ s dep arr, h !! r = Some s ∧ has_traffic s dep arr.

(** For every station, the flow style that the callback returns is one
    of the three levels. *)
Definition flows_are_levels (app : App) : Prop :=
  Forall (λ style, ∃ level, style = Some level
                            ∧ level ∈ [0%Q; (1 # 2)%Q; 1%Q])
         (flow_attrs app).

(** What a station is, apart from its counts. *)
Definition ident (s : Station) : string * Q * Q :=
  (short_name s, lon s, lat s).

(** The names of the listed stations, in list order. *)
Definition listed_names (h : heap) (refs : list ref) : list string :=
  omap (λ r, short_name <$> h !! r) refs.

(** The departures and arrivals shown for a reference, 0 where absent. *)
Definition shown_departures (h : heap) (r : ref) : nat :=
  default 0%nat (h !! r ≫= departures).

Definition shown_arrivals (h : heap) (r : ref) : nat :=
  default 0%nat (h !! r ≫= arrivals).

(** The two count maps that map.js builds for a filter value. *)
Definition window_arrivals (b : Buckets) (f : Z) : gmap string nat :=
  rollup (filterByMinute (arrivalsByMinute b) f) length end_station_id.

Definition window_departures (b : Buckets) (f : Z) : gmap string nat :=
  rollup (filterByMinute (departuresByMinute b) f) length start_station_id.

(** Every reference of an array points at an object. *)
Definition well_formed (h : heap) (refs : list ref) : Prop :=
  Forall (λ r, (r < length h)%nat) refs.

(** ** Sample data: the scenario of the specification, read in UTC *)

Definition UTC : TimeZone := λ _, 0.

Definition at_clock (h m : Z) : Date := TimeValue ((h * 60 + m) * msPerMinute).

Definition trip_AB : Trip := mkTrip "A" "B" (at_clock 8 5) (at_clock 8 20).
Definition trip_BA : Trip := mkTrip "B" "A" (at_clock 8 10) (at_clock 8 25).

Definition station_A : Station := mkStation "A" 0 0 None None None.
Definition station_B : Station := mkStation "B" 1 1 None None None.

Definition scenario_trips : list Trip := [trip_AB; trip_BA].
Definition scenario_heap : heap := [station_A; station_B].
Definition scenario_refs : list ref := [0%nat; 1%nat].

(** The tables after loading the two trips. *)
Definition scenario_buckets : Buckets :=
  default empty_buckets (@csv_rows UTC empty_buckets scenario_trips).

(** Station A as the unfiltered count leaves it. *)
Definition counted_station_A : Station :=
  mkStation "A" 0 0 (Some 1%nat) (Some 1%nat) (Some 2%nat).

(** A trip that leaves at 11:00, the closing minute of the window of
    10:00. *)
Definition trip_edge : Trip := mkTrip "A" "B" (at_clock 11 0) (at_clock 11 10).

(** A trip whose start was not parsed. *)
Definition trip_unparsed : Trip := mkTrip "A" "B" InvalidDate (at_clock 8 20).

(** A table with one trip in each of the buckets 1430, 50 and 200. *)
Definition trip_late : Trip := mkTrip "A" "B" (at_clock 23 50) (at_clock 23 55).
Definition trip_early : Trip := mkTrip "B" "A" (at_clock 0 50) (at_clock 0 58).
Definition trip_other : Trip := mkTrip "A" "A" (at_clock 3 20) (at_clock 3 40).

Definition sample_table : list (list Trip) :=
  <[1430%nat := [trip_late]]>
    (<[50%nat := [trip_early]]> (<[200%nat := [trip_other]]> empty_table)).

(** The three trips of the table, as the trip list of the variant. *)
Definition sample_trips : list Trip := [trip_late; trip_early; trip_other].

(** The page after loading the scenario, and after the slider is then
    moved to 10:00; the page after loading the stations with no trips. *)
Definition scenario_page : option App :=
  @on_load UTC rational_sqrt scenario_heap scenario_refs scenario_trips.

Definition scenario_page_at_ten : option App :=
  app0 ← scenario_page; @updateTimeDisplay rational_sqrt app0 600.

Definition idle_page : option App :=
  @on_load UTC rational_sqrt scenario_heap scenario_refs [].

(** Two stations of one name, which the scenario does not have, and the
    page after loading them with the two trips and three calls of
    [updateTimeDisplay]: the one that ends the load handler, with the
    slider at -1, and the slider events 485 and -1. *)
Definition twin_heap : heap := [station_A; station_A].

Definition twin_page : option App :=
  app0 ← @on_load UTC rational_sqrt twin_heap [0%nat; 1%nat] scenario_trips;
  @slide rational_sqrt app0 [-1; 485; -1].

(** The count of 121 indices, as the window is sometimes described. *)
Definition covers_121_minutes (m : Z) : Prop :=
  NoDup (window_indices m) ∧ length (window_indices m) = 121%nat.

(** * Part III: properties *)

Ltac euclid := Z.to_euclidean_division_equations; lia.

(** ** Slices and the window *)

Lemma take_drop_buckets {A} (tbl : list (list A)) (a n : nat) :
  (a + n ≤ length tbl)%nat →
  take n (drop a tbl) = bucket tbl <$> seq a n.
Proof.
  intros Hlen. apply list_eq. intros i.
  rewrite list_lookup_fmap.
  destruct (decide (i < n)%nat) as [Hi|Hi].
  - rewrite lookup_take_lt by done. rewrite lookup_drop.
    rewrite lookup_seq_lt by done. simpl. unfold bucket.
    destruct (lookup_lt_is_Some_2 tbl (a + i)) as [x Hx]; [lia|].
    by rewrite Hx.
  - rewrite lookup_take_ge by lia.
    rewrite lookup_seq_ge by lia. done.
Qed.

Lemma slice_range {A} (l : list A) (a b : Z) :
  0 ≤ a ≤ b → b ≤ Z.of_nat (length l) →
  slice l a (Some b) = take (Z.to_nat b - Z.to_nat a) (drop (Z.to_nat a) l).
Proof.
  intros Hab Hb. unfold slice, rel_index.
  destruct (Z.ltb_spec a 0); [lia|].
  destruct (Z.ltb_spec b 0); [lia|].
  rewrite !Z.min_l by lia.
  f_equal; lia.
Qed.

Lemma slice_from {A} (l : list A) (a : Z) :
  0 ≤ a ≤ Z.of_nat (length l) →
  slice l a None = take (length l - Z.to_nat a) (drop (Z.to_nat a) l).
Proof.
  intros Ha. unfold slice, rel_index.
  destruct (Z.ltb_spec a 0); [lia|].
  rewrite !Z.min_l by lia.
  f_equal; lia.
Qed.

Lemma flat_buckets {A} (tbl : list (list A)) (idx : list nat) :
  flat (bucket tbl <$> idx) = idx ≫= bucket tbl.
Proof.
  unfold flat. induction idx as [|i idx IH]; [done|].
  rewrite fmap_cons, bind_cons. simpl. by rewrite IH.
Qed.

(** The query as a walk over the window, for a full-size table. *)
Lemma filterByMinute_walk {A} (tbl : list (list A)) (m : Z) :
  length tbl = 1440%nat → 0 ≤ m ≤ 1439 →
  filterByMinute tbl m
  = circular_window (minMinute_of m) (maxMinute_of m) ≫= bucket tbl.
Proof.
  intros Hlen Hm. unfold filterByMinute, minMinute_of, maxMinute_of.
  destruct (Z.eqb_spec m (-1)); [lia|].
  rewrite !Z.rem_mod_nonneg by lia.
  set (lo := (m - 60 + 1440) mod 1440).
  set (hi := (m + 60) mod 1440).
  assert (0 ≤ lo < 1440) by (apply Z.mod_pos_bound; lia).
  assert (0 ≤ hi < 1440) by (apply Z.mod_pos_bound; lia).
  unfold circular_window.
  destruct (Z.gtb_spec lo hi) as [Hgt|Hle].
  - destruct (Nat.leb_spec (Z.to_nat lo) (Z.to_nat hi)); [lia|].
    rewrite slice_from, slice_range by lia.
    rewrite !take_drop_buckets by (simpl; lia).
    rewrite Hlen, Nat.sub_0_r, <- fmap_app, flat_buckets. done.
  - destruct (Nat.leb_spec (Z.to_nat lo) (Z.to_nat hi)); [|lia].
    rewrite slice_range by lia.
    rewrite take_drop_buckets by lia.
    by rewrite flat_buckets.
Qed.

(** The window holds the minutes at most 119 steps forward of
    [m - 60] on the dial. *)
Lemma elem_of_window (m : Z) (i : nat) :
  0 ≤ m ≤ 1439 →
  i ∈ circular_window (minMinute_of m) (maxMinute_of m)
  ↔ (i < 1440)%nat ∧ (Z.of_nat i - (m - 60)) mod 1440 < 120.
Proof.
  intros Hm. unfold circular_window, minMinute_of, maxMinute_of.
  destruct (Nat.leb_spec (Z.to_nat ((m - 60 + 1440) mod 1440))
                         (Z.to_nat ((m + 60) mod 1440))) as [Hle|Hgt].
  - rewrite elem_of_seq. split; intros; euclid.
  - rewrite elem_of_app, !elem_of_seq. split; intros; euclid.
Qed.

Lemma window_length (m : Z) :
  0 ≤ m ≤ 1439 →
  length (circular_window (minMinute_of m) (maxMinute_of m)) = 120%nat.
Proof.
  intros Hm. unfold circular_window, minMinute_of, maxMinute_of.
  destruct (Nat.leb_spec (Z.to_nat ((m - 60 + 1440) mod 1440))
                         (Z.to_nat ((m + 60) mod 1440))) as [Hle|Hgt].
  - rewrite length_seq. euclid.
  - rewrite length_app, !length_seq. euclid.
Qed.

Lemma window_NoDup (m : Z) :
  0 ≤ m ≤ 1439 →
  NoDup (circular_window (minMinute_of m) (maxMinute_of m)).
Proof.
  intros Hm. unfold circular_window, minMinute_of, maxMinute_of.
  destruct (Nat.leb_spec (Z.to_nat ((m - 60 + 1440) mod 1440))
                         (Z.to_nat ((m + 60) mod 1440))) as [Hle|Hgt].
  - apply NoDup_seq.
  - apply NoDup_app. split_and!; [apply NoDup_seq| |apply NoDup_seq].
    intros i. rewrite !elem_of_seq. euclid.
Qed.

Lemma index_table_bucket (i : nat) :
  (i < 1440)%nat → bucket index_table i = [i].
Proof.
  intros Hi. unfold bucket, index_table.
  rewrite list_lookup_fmap, lookup_seq_lt by done. done.
Qed.

Lemma window_indices_walk (m : Z) :
  0 ≤ m ≤ 1439 →
  window_indices m = circular_window (minMinute_of m) (maxMinute_of m).
Proof.
  intros Hm. unfold window_indices.
  rewrite filterByMinute_walk by (done || (unfold index_table; by rewrite length_fmap, length_seq)).
  assert (Hall : ∀ i, i ∈ circular_window (minMinute_of m) (maxMinute_of m)
                      → (i < 1440)%nat)
    by (intros i Hi; by apply elem_of_window in Hi as [? _]).
  induction (circular_window (minMinute_of m) (maxMinute_of m)) as [|i w IH];
    [done|].
  rewrite bind_cons, index_table_bucket by (apply Hall; left).
  simpl. f_equal. apply IH. intros j Hj. apply Hall. by right.
Qed.

(** The windowed query of map.js: for every full-size bucket table and
    every minute [m] of the day it returns exactly the trips of the
    buckets in the half-open circular window from
    [(m - 60 + 1440) mod 1440] walking forward to [(m + 60) mod 1440] (the
    buckets from the lower end to 1439 and then from 0 when the window
    wraps), bucket after bucket and each bucket in insertion order; at
    [m = 30] the trips of buckets 1430 and 50 are returned and a trip
    held by bucket 200 alone is not. *)
Lemma filterByMinute_returns_window {A} (tbl : list (list A)) (m : Z) :
  length tbl = 1440%nat → 0 ≤ m ≤ 1439 →
  let w := circular_window (minMinute_of m) (maxMinute_of m) in
  filterByMinute tbl m = w ≫= bucket tbl
  ∧ (∀ t, t ∈ filterByMinute tbl m ↔ ∃ i, i ∈ w ∧ t ∈ bucket tbl i)
  ∧ (∀ i, i ∈ w ↔ (i < 1440)%nat ∧ (Z.of_nat i - (m - 60)) mod 1440 < 120)
  ∧ (m = 30 → ∀ t,
       (t ∈ bucket tbl 1430 → t ∈ filterByMinute tbl m)
       ∧ (t ∈ bucket tbl 50 → t ∈ filterByMinute tbl m)
       ∧ ((∀ i, t ∈ bucket tbl i → i = 200%nat) → t ∉ filterByMinute tbl m)).
Proof.
  intros Hlen Hm w.
  assert (Hmem : ∀ t, t ∈ filterByMinute tbl m ↔ ∃ i, i ∈ w ∧ t ∈ bucket tbl i).
  { intros t. rewrite filterByMinute_walk, list_elem_of_bind by done.
    fold w. split; intros (i & ? & ?); by exists i. }
  split_and!; [by apply filterByMinute_walk|done|intros i; by apply elem_of_window|].
  intros -> t. split_and!.
  - intros Ht. apply Hmem. exists 1430%nat. split; [|done].
    apply elem_of_window; [done|]. split; [lia|reflexivity].
  - intros Ht. apply Hmem. exists 50%nat. split; [|done].
    apply elem_of_window; [done|]. split; [lia|reflexivity].
  - intros Honly [i [Hi Ht]]%Hmem. apply Honly in Ht as ->.
    apply elem_of_window in Hi as [_ Hi]; [|done]. vm_compute in Hi. done.
Qed.

(** C6, amended. For every minute [m] of the day, the query visits the
    buckets of the half-open circular window from [(m - 60 + 1440) mod 1440]
    to [(m + 60) mod 1440], which are exactly 120 distinct indices. *)
Theorem window_covers_120_minutes (m : Z) :
  0 ≤ m ≤ 1439 →
  NoDup (window_indices m)
  ∧ length (window_indices m) = 120%nat
  ∧ (∀ i, i ∈ window_indices m
          ↔ (i < 1440)%nat ∧ (Z.of_nat i - (m - 60)) mod 1440 < 120).
Proof.
  intros Hm. rewrite window_indices_walk by done.
  split_and!; [by apply window_NoDup|by apply window_length|].
  intros i. by apply elem_of_window.
Qed.

Lemma window_covers_120_minutes_witness :
  0 ≤ 30 ≤ 1439
  ∧ NoDup (window_indices 30)
  ∧ length (window_indices 30) = 120%nat
  ∧ (∀ i, i ∈ window_indices 30
          ↔ (i < 1440)%nat ∧ (Z.of_nat i - (30 - 60)) mod 1440 < 120).
Proof. split; [lia|apply (window_covers_120_minutes 30); lia]. Defined.

(** C6 as worded fails: at minute 500 the query visits the 120 buckets
    440 to 559. *)
Lemma window_of_500_is_not_121 : ¬ covers_121_minutes 500.
Proof. intros [_ Hlen]. vm_compute in Hlen. discriminate. Qed.

(** ** Time bucketing *)

Lemma total_length_concat {A} (tbl : list (list A)) :
  total_length tbl = length (concat tbl).
Proof.
  unfold total_length. induction tbl as [|b tbl IH]; [done|].
  rewrite fmap_cons. simpl. rewrite length_app. f_equal. exact IH.
Qed.

Lemma bucket_empty_table (i : nat) : bucket empty_table i = [].
Proof.
  unfold bucket, empty_table.
  destruct (replicate 1440 [] !! i) as [x|] eqn:Hx; [|done].
  by apply lookup_replicate in Hx as [-> _].
Qed.

Lemma concat_replicate_nil {A} (n : nat) : concat (replicate n (@nil A)) = [].
Proof. induction n; [done|]. simpl. done. Qed.

Lemma concat_empty_table : concat empty_table = [].
Proof. apply concat_replicate_nil. Qed.

Lemma bucket_alter_push {A} (tbl : list (list A)) (n j : nat) (x : A) :
  (n < length tbl)%nat →
  bucket (alter (λ b, b ++ [x]) n tbl) j
  = bucket tbl j ++ (if decide (n = j) then [x] else []).
Proof.
  intros Hn. unfold bucket. destruct (decide (n = j)) as [<-|Hne].
  - rewrite list_lookup_alter, decide_True by done.
    destruct (lookup_lt_is_Some_2 tbl n Hn) as [b ->]. done.
  - rewrite list_lookup_alter_ne by done. by rewrite app_nil_r.
Qed.

Lemma concat_alter_push {A} (tbl : list (list A)) (n : nat) (x : A) :
  (n < length tbl)%nat →
  concat (alter (λ b, b ++ [x]) n tbl) ≡ₚ x :: concat tbl.
Proof.
  revert n. induction tbl as [|b tbl IH]; intros n Hn; [simpl in Hn; lia|].
  destruct n as [|n].
  - simpl. rewrite <- app_assoc. simpl. symmetry. apply Permutation_middle.
  - change (b ++ concat (alter (λ b, b ++ [x]) n tbl) ≡ₚ x :: b ++ concat tbl).
    rewrite IH by (simpl in Hn; lia). symmetry. apply Permutation_middle.
Qed.

Lemma push_bucket_in_range (tbl : list (list Trip)) (i : Z) (t : Trip) :
  0 ≤ i < Z.of_nat (length tbl) →
  push_bucket tbl (Some i) t = Some (alter (λ b, b ++ [t]) (Z.to_nat i) tbl).
Proof.
  intros Hi. unfold push_bucket.
  destruct (Z.leb_spec 0 i); [|lia].
  destruct (Z.ltb_spec i (Z.of_nat (length tbl))); [done|lia].
Qed.

Section BucketingProperties.
Context `{TimeZone}.

(** A parsed timestamp has a minute of the day. *)
Lemma minutesSinceMidnight_valid (d : Date) :
  d ≠ InvalidDate → ∃ i, minutesSinceMidnight d = Some i ∧ 0 ≤ i < 1440.
Proof.
  destruct d as [|t]; [done|]. intros _. eexists. split; [reflexivity|].
  pose proof (Z.mod_pos_bound (LocalTime t / msPerHour) 24).
  pose proof (Z.mod_pos_bound (LocalTime t / msPerMinute) 60).
  lia.
Qed.

(** The state of the two tables after the rows [trips], from any state
    with full-size tables. *)
Lemma csv_rows_buckets (trips : list Trip) (b : Buckets) :
  length (departuresByMinute b) = 1440%nat →
  length (arrivalsByMinute b) = 1440%nat →
  Forall valid_trip trips →
  ∃ b', csv_rows b trips = Some b'
    ∧ length (departuresByMinute b') = 1440%nat
    ∧ length (arrivalsByMinute b') = 1440%nat
    ∧ (∀ i : nat, bucket (departuresByMinute b') i
          = bucket (departuresByMinute b) i
            ++ filter (λ t, start_minute t = Some (Z.of_nat i)) trips)
    ∧ (∀ i : nat, bucket (arrivalsByMinute b') i
          = bucket (arrivalsByMinute b) i
            ++ filter (λ t, end_minute t = Some (Z.of_nat i)) trips)
    ∧ concat (departuresByMinute b') ≡ₚ concat (departuresByMinute b) ++ trips
    ∧ concat (arrivalsByMinute b') ≡ₚ concat (arrivalsByMinute b) ++ trips.
Proof.
  revert b. induction trips as [|t trips IH]; intros b Hd Ha Hvalid.
  - exists b. simpl. split_and!; try done;
      intros; by rewrite ?filter_nil, app_nil_r.
  - apply Forall_cons in Hvalid as [[Hs He] Hvalid].
    destruct (minutesSinceMidnight_valid _ Hs) as (i & Hi & Hib).
    destruct (minutesSinceMidnight_valid _ He) as (j & Hj & Hjb).
    simpl. unfold row_conversion. rewrite Hi, Hj.
    rewrite !push_bucket_in_range by lia. simpl.
    set (b1 := {| departuresByMinute := _; arrivalsByMinute := _ |}).
    destruct (IH b1) as (b' & Hrun & Hd' & Ha' & Hdep & Harr & Hpd & Hpa);
      [subst b1; simpl; by rewrite length_alter
      |subst b1; simpl; by rewrite length_alter|done|].
    exists b'. split_and!; try done.
    + intros k. rewrite Hdep. subst b1. simpl.
      rewrite bucket_alter_push by lia. rewrite <- app_assoc. f_equal.
      rewrite filter_cons. fold (start_minute t) in Hi.
      destruct (decide (Z.to_nat i = k)) as [<-|Hne].
      * rewrite decide_True by (rewrite Hi; f_equal; lia). done.
      * rewrite decide_False; [done|]. rewrite Hi. intros [= ->]. lia.
    + intros k. rewrite Harr. subst b1. simpl.
      rewrite bucket_alter_push by lia. rewrite <- app_assoc. f_equal.
      rewrite filter_cons. fold (end_minute t) in Hj.
      destruct (decide (Z.to_nat j = k)) as [<-|Hne].
      * rewrite decide_True by (rewrite Hj; f_equal; lia). done.
      * rewrite decide_False; [done|]. rewrite Hj. intros [= ->]. lia.
    + rewrite Hpd. subst b1. simpl. rewrite concat_alter_push by lia.
      rewrite <- app_comm_cons. apply Permutation_middle.
    + rewrite Hpa. subst b1. simpl. rewrite concat_alter_push by lia.
      rewrite <- app_comm_cons. apply Permutation_middle.
Qed.

(** A row with an unparsed timestamp stops the load. *)
Lemma csv_rows_invalid (trips : list Trip) (b : Buckets) :
  Exists (λ t, ¬ valid_trip t) trips → csv_rows b trips = None.
Proof.
  revert b. induction trips as [|t trips IH]; intros b Hex;
    [by apply Exists_nil in Hex|].
  simpl. apply Exists_cons in Hex as [Hbad|Hex].
  - unfold row_conversion.
    destruct (started_at t) as [|ts] eqn:Hs; [done|].
    destruct (ended_at t) as [|te] eqn:He.
    + by destruct (push_bucket (departuresByMinute b) _ t).
    + exfalso. apply Hbad. unfold valid_trip. by rewrite Hs, He.
  - destruct (row_conversion b t) as [b1|]; [|done]. simpl. by apply IH.
Qed.

(** C4. For every set of trips with parsed timestamps, bucketing ends
    with two tables of 1440 slots whose bucket lengths each sum to the
    number of trips; bucket [i] of the departures table holds exactly the
    trips that started at minute [i], in load order, and bucket [i] of the
    arrivals table those that ended at minute [i]; every trip has one
    such minute per table. *)
Theorem bucketing_is_complete (trips : list Trip) :
  Forall valid_trip trips →
  ∃ b, csv_rows empty_buckets trips = Some b
    ∧ length (departuresByMinute b) = 1440%nat
    ∧ length (arrivalsByMinute b) = 1440%nat
    ∧ total_length (departuresByMinute b) = length trips
    ∧ total_length (arrivalsByMinute b) = length trips
    ∧ (∀ i : nat, bucket (departuresByMinute b) i
          = filter (λ t, start_minute t = Some (Z.of_nat i)) trips)
    ∧ (∀ i : nat, bucket (arrivalsByMinute b) i
          = filter (λ t, end_minute t = Some (Z.of_nat i)) trips)
    ∧ (∀ t, t ∈ trips → ∃ i j : nat,
          (i < 1440)%nat ∧ (j < 1440)%nat
          ∧ start_minute t = Some (Z.of_nat i)
          ∧ end_minute t = Some (Z.of_nat j)).
Proof.
  intros Hvalid.
  destruct (csv_rows_buckets trips empty_buckets)
    as (b & Hrun & Hd & Ha & Hdep & Harr & Hpd & Hpa);
    [reflexivity|reflexivity|done|].
  exists b. split_and!; try done.
  - rewrite total_length_concat, Hpd.
    change (departuresByMinute empty_buckets) with empty_table.
    by rewrite concat_empty_table.
  - rewrite total_length_concat, Hpa.
    change (arrivalsByMinute empty_buckets) with empty_table.
    by rewrite concat_empty_table.
  - intros i. rewrite Hdep.
    change (departuresByMinute empty_buckets) with empty_table.
    by rewrite bucket_empty_table.
  - intros i. rewrite Harr.
    change (arrivalsByMinute empty_buckets) with empty_table.
    by rewrite bucket_empty_table.
  - intros t Ht. rewrite Forall_forall in Hvalid.
    destruct (Hvalid t Ht) as [Hs He].
    destruct (minutesSinceMidnight_valid _ Hs) as (i & Hi & Hib).
    destruct (minutesSinceMidnight_valid _ He) as (j & Hj & Hjb).
    exists (Z.to_nat i), (Z.to_nat j). unfold start_minute, end_minute.
    rewrite Hi, Hj, !Z2Nat.id by lia. split_and!; (done || lia).
Qed.

(** C2. Querying any table with the sentinel returns the concatenation of
    its buckets, which for an empty table is the empty sequence; on the
    tables built from a set of trips it is a rearrangement of that set,
    for departures and for arrivals, and the linear scan returns the set
    itself. *)
Theorem unfiltered_query_returns_all_trips (trips : list Trip) :
  (∀ tbl : list (list Trip), filterByMinute tbl (-1) = concat tbl)
  ∧ filterByMinute empty_table (-1) = []
  ∧ Scan.filterTripsByTime trips (-1) = trips
  ∧ (Forall valid_trip trips →
     ∃ b, csv_rows empty_buckets trips = Some b
       ∧ filterByMinute (departuresByMinute b) (-1) ≡ₚ trips
       ∧ filterByMinute (arrivalsByMinute b) (-1) ≡ₚ trips).
Proof.
  split_and!; [done| |done|].
  - change (filterByMinute empty_table (-1)) with (concat empty_table).
    apply concat_empty_table.
  - intros Hvalid.
    destruct (csv_rows_buckets trips empty_buckets)
      as (b & Hrun & _ & _ & _ & _ & Hpd & Hpa);
      [reflexivity|reflexivity|done|].
    exists b. split; [done|].
    change (filterByMinute (departuresByMinute b) (-1))
      with (concat (departuresByMinute b)).
    change (filterByMinute (arrivalsByMinute b) (-1))
      with (concat (arrivalsByMinute b)).
    rewrite Hpd, Hpa.
    change (departuresByMinute empty_buckets) with empty_table.
    change (arrivalsByMinute empty_buckets) with empty_table.
    by rewrite concat_empty_table.
Qed.
End BucketingProperties.

(** ** Grouping and counting *)

Lemma groups_lookup {V} (key : V → string) (values : list V)
    (g : gmap string (list V)) (id : string) :
  default [] (foldl (λ groups v, group_push groups (key v) v) g values !! id)
  = default [] (g !! id) ++ filter (λ v, key v = id) values.
Proof.
  revert g. induction values as [|v values IH]; intros g.
  - simpl. by rewrite filter_nil, app_nil_r.
  - simpl. rewrite IH, filter_cons. unfold group_push.
    destruct (decide (key v = id)) as [<-|Hne].
    + destruct (g !! key v) as [group|] eqn:Hg;
        rewrite lookup_insert_eq; simpl; by rewrite <- ?app_assoc.
    + destruct (g !! key v) as [group|] eqn:Hg;
        by rewrite lookup_insert_ne.
Qed.

(** The count that [rollup] holds for a key, zero when it holds none. *)
Lemma rollup_count {V} (key : V → string) (values : list V) (id : string) :
  default 0%nat (rollup values length key !! id)
  = length (filter (λ v, key v = id) values).
Proof.
  unfold rollup. rewrite lookup_fmap.
  pose proof (groups_lookup key values ∅ id) as Hg.
  rewrite lookup_empty in Hg. simpl in Hg. rewrite <- Hg.
  by destruct (foldl _ _ _ !! id).
Qed.

Lemma derived_idemp (arr dep : gmap string nat) (s : Station) :
  derived arr dep (derived arr dep s) = derived arr dep s.
Proof. reflexivity. Qed.

(** ** The two callbacks of [stations.map] *)

Lemma map_refs_cons (f : heap → ref → option (heap * ref)) (h : heap)
    (r : ref) (rest : list ref) :
  map_refs f h (r :: rest)
  = '(h1, r') ← f h r;
    '(h2, out) ← map_refs f h1 rest;
    Some (h2, r' :: out).
Proof. reflexivity. Qed.

Lemma well_formed_cons (h : heap) (r : ref) (refs : list ref) :
  well_formed h (r :: refs) ↔ (r < length h)%nat ∧ well_formed h refs.
Proof. unfold well_formed. by rewrite Forall_cons. Qed.

Lemma well_formed_mono (h h' : heap) (refs : list ref) :
  (length h ≤ length h')%nat → well_formed h refs → well_formed h' refs.
Proof.
  intros Hle Hwf. eapply Forall_impl; [exact Hwf|].
  intros r Hr. simpl in *. lia.
Qed.

(** map.js: every listed object is overwritten with its derived record,
    whatever the order and however often it is listed; nothing else is
    touched and the same references come back. *)
Lemma map_refs_update (arr dep : gmap string nat) (h : heap) (refs : list ref) :
  well_formed h refs →
  ∃ h', map_refs (update_station arr dep) h refs = Some (h', refs)
    ∧ length h' = length h
    ∧ (∀ r, r ∈ refs → h' !! r = derived arr dep <$> h !! r)
    ∧ (∀ r, r ∉ refs → h' !! r = h !! r).
Proof.
  revert h. induction refs as [|r refs IH]; intros h Hwf.
  - exists h. split_and!; [done|done| |done].
    intros r Hr. by apply elem_of_nil in Hr.
  - apply well_formed_cons in Hwf as [Hr Hwf].
    destruct (lookup_lt_is_Some_2 h r Hr) as [s Hs].
    set (h1 := <[r := derived arr dep s]> h).
    destruct (IH h1) as (h' & Hrun & Hlen & Hin & Hout).
    { apply (well_formed_mono h); [|done]. subst h1. by rewrite length_insert. }
    exists h'. split_and!.
    + assert (Hstep : update_station arr dep h r = Some (h1, r))
        by (unfold update_station; by rewrite Hs).
      rewrite map_refs_cons, Hstep. simpl. by rewrite Hrun.
    + rewrite Hlen. subst h1. by rewrite length_insert.
    + intros r' Hr'. destruct (decide (r' ∈ refs)) as [Hmem|Hnot].
      * rewrite Hin by done. subst h1.
        destruct (decide (r = r')) as [<-|Hne].
        -- rewrite list_lookup_insert_eq, Hs by done. simpl.
           by rewrite derived_idemp.
        -- by rewrite list_lookup_insert_ne.
      * apply elem_of_cons in Hr' as [->|Hr']; [|done].
        rewrite Hout by done. subst h1.
        by rewrite list_lookup_insert_eq, Hs.
    + intros r' Hr'. apply not_elem_of_cons in Hr' as [Hne Hnot].
      rewrite Hout by done. subst h1. by rewrite list_lookup_insert_ne.
Qed.

(** The variant: one new object per listed station, appended to the heap
    in list order; the old heap is a prefix of the new one. *)
Lemma map_refs_copy (dep arr : gmap string nat) (h : heap) (refs : list ref) :
  well_formed h refs →
  ∃ new, map_refs (Scan.copy_station dep arr) h refs
         = Some (h ++ new, seq (length h) (length refs))
    ∧ Some <$> new = (λ r, scan_derived dep arr <$> h !! r) <$> refs.
Proof.
  revert h. induction refs as [|r refs IH]; intros h Hwf.
  - exists []. simpl. by rewrite app_nil_r.
  - apply well_formed_cons in Hwf as [Hr Hwf].
    destruct (lookup_lt_is_Some_2 h r Hr) as [s Hs].
    set (s' := scan_derived dep arr s).
    destruct (IH (h ++ [s'])) as (new & Hrun & Hnew).
    { apply (well_formed_mono h); [|done]. rewrite length_app. lia. }
    exists (s' :: new). split.
    + assert (Hstep : Scan.copy_station dep arr h r
                      = Some (h ++ [s'], length h))
        by (unfold Scan.copy_station; by rewrite Hs).
      rewrite map_refs_cons, Hstep. simpl. rewrite Hrun. simpl.
      rewrite <- app_assoc, length_app. simpl. by rewrite Nat.add_1_r.
    + rewrite !fmap_cons, Hs. simpl. f_equal. rewrite Hnew.
      unfold well_formed in Hwf. rewrite Forall_forall in Hwf.
      apply Forall_fmap_ext, Forall_forall. intros r' Hr'.
      by rewrite lookup_app_l by by apply Hwf.
Qed.

Lemma lookup_fresh (h new : heap) (k : nat) :
  (h ++ new) !! (length h + k)%nat = new !! k.
Proof. rewrite lookup_app_r by lia. f_equal. lia. Qed.

Lemma traffic_view_fresh (h new : heap) :
  traffic_view (h ++ new) (seq (length h) (length new))
  = (λ s, Some (short_name s, arrivals s, departures s, totalTraffic s))
      <$> new.
Proof.
  unfold traffic_view. apply list_eq. intros k.
  rewrite !list_lookup_fmap.
  destruct (decide (k < length new)%nat) as [Hk|Hk].
  - rewrite lookup_seq_lt by done. simpl. rewrite lookup_fresh.
    by destruct (lookup_lt_is_Some_2 new k Hk) as [s ->].
  - rewrite lookup_seq_ge by lia. by rewrite lookup_ge_None_2 by lia.
Qed.

Lemma copies_length (dep arr : gmap string nat) (h new : heap)
    (refs : list ref) :
  Some <$> new = (λ r, scan_derived dep arr <$> h !! r) <$> refs →
  length new = length refs.
Proof.
  intros Hnew. apply (f_equal length) in Hnew.
  by rewrite !length_fmap in Hnew.
Qed.

Lemma copies_lookup (dep arr : gmap string nat) (h new : heap)
    (refs : list ref) (k : nat) (r : ref) (s : Station) :
  Some <$> new = (λ r, scan_derived dep arr <$> h !! r) <$> refs →
  refs !! k = Some r → h !! r = Some s →
  new !! k = Some (scan_derived dep arr s).
Proof.
  intros Hnew Hk Hs. apply (f_equal (λ l, l !! k)) in Hnew.
  rewrite !list_lookup_fmap, Hk in Hnew. simpl in Hnew. rewrite Hs in Hnew.
  destruct (new !! k) as [s0|]; simpl in Hnew; [|done].
  by injection Hnew as [= ->].
Qed.

(** The counts written by map.js are those of the two selections. *)
Lemma derived_counted (sel_dep sel_arr : list Trip) (s : Station) :
  has_traffic
    (derived (rollup sel_arr length end_station_id)
             (rollup sel_dep length start_station_id) s)
    (count_departures sel_dep (short_name s))
    (count_arrivals sel_arr (short_name s)).
Proof.
  unfold has_traffic, derived, count_departures, count_arrivals. simpl.
  by rewrite !rollup_count.
Qed.

Lemma scan_derived_counted (sel_dep sel_arr : list Trip) (s : Station) :
  has_traffic
    (scan_derived (rollup sel_dep length start_station_id)
                  (rollup sel_arr length end_station_id) s)
    (count_departures sel_dep (short_name s))
    (count_arrivals sel_arr (short_name s)).
Proof.
  unfold has_traffic, scan_derived, count_departures, count_arrivals. simpl.
  rewrite !rollup_count. split_and!; [done|done|]. f_equal. lia.
Qed.

Lemma has_traffic_zero (s : Station) :
  has_traffic s 0 0 →
  arrivals s = Some 0%nat ∧ departures s = Some 0%nat
  ∧ totalTraffic s = Some 0%nat.
Proof. intros (? & ? & ?). done. Qed.

Section AggregationProperties.
Context `{TimeZone}.

(** C3. For every station list and every filter value, both
    aggregations return, for each station, a record with departures equal
    to the number of selected departure trips that start at the station's
    [short_name], arrivals likewise over [end_station_id], and
    totalTraffic their sum; a station without matching trips gets three
    zeros, and no call fails. *)
Theorem aggregation_counts_matching_trips (b : Buckets) (trips : list Trip)
    (h : heap) (stations : list ref) (f : Z) :
  well_formed h stations →
  (∃ h', computeStationTraffic b h stations f = Some (h', stations)
     ∧ ∀ r, r ∈ stations →
         counted h h' r r (filterByMinute (departuresByMinute b) f)
                          (filterByMinute (arrivalsByMinute b) f))
  ∧ (∃ h', Scan.computeStationTraffic trips h stations f
           = Some (h', seq (length h) (length stations))
     ∧ ∀ k r, stations !! k = Some r →
         counted h h' r (length h + k) (Scan.filterTripsByTime trips f)
                                       (Scan.filterTripsByTime trips f)).
Proof.
  intros Hwf. split.
  - unfold computeStationTraffic.
    set (sel_dep := filterByMinute (departuresByMinute b) f).
    set (sel_arr := filterByMinute (arrivalsByMinute b) f).
    destruct (map_refs_update (rollup sel_arr length end_station_id)
                (rollup sel_dep length start_station_id) h stations Hwf)
      as (h' & Hrun & _ & Hin & _).
    exists h'. split; [done|]. intros r Hr.
    unfold well_formed in Hwf. rewrite Forall_forall in Hwf.
    destruct (lookup_lt_is_Some_2 h r (Hwf r Hr)) as [s Hs].
    exists s, (derived (rollup sel_arr length end_station_id)
                       (rollup sel_dep length start_station_id) s).
    rewrite Hin, Hs by done.
    pose proof (derived_counted sel_dep sel_arr s) as Hc.
    split_and!; [done|done|done|done|].
    intros Hd Ha. rewrite Hd, Ha in Hc. by apply has_traffic_zero.
  - unfold Scan.computeStationTraffic.
    set (active := Scan.filterTripsByTime trips f).
    destruct (map_refs_copy (rollup active length start_station_id)
                (rollup active length end_station_id) h stations Hwf)
      as (new & Hrun & Hnew).
    exists (h ++ new). split; [done|]. intros k r Hk.
    unfold well_formed in Hwf. rewrite Forall_forall in Hwf.
    destruct (lookup_lt_is_Some_2 h r) as [s Hs];
      [apply Hwf; by eapply list_elem_of_lookup_2|].
    exists s, (scan_derived (rollup active length start_station_id)
                            (rollup active length end_station_id) s).
    rewrite lookup_fresh, (copies_lookup _ _ _ _ _ _ _ _ Hnew Hk Hs).
    pose proof (scan_derived_counted active active s) as Hc.
    split_and!; [done|done|done|done|].
    intros Hd Ha. rewrite Hd, Ha in Hc. by apply has_traffic_zero.
Qed.

(** C7, amended. The linear-scan aggregation leaves every object of the
    input heap as it was and returns references to newly allocated
    records.  The aggregation of map.js returns the references it was
    given: it overwrites arrivals, departures and totalTraffic of each
    listed record in place, keeps its [short_name], [lon] and [lat], and
    touches no other object. *)
Theorem aggregation_copies_or_updates_in_place (b : Buckets)
    (trips : list Trip) (h : heap) (stations : list ref) (f : Z) :
  well_formed h stations →
  (∃ h' out, Scan.computeStationTraffic trips h stations f = Some (h', out)
     ∧ leaves_input_untouched h h' stations out
     ∧ (∀ r, (r < length h)%nat → h' !! r = h !! r)
     ∧ NoDup out)
  ∧ (∃ h', computeStationTraffic b h stations f = Some (h', stations)
     ∧ length h' = length h
     ∧ (∀ r, r ∉ stations → h' !! r = h !! r)
     ∧ (∀ r, r ∈ stations → ∃ s s',
          h !! r = Some s ∧ h' !! r = Some s'
          ∧ short_name s' = short_name s ∧ lon s' = lon s ∧ lat s' = lat s
          ∧ is_Some (arrivals s') ∧ is_Some (departures s')
          ∧ is_Some (totalTraffic s'))).
Proof.
  intros Hwf. split.
  - unfold Scan.computeStationTraffic.
    set (active := Scan.filterTripsByTime trips f).
    destruct (map_refs_copy (rollup active length start_station_id)
                (rollup active length end_station_id) h stations Hwf)
      as (new & Hrun & Hnew).
    exists (h ++ new), (seq (length h) (length stations)).
    split_and!; [done| | |apply NoDup_seq].
    + split.
      * intros r Hr. unfold well_formed in Hwf. rewrite Forall_forall in Hwf.
        by rewrite lookup_app_l by by apply Hwf.
      * intros r Hr. apply elem_of_seq in Hr. lia.
    + intros r Hr. by rewrite lookup_app_l.
  - unfold computeStationTraffic.
    set (sel_dep := filterByMinute (departuresByMinute b) f).
    set (sel_arr := filterByMinute (arrivalsByMinute b) f).
    destruct (map_refs_update (rollup sel_arr length end_station_id)
                (rollup sel_dep length start_station_id) h stations Hwf)
      as (h' & Hrun & Hlen & Hin & Hout).
    exists h'. split_and!; [done|done|done|].
    intros r Hr. unfold well_formed in Hwf. rewrite Forall_forall in Hwf.
    destruct (lookup_lt_is_Some_2 h r (Hwf r Hr)) as [s Hs].
    exists s, (derived (rollup sel_arr length end_station_id)
                       (rollup sel_dep length start_station_id) s).
    rewrite Hin, Hs by done. split_and!; try done; by eexists.
Qed.
End AggregationProperties.

(** ** The two variants side by side *)

Lemma filter_disjoint_union {A} (P Q R : A → Prop)
    `{!∀ x, Decision (P x), !∀ x, Decision (Q x), !∀ x, Decision (R x)}
    (l : list A) :
  (∀ x, R x ↔ P x ∨ Q x) → (∀ x, P x → Q x → False) →
  filter P l ++ filter Q l ≡ₚ filter R l.
Proof.
  intros HR Hdis. induction l as [|x l IH]; [done|].
  rewrite !filter_cons.
  destruct (decide (P x)) as [HP|HP], (decide (Q x)) as [HQ|HQ].
  - destruct (Hdis x HP HQ).
  - rewrite decide_True by (apply HR; by left). simpl. by rewrite IH.
  - rewrite decide_True by (apply HR; by right).
    rewrite <- Permutation_middle. by rewrite IH.
  - rewrite decide_False by (rewrite HR; tauto). done.
Qed.

(** Visiting disjoint classes one after the other collects the elements
    that fall in one of them. *)
Lemma bind_filter_classes {A} (P : nat → A → Prop)
    `{!∀ i x, Decision (P i x)} (w : list nat) (l : list A) :
  NoDup w → (∀ i j x, P i x → P j x → i = j) →
  w ≫= (λ i, filter (P i) l) ≡ₚ filter (λ x, Exists (λ i, P i x) w) l.
Proof.
  intros Hnd Hcls. induction Hnd as [|i w Hi Hnd IH].
  - simpl. induction l as [|x l IHl]; [done|].
    rewrite filter_cons, decide_False; [done|].
    intros HE. by apply Exists_nil in HE.
  - rewrite bind_cons, IH.
    apply (filter_disjoint_union (P i) _ _).
    + intros x. by rewrite Exists_cons.
    + intros x HP HE. apply Exists_exists in HE as (j & Hj & HPj).
      by rewrite (Hcls i j x HP HPj) in Hi.
Qed.

Lemma filter_bool_Prop {A} (p : A → bool) (P : A → Prop)
    `{!∀ x, Decision (P x)} (l : list A) :
  (∀ x, x ∈ l → p x = true ↔ P x) → List.filter p l = filter P l.
Proof.
  induction l as [|x l IH]; intros Hp; [done|].
  rewrite filter_cons. simpl.
  rewrite IH by (intros y Hy; apply Hp; by right).
  pose proof (Hp x ltac:(by left)) as Hx.
  destruct (p x), (decide (P x)) as [HP|HP]; try done.
  - exfalso. apply HP. by apply Hx.
  - exfalso. apply Hx in HP. discriminate.
Qed.

Lemma filter_ext_in {A} (P Q : A → Prop)
    `{!∀ x, Decision (P x), !∀ x, Decision (Q x)} (l : list A) :
  (∀ x, x ∈ l → P x ↔ Q x) → filter P l = filter Q l.
Proof.
  induction l as [|x l IH]; intros HPQ; [done|].
  rewrite !filter_cons, IH by (intros y Hy; apply HPQ; by right).
  pose proof (HPQ x ltac:(by left)).
  destruct (decide (P x)), (decide (Q x)); tauto.
Qed.

Lemma geq_leq_range (a : option Z) (f : Z) :
  geq a (f - 60) && leq a (f + 60) = true ↔ in_closed_range f a.
Proof.
  destruct a as [i|]; simpl; [|done].
  by rewrite andb_true_iff, !Z.leb_le.
Qed.

(** The records of the two variants show the same counts when the count
    maps agree on every name. *)
Lemma views_agree (arrM depM depS arrS : gmap string nat) (h h1 new : heap)
    (stations : list ref) :
  well_formed h stations →
  (∀ id, default 0%nat (arrM !! id) = default 0%nat (arrS !! id)) →
  (∀ id, default 0%nat (depM !! id) = default 0%nat (depS !! id)) →
  (∀ r, r ∈ stations → h1 !! r = derived arrM depM <$> h !! r) →
  Some <$> new = (λ r, scan_derived depS arrS <$> h !! r) <$> stations →
  traffic_view h1 stations
  = traffic_view (h ++ new) (seq (length h) (length stations)).
Proof.
  intros Hwf Harr Hdep Hin Hnew.
  rewrite <- (copies_length _ _ _ _ _ Hnew), traffic_view_fresh.
  unfold traffic_view. apply list_eq. intros k.
  rewrite !list_lookup_fmap.
  destruct (stations !! k) as [r|] eqn:Hk.
  - unfold well_formed in Hwf. rewrite Forall_forall in Hwf.
    assert (Hr : r ∈ stations) by by eapply list_elem_of_lookup_2.
    destruct (lookup_lt_is_Some_2 h r (Hwf r Hr)) as [s Hs].
    rewrite (copies_lookup _ _ _ _ _ _ _ _ Hnew Hk Hs). simpl.
    rewrite Hin, Hs by done. simpl. unfold derived, scan_derived. simpl.
    rewrite Harr, Hdep. do 4 f_equal. lia.
  - simpl. apply lookup_ge_None in Hk.
    rewrite lookup_ge_None_2; [done|].
    by rewrite (copies_length _ _ _ _ _ Hnew).
Qed.

Section VariantsProperties.
Context `{TimeZone}.

Lemma scan_filter_selects (trips : list Trip) (f : Z) :
  f ≠ -1 →
  Scan.filterTripsByTime trips f = filter (scan_selects f) trips.
Proof.
  intros Hf. unfold Scan.filterTripsByTime.
  destruct (Z.eqb_spec f (-1)); [done|].
  apply filter_bool_Prop. intros t _.
  rewrite orb_true_iff, !geq_leq_range. done.
Qed.

(** What map.js selects from a table of departures, up to order. *)
Lemma query_selects_window (b : Buckets) (trips : list Trip) (f : Z) :
  0 ≤ f ≤ 1439 →
  length (departuresByMinute b) = 1440%nat →
  length (arrivalsByMinute b) = 1440%nat →
  (∀ i : nat, bucket (departuresByMinute b) i
     = filter (λ t, start_minute t = Some (Z.of_nat i)) trips) →
  (∀ i : nat, bucket (arrivalsByMinute b) i
     = filter (λ t, end_minute t = Some (Z.of_nat i)) trips) →
  filterByMinute (departuresByMinute b) f
  ≡ₚ filter (λ t, in_window f (start_minute t)) trips
  ∧ filterByMinute (arrivalsByMinute b) f
    ≡ₚ filter (λ t, in_window f (end_minute t)) trips.
Proof.
  intros Hf Hd Ha Hdep Harr.
  pose proof (window_indices_walk f Hf) as Hw.
  rewrite (filterByMinute_walk (departuresByMinute b) f) by done.
  rewrite (filterByMinute_walk (arrivalsByMinute b) f) by done.
  pose proof (window_NoDup f Hf) as Hnd.
  split.
  - rewrite (list_bind_ext _ (λ i, filter (λ t, start_minute t
                = Some (Z.of_nat i)) trips) _ _ Hdep eq_refl).
    rewrite (bind_filter_classes
               (λ i t, start_minute t = Some (Z.of_nat i)));
      [|done|intros i j t -> [= ?]; lia].
    rewrite (list_filter_iff _ (λ t, in_window f (start_minute t)));
      [done|]. intros t. unfold in_window. by rewrite Hw.
  - rewrite (list_bind_ext _ (λ i, filter (λ t, end_minute t
                = Some (Z.of_nat i)) trips) _ _ Harr eq_refl).
    rewrite (bind_filter_classes
               (λ i t, end_minute t = Some (Z.of_nat i)));
      [|done|intros i j t -> [= ?]; lia].
    rewrite (list_filter_iff _ (λ t, in_window f (end_minute t)));
      [done|]. intros t. unfold in_window. by rewrite Hw.
Qed.

(** C1, amended. The two windowed queries differ.  The query of map.js
    returns, for every full-size bucket table and every minute [m] of the
    day, exactly the trips of the buckets in the half-open circular
    window from [(m - 60 + 1440) mod 1440] walking forward to
    [(m + 60) mod 1440], bucket after bucket and each bucket in insertion
    order; at [m = 30] the trips of buckets 1430 and 50 are returned and
    a trip held by bucket 200 alone is not.  The query of the variant
    returns, in the order of the trip list, exactly the trips whose start
    minute or end minute lies in the closed range from [m - 60] to
    [m + 60], which does not wrap around midnight; at [m = 30] a trip
    that starts at minute 50 is returned and one that starts at minute
    1430 and ends after minute 90 is not. *)
Theorem windowed_query_per_variant {A} (tbl : list (list A))
    (trips : list Trip) (m : Z) :
  length tbl = 1440%nat → 0 ≤ m ≤ 1439 →
  (let w := circular_window (minMinute_of m) (maxMinute_of m) in
   filterByMinute tbl m = w ≫= bucket tbl
   ∧ (∀ t, t ∈ filterByMinute tbl m ↔ ∃ i, i ∈ w ∧ t ∈ bucket tbl i)
   ∧ (∀ i, i ∈ w ↔ (i < 1440)%nat ∧ (Z.of_nat i - (m - 60)) mod 1440 < 120)
   ∧ (m = 30 → ∀ t,
        (t ∈ bucket tbl 1430 → t ∈ filterByMinute tbl m)
        ∧ (t ∈ bucket tbl 50 → t ∈ filterByMinute tbl m)
        ∧ ((∀ i, t ∈ bucket tbl i → i = 200%nat) →
           t ∉ filterByMinute tbl m)))
  ∧ (Scan.filterTripsByTime trips m = filter (scan_selects m) trips
     ∧ Scan.filterTripsByTime trips m `sublist_of` trips
     ∧ (∀ t, t ∈ Scan.filterTripsByTime trips m
             ↔ t ∈ trips
               ∧ ((∃ i, start_minute t = Some i ∧ m - 60 ≤ i ≤ m + 60)
                  ∨ (∃ i, end_minute t = Some i ∧ m - 60 ≤ i ≤ m + 60)))
     ∧ (m = 30 → ∀ t, t ∈ trips →
          (start_minute t = Some 50 → t ∈ Scan.filterTripsByTime trips m)
          ∧ (start_minute t = Some 1430 →
             (∀ i, end_minute t = Some i → 90 < i) →
             t ∉ Scan.filterTripsByTime trips m))).
Proof.
  intros Hlen Hm. split; [by apply filterByMinute_returns_window|].
  assert (Hsel : Scan.filterTripsByTime trips m = filter (scan_selects m) trips)
    by (apply scan_filter_selects; lia).
  assert (Hrange : ∀ a : option Z,
            in_closed_range m a ↔ ∃ i, a = Some i ∧ m - 60 ≤ i ≤ m + 60).
  { intros [i|]; simpl.
    - split; [intros ?; by exists i|by intros (j & [= <-] & ?)].
    - split; [done|by intros (j & ? & _)]. }
  assert (Hmem : ∀ t, t ∈ Scan.filterTripsByTime trips m
                      ↔ t ∈ trips
                        ∧ ((∃ i, start_minute t = Some i ∧ m - 60 ≤ i ≤ m + 60)
                           ∨ (∃ i, end_minute t = Some i
                                   ∧ m - 60 ≤ i ≤ m + 60))).
  { intros t. rewrite Hsel, list_elem_of_filter. unfold scan_selects.
    rewrite !Hrange. tauto. }
  split_and!; [done|rewrite Hsel; apply sublist_filter|done|].
  intros -> t Ht. split.
  - intros Hs. apply Hmem. split; [done|]. left. exists 50. split; [done|lia].
  - intros Hs He [_ [(i & Hi & ?)|(i & Hi & ?)]]%Hmem.
    + rewrite Hs in Hi. injection Hi as <-. lia.
    + specialize (He i Hi). lia.
Qed.

(** C10, amended. On trips with parsed timestamps the two variants give
    every station the same arrivals, departures and totalTraffic when the
    filter is the sentinel, and, for a minute of the day, when every trip
    starts inside the half-open circular window exactly if it ends inside
    it and exactly if its start or end lies in the closed range from
    [f - 60] to [f + 60]. *)
Theorem variants_agree_on_equal_selections (trips : list Trip) (h : heap)
    (stations : list ref) (f : Z) :
  Forall valid_trip trips → well_formed h stations →
  f = -1 ∨ (0 ≤ f ≤ 1439 ∧ selections_coincide trips f) →
  variants_agree h stations trips f.
Proof.
  intros Hvalid Hwf Hf.
  destruct (csv_rows_buckets trips empty_buckets)
    as (b & Hrun & Hd & Ha & Hdep & Harr & Hpd & Hpa);
    [reflexivity|reflexivity|done|].
  change (departuresByMinute empty_buckets) with empty_table in Hdep, Hpd.
  change (arrivalsByMinute empty_buckets) with empty_table in Harr, Hpa.
  rewrite concat_empty_table in Hpd, Hpa. simpl in Hpd, Hpa.
  set (active := Scan.filterTripsByTime trips f).
  assert (Hsel : filterByMinute (departuresByMinute b) f ≡ₚ active
                 ∧ filterByMinute (arrivalsByMinute b) f ≡ₚ active).
  { destruct Hf as [->|[Hf Hco]]; [by split|].
    destruct (query_selects_window b trips f Hf Hd Ha) as [Hqd Hqa].
    - intros i. by rewrite Hdep, bucket_empty_table.
    - intros i. by rewrite Harr, bucket_empty_table.
    - subst active. rewrite scan_filter_selects by lia. rewrite Hqd, Hqa.
      split.
      + rewrite (filter_ext_in _ (scan_selects f)); [done|].
        intros t Ht. by apply Hco.
      + rewrite (filter_ext_in _ (scan_selects f)); [done|].
        intros t Ht. by apply Hco. }
  destruct Hsel as [Hsd Hsa].
  destruct (map_refs_update
              (rollup (filterByMinute (arrivalsByMinute b) f) length
                      end_station_id)
              (rollup (filterByMinute (departuresByMinute b) f) length
                      start_station_id) h stations Hwf)
    as (h1 & Hrun1 & _ & Hin & _).
  destruct (map_refs_copy (rollup active length start_station_id)
              (rollup active length end_station_id) h stations Hwf)
    as (new & Hrun2 & Hnew).
  exists b, h1, stations, (h ++ new), (seq (length h) (length stations)).
  split_and!; [done|done|done|].
  eapply views_agree; [done| | |exact Hin|exact Hnew].
  - intros id. by rewrite !rollup_count, Hsa.
  - intros id. by rewrite !rollup_count, Hsd.
Qed.
End VariantsProperties.

(** ** The flow scale *)

Lemma stationFlow_thresholds :
  quantize_thresholds 0 1 2 = [(1 # 3)%Q; (2 # 3)%Q].
Proof. reflexivity. Qed.

Lemma Qle_bool_false (a b : Q) : Qle_bool a b = false ↔ (b < a)%Q.
Proof.
  split.
  - intros Hf. destruct (Qlt_le_dec b a) as [|Hle]; [done|].
    apply Qle_bool_iff in Hle. congruence.
  - intros Hlt. destruct (Qle_bool a b) eqn:Hb; [|done].
    apply Qle_bool_iff in Hb. lra.
Qed.

(** The level of a finite argument: two thresholds, three values. *)
Lemma stationFlow_Fin (q : Q) :
  stationFlow (Fin q)
  = Some (if Qle_bool (2 # 3) q then 1%Q
          else if Qle_bool (1 # 3) q then (1 # 2)%Q else 0%Q).
Proof.
  unfold stationFlow, scale_quantize.
  change (length [0%Q; (1 # 2)%Q; 1%Q] - 1)%nat with 2%nat.
  rewrite stationFlow_thresholds.
  assert (Hqq : num_leb (Fin q) (Fin q) = true)
    by (apply Qle_bool_iff; lra).
  rewrite Hqq. unfold bisect.
  change (bisect_loop (S (2 - 0)) [(1 # 3)%Q; (2 # 3)%Q] (Fin q) 0 2)
    with (if Qle_bool (2 # 3) q then 2%nat
          else if Qle_bool (1 # 3) q then 1%nat else 0%nat).
  by destruct (Qle_bool (2 # 3) q), (Qle_bool (1 # 3) q).
Qed.

Lemma count_ratio_bounds (dep n : nat) :
  (dep ≤ n)%nat → (0 < n)%nat →
  (0 <= inject_Z (Z.of_nat dep) / inject_Z (Z.of_nat n) <= 1)%Q.
Proof.
  intros Hle Hn.
  assert (Hpos : (0 < inject_Z (Z.of_nat n))%Q)
    by (change 0%Q with (inject_Z 0); rewrite <- Zlt_Qlt; lia).
  assert (Hd : (0 <= inject_Z (Z.of_nat dep))%Q)
    by (change 0%Q with (inject_Z 0); rewrite <- Zle_Qle; lia).
  assert (Hdn : (inject_Z (Z.of_nat dep) <= inject_Z (Z.of_nat n))%Q)
    by (rewrite <- Zle_Qle; lia).
  split.
  - apply Qle_shift_div_l; [done|]. lra.
  - apply Qle_shift_div_r; [done|]. lra.
Qed.

(** The flow argument and level of a station that carries counts. *)
Lemma departure_ratio_level (d : Station) (dep arr : nat) :
  has_traffic d dep arr →
  ∃ q level,
    departure_ratio d = Fin q
    ∧ stationFlow (departure_ratio d) = Some level
    ∧ (0 <= q <= 1)%Q
    ∧ ((arr + dep = 0)%nat → q = 0%Q ∧ level = 0%Q)
    ∧ ((0 < arr + dep)%nat →
       q = (inject_Z (Z.of_nat dep) / inject_Z (Z.of_nat (arr + dep)))%Q)
    ∧ ((q < 1 # 3)%Q → level = 0%Q)
    ∧ ((1 # 3 <= q)%Q → (q < 2 # 3)%Q → level = (1 # 2)%Q)
    ∧ ((2 # 3 <= q)%Q → level = 1%Q)
    ∧ level ∈ [0%Q; (1 # 2)%Q; 1%Q].
Proof.
  intros (Hdep & Harr & Htot).
  assert (Hlevel : ∀ q, (0 <= q <= 1)%Q → ∃ level,
    stationFlow (Fin q) = Some level
    ∧ ((q < 1 # 3)%Q → level = 0%Q)
    ∧ ((1 # 3 <= q)%Q → (q < 2 # 3)%Q → level = (1 # 2)%Q)
    ∧ ((2 # 3 <= q)%Q → level = 1%Q)
    ∧ level ∈ [0%Q; (1 # 2)%Q; 1%Q]).
  { intros q Hq. eexists. split; [apply stationFlow_Fin|].
    destruct (Qle_bool (2 # 3) q) eqn:H2.
    - apply Qle_bool_iff in H2.
      split_and!; [intros; lra|intros; lra|done|].
      rewrite !elem_of_cons. tauto.
    - apply Qle_bool_false in H2. destruct (Qle_bool (1 # 3) q) eqn:H1.
      + apply Qle_bool_iff in H1.
        split_and!; [intros; lra|done|intros; lra|].
        rewrite !elem_of_cons. tauto.
      + apply Qle_bool_false in H1.
        split_and!; [done|intros; lra|intros; lra|].
        rewrite !elem_of_cons. tauto. }
  unfold departure_ratio. rewrite Hdep, Htot. simpl.
  destruct (decide (arr + dep = 0)%nat) as [Hz|Hnz].
  - rewrite Hz. simpl.
    destruct (Hlevel 0%Q) as (level & Hl & H1 & H2 & H3 & H4); [lra|].
    exists 0%Q, level. split_and!; try done; [|lia].
    intros _. split; [done|]. apply H1. lra.
  - assert (Hpos : (0 < inject_Z (Z.of_nat (arr + dep)))%Q)
      by (change 0%Q with (inject_Z 0); rewrite <- Zlt_Qlt; lia).
    assert (Hlt : Qltb 0 (inject_Z (Z.of_nat (arr + dep))) = true).
    { unfold Qltb. apply negb_true_iff, Qle_bool_false. done. }
    assert (Hne : Qeq_bool (inject_Z (Z.of_nat (arr + dep))) 0 = false).
    { destruct (Qeq_bool _ 0) eqn:He; [|done].
      apply Qeq_bool_iff in He. lra. }
    rewrite Hlt. unfold of_count, num_div. rewrite Hne.
    pose proof (count_ratio_bounds dep (arr + dep)) as Hb.
    destruct (Hlevel _ (Hb ltac:(lia) ltac:(lia)))
      as (level & Hl & H1 & H2 & H3 & H4).
    eexists _, level. split_and!; try done; apply Hb; lia.
Qed.

(** Where every station is a record with counts, every flow style is a
    level. *)
Lemma flows_levels (app : App) :
  (∀ r, r ∈ stationsData app → carries_counts (store app) r) →
  flows_are_levels app.
Proof.
  intros Hcc. unfold flows_are_levels, flow_attrs.
  apply Forall_fmap, Forall_forall. intros r Hr. simpl.
  destruct (Hcc r Hr) as (s & dep & arr & -> & Ht). simpl.
  destruct (departure_ratio_level s dep arr Ht)
    as (q & level & _ & Hl & _ & _ & _ & _ & _ & _ & Hin).
  by exists level.
Qed.

(** ** The keyed join *)

Lemma each_length (f : Circle → Circle) (selection : list elem)
    (els : list Circle) :
  length (each f selection els) = length els.
Proof.
  unfold each. revert els.
  induction selection as [|node sel IH]; intros els; [done|].
  simpl. by rewrite IH, length_alter.
Qed.

Lemma each_lookup (f : Circle → Circle) (selection : list elem)
    (els : list Circle) (node : elem) :
  (∀ c, f (f c) = f c) →
  each f selection els !! node
  = if decide (node ∈ selection) then f <$> els !! node else els !! node.
Proof.
  intros Hf. unfold each. revert els.
  induction selection as [|n sel IH]; intros els; simpl.
  - destruct (decide (node ∈ [])) as [Hin|]; [|done].
    by apply elem_of_nil in Hin.
  - rewrite IH. destruct (decide (n = node)) as [->|Hne].
    + rewrite list_lookup_alter.
      rewrite !(decide_True (P := node = node)) by done.
      rewrite (decide_True (P := node ∈ node :: sel)) by by left.
      destruct (decide (node ∈ sel)); [|done].
      destruct (els !! node); simpl; [|done]. by rewrite Hf.
    + rewrite list_lookup_alter_ne by done.
      destruct (decide (node ∈ sel)) as [Hin|Hin].
      * by rewrite decide_True by by right.
      * rewrite decide_False; [done|].
        rewrite elem_of_cons. intros [?|?]; congruence.
Qed.

Section DrawingProperties.
Context `{Sqrt}.

Lemma draw_length (scale : Scale) (h : heap) (selection : list elem)
    (els : list Circle) :
  length (draw scale h selection els) = length els.
Proof. unfold draw. by rewrite !each_length. Qed.

Lemma draw_lookup (scale : Scale) (h : heap) (selection : list elem)
    (els : list Circle) (node : elem) :
  draw scale h selection els !! node
  = if decide (node ∈ selection)
    then (λ c, mkCircle (datum c) (scale_sqrt scale (total_of h (datum c)))
                        (flow_of h (datum c))) <$> els !! node
    else els !! node.
Proof.
  unfold draw. rewrite !each_lookup by done.
  destruct (decide (node ∈ selection)); [|done]. by destruct (els !! node).
Qed.

Lemma draw_datum (scale : Scale) (h : heap) (selection : list elem)
    (els : list Circle) :
  datum <$> draw scale h selection els = datum <$> els.
Proof.
  apply list_eq. intros node. rewrite !list_lookup_fmap, draw_lookup.
  destruct (decide (node ∈ selection)); [|done]. by destruct (els !! node).
Qed.

(** Drawing every element. *)
Lemma draw_all (scale : Scale) (h : heap) (els : list Circle) :
  draw scale h (seq 0 (length els)) els
  = (λ d, mkCircle d (scale_sqrt scale (total_of h d)) (flow_of h d))
      <$> (datum <$> els).
Proof.
  apply list_eq. intros node. rewrite draw_lookup, !list_lookup_fmap.
  destruct (els !! node) as [c|] eqn:Hc; simpl.
  - rewrite decide_True; [done|].
    apply elem_of_seq. apply lookup_lt_Some in Hc. lia.
  - by destruct (decide _).
Qed.
End DrawingProperties.

(** The first loop of [bindKey] returns when every node is an element
    bound to an object, and lists the nodes it was given. *)
Lemma key_nodes_ok (h : heap) (els : list Circle) (group : list elem)
    (m : gmap string elem) :
  (∀ node, node ∈ group →
     ∃ c, els !! node = Some c ∧ (datum c < length h)%nat) →
  ∃ m' keyed, key_nodes h els group m = Some (m', keyed)
    ∧ (λ entry : elem * string * bool, entry.1.1) <$> keyed = group
    ∧ (∀ k node, m' !! k = Some node → m !! k = Some node ∨ node ∈ group).
Proof.
  revert m. induction group as [|node group IH]; intros m Hok.
  - exists m, []. split_and!; [done|done|]. intros k node ?. by left.
  - destruct (Hok node ltac:(by left)) as (c & Hc & Hd).
    destruct (lookup_lt_is_Some_2 h (datum c) Hd) as [s Hs].
    assert (Hk : key_of h (datum c) = Some (short_name s))
      by (unfold key_of; by rewrite Hs).
    simpl. rewrite Hc. simpl. rewrite Hk. simpl.
    destruct (m !! short_name s) as [seen|] eqn:Hm.
    + destruct (IH m) as (m' & keyed & Hrun & Hnodes & Hsub).
      { intros n Hn. apply Hok. by right. }
      rewrite Hrun. simpl. eexists _, _. split_and!; [done| |].
      * rewrite fmap_cons. simpl. by f_equal.
      * intros k n Hn. destruct (Hsub k n Hn); [by left|right; by right].
    + destruct (IH (<[short_name s := node]> m))
        as (m' & keyed & Hrun & Hnodes & Hsub).
      { intros n Hn. apply Hok. by right. }
      rewrite Hrun. simpl. eexists _, _. split_and!; [done| |].
      * rewrite fmap_cons. simpl. by f_equal.
      * intros k n Hn. destruct (Hsub k n Hn) as [Hins|?]; [|right; by right].
        destruct (decide (short_name s = k)) as [<-|Hne].
        -- rewrite lookup_insert_eq in Hins. injection Hins as <-.
           right. by left.
        -- rewrite lookup_insert_ne in Hins by done. by left.
Qed.

Lemma rebound_refl (data : list ref) (els : list Circle) :
  rebound data els els.
Proof. split; [done|]. intros node c Hc. exists c. by split_and!; [|..|left]. Qed.

Lemma key_data_ok (h : heap) (els : list Circle) (data : list ref)
    (m : gmap string elem) :
  (∀ d, d ∈ data → (d < length h)%nat) →
  ∃ els' m' update, key_data h els data m = Some (els', m', update)
    ∧ length update = length data
    ∧ rebound data els els'
    ∧ (∀ node, Some node ∈ update → ∃ k, m !! k = Some node)
    ∧ (∀ k node, m' !! k = Some node → m !! k = Some node).
Proof.
  revert els m. induction data as [|d data IH]; intros els m Hok.
  - exists els, m, []. split_and!; [done|done|apply rebound_refl| |done].
    intros node Hn. by apply elem_of_nil in Hn.
  - destruct (lookup_lt_is_Some_2 h d (Hok d ltac:(by left))) as [s Hs].
    assert (Hk : key_of h d = Some (short_name s))
      by (unfold key_of; by rewrite Hs).
    assert (Hok' : ∀ d', d' ∈ data → (d' < length h)%nat)
      by (intros d' Hd'; apply Hok; by right).
    simpl. rewrite Hk. simpl.
    destruct (m !! short_name s) as [node|] eqn:Hm.
    + destruct (IH (alter (rebind d) node els) (delete (short_name s) m) Hok')
        as (els' & m' & update & Hrun & Hlen & [Hl Hre] & Hup & Hsub).
      rewrite Hrun. simpl. eexists _, _, _. split_and!; [done|simpl; lia| | |].
      * split; [by rewrite Hl, length_alter|].
        intros n c Hc.
        assert (Hstep : ∃ c1, alter (rebind d) node els !! n = Some c1
                  ∧ attr_r c1 = attr_r c
                  ∧ style_departure_ratio c1 = style_departure_ratio c
                  ∧ (datum c1 = datum c ∨ datum c1 = d)).
        { destruct (decide (node = n)) as [->|Hne].
          - rewrite list_lookup_alter, decide_True, Hc by done.
            eexists. split_and!; [done|done|done|by right].
          - rewrite list_lookup_alter_ne, Hc by done.
            eexists. split_and!; [done|done|done|by left]. }
        destruct Hstep as (c1 & Hc1 & Hr1 & Hs1 & Hd1).
        destruct (Hre n c1 Hc1) as (c' & Hc' & Hr' & Hs' & Hd').
        exists c'. split_and!; [done|congruence|congruence|].
        destruct Hd' as [Hd'|Hd']; [|right; by right].
        rewrite Hd'. destruct Hd1 as [?| ->]; [by left|right; by left].
      * intros n [[= <-]|Hn]%elem_of_cons; [by eexists|].
        destruct (Hup n Hn) as [k Hk']. exists k.
        by apply lookup_delete_Some in Hk' as [_ ?].
      * intros k n Hn. apply Hsub in Hn.
        by apply lookup_delete_Some in Hn as [_ ?].
    + destruct (IH els m Hok')
        as (els' & m' & update & Hrun & Hlen & [Hl Hre] & Hup & Hsub).
      rewrite Hrun. simpl. eexists _, _, _. split_and!; [done|simpl; lia| | |done].
      * split; [done|]. intros n c Hc.
        destruct (Hre n c Hc) as (c' & Hc' & Hr' & Hs' & Hd').
        exists c'. split_and!; [done|done|done|].
        destruct Hd'; [by left|right; by right].
      * intros n [[=]|Hn]%elem_of_cons. by apply Hup.
Qed.

Lemma exit_nodes_group (m : gmap string elem)
    (keyed : list (elem * string * bool)) (node : elem) :
  node ∈ exit_nodes m keyed →
  node ∈ (λ entry : elem * string * bool, entry.1.1) <$> keyed.
Proof.
  unfold exit_nodes. rewrite list_elem_of_omap, list_elem_of_fmap.
  intros ([[n k] seen] & Hin & Hsome). exists (n, k, seen).
  split; [|done]. simpl in *.
  destruct (seen || bool_decide (m !! k = Some n)); by simplify_eq.
Qed.

(** [bindKey] returns when the nodes of the group are elements bound to
    objects and the data are objects; it rebinds elements, takes its
    update and exit nodes from the group, and leaves one place per
    datum. *)
Lemma bindKey_ok (h : heap) (els : list Circle) (group : list elem)
    (data : list ref) :
  (∀ node, node ∈ group →
     ∃ c, els !! node = Some c ∧ (datum c < length h)%nat) →
  (∀ d, d ∈ data → (d < length h)%nat) →
  ∃ els' update exit, bindKey h els group data = Some (els', update, exit)
    ∧ length update = length data
    ∧ rebound data els els'
    ∧ (∀ node, Some node ∈ update → node ∈ group)
    ∧ (∀ node, node ∈ exit → node ∈ group).
Proof.
  intros Hgroup Hdata. unfold bindKey.
  destruct (key_nodes_ok h els group ∅ Hgroup)
    as (m & keyed & -> & Hnodes & Hm). simpl.
  destruct (key_data_ok h els data m Hdata)
    as (els' & m' & update & -> & Hlen & Hre & Hup & _). simpl.
  eexists _, _, _. split_and!; [done|done|done| |].
  - intros node Hn. destruct (Hup node Hn) as [k Hk].
    destruct (Hm k node Hk) as [Hempty|?]; [|done].
    by rewrite lookup_empty in Hempty.
  - intros node Hn. apply exit_nodes_group in Hn. by rewrite Hnodes in Hn.
Qed.

(** [enter().append] adds one element per hole, bound to one of the
    data; the nodes joined are update nodes or new elements. *)
Lemma enter_append_spec (els : list Circle) (data : list ref)
    (update : list (option elem)) (els' : list Circle)
    (entered merged : list elem) :
  enter_append els data update = (els', entered, merged) →
  ∃ new, els' = els ++ new
    ∧ Forall (λ c, datum c ∈ data) new
    ∧ entered = seq (length els) (length new)
    ∧ (∀ node, node ∈ merged → Some node ∈ update ∨ node ∈ entered).
Proof.
  revert els update els' entered merged.
  induction data as [|d data IH]; intros els update els' entered merged Hrun.
  - simpl in Hrun. injection Hrun as <- <- <-. exists [].
    split_and!; [by rewrite app_nil_r|done|done|].
    intros node Hn. by apply elem_of_nil in Hn.
  - destruct update as [|[node|] update]; simpl in Hrun.
    + injection Hrun as <- <- <-. exists [].
      split_and!; [by rewrite app_nil_r|done|done|].
      intros node Hn. by apply elem_of_nil in Hn.
    + destruct (enter_append els data update) as [[els1 entered1] merged1]
        eqn:Hrec.
      injection Hrun as <- <- <-.
      destruct (IH _ _ _ _ _ Hrec) as (new & -> & Hnew & -> & Hm).
      exists new. split_and!; [done| |done|].
      * eapply Forall_impl; [exact Hnew|]. intros c ?. by right.
      * intros n [->|Hn]%elem_of_cons; [left; by left|].
        destruct (Hm n Hn); [left; by right|by right].
    + destruct (enter_append (els ++ [mkCircle d None None]) data update)
        as [[els1 entered1] merged1] eqn:Hrec.
      injection Hrun as <- <- <-.
      destruct (IH _ _ _ _ _ Hrec) as (new & -> & Hnew & -> & Hm).
      exists (mkCircle d None None :: new).
      split_and!.
      * by rewrite <- app_assoc.
      * constructor; [by left|].
        eapply Forall_impl; [exact Hnew|]. intros c ?. by right.
      * rewrite length_app. simpl.
        replace (length els + 1)%nat with (S (length els)) by lia. done.
      * intros n [->|Hn]%elem_of_cons; [right; by left|].
        destruct (Hm n Hn) as [?|Hin]; [left; by right|right].
        by right.
Qed.

(** ** The page: loading and sliding *)

Lemma remove_nil (children : list elem) : remove [] children = children.
Proof.
  unfold remove. induction children as [|c l IH]; [done|].
  rewrite filter_cons, decide_True by apply not_elem_of_nil. by rewrite IH.
Qed.

Lemma last_range_cons (v : Z) (rest : list Z) :
  last_range (v :: rest)
  = match rest with [] => range_for v | _ => last_range rest end.
Proof. unfold last_range. by destruct rest. Qed.

Lemma last_range_snoc (earlier : list Z) (v : Z) :
  last_range (earlier ++ [v]) = range_for v.
Proof. unfold last_range. by rewrite last_snoc. Qed.

Section SlidingProperties.
Context `{Sqrt}.

(** One slider event on a page whose circles are bound to listed
    stations: the event returns, recounts the listed stations in place
    and sets the range; the tables, the station array and the kept
    selection stay, and the circles stay bound to listed stations. *)
Lemma updateTimeDisplay_run (app : App) (v : Z) :
  well_formed (store app) (stationsData app) → circles_bound app →
  ∃ app', updateTimeDisplay app v = Some app'
    ∧ buckets app' = buckets app
    ∧ stationsData app' = stationsData app
    ∧ circles app' = circles app
    ∧ radiusScale app'
      = {| domain := domain (radiusScale app); range := range_for v |}
    ∧ timeFilter app' = v
    ∧ circles_bound app'
    ∧ length (store app') = length (store app)
    ∧ (∀ r, r ∈ stationsData app →
         store app' !! r
         = derived (window_arrivals (buckets app) v)
                   (window_departures (buckets app) v)
           <$> store app !! r)
    ∧ (∀ r, r ∉ stationsData app → store app' !! r = store app !! r).
Proof.
  intros Hwf Hcb.
  destruct (map_refs_update (window_arrivals (buckets app) v)
              (window_departures (buckets app) v)
              (store app) (stationsData app) Hwf)
    as (h' & Hrun & Hlen & Hin & Hout).
  assert (Hobj : ∀ d, d ∈ stationsData app → (d < length h')%nat).
  { intros d Hd. rewrite Hlen. unfold well_formed in Hwf.
    rewrite Forall_forall in Hwf. by apply Hwf. }
  destruct (bindKey_ok h' (nodes app) (circles app) (stationsData app))
    as (bound & update & exit & Hbind & Hlenu & [Hlb Hre] & Hup & Hex).
  { intros node Hn. destruct (Hcb node (or_introl Hn)) as (c & Hc & Hd).
    exists c. split; [done|by apply Hobj]. }
  { exact Hobj. }
  destruct (enter_append bound (stationsData app) update)
    as [[appended entered] joined] eqn:Hea.
  destruct (enter_append_spec _ _ _ _ _ _ Hea)
    as (new & -> & Hnew & -> & Hjoined).
  eexists. split.
  { unfold updateTimeDisplay, updateScatterPlot, computeStationTraffic.
    cbn [store buckets stationsData nodes circles svg radiusScale timeFilter].
    unfold window_arrivals, window_departures in Hrun. rewrite Hrun.
    cbn [mbind option_bind]. rewrite Hbind. cbn [mbind option_bind].
    rewrite Hea. reflexivity. }
  cbn [store buckets stationsData nodes circles svg radiusScale timeFilter].
  split_and!; try done.
  intros node Hn.
  cbn [store buckets stationsData nodes circles svg radiusScale timeFilter]
    in *.
  assert (Hold : ∀ n, n ∈ circles app ∨ n ∈ svg app →
            ∃ c, (bound ++ new) !! n = Some c ∧ datum c ∈ stationsData app).
  { intros n Hn'. destruct (Hcb n Hn') as (c & Hc & Hd).
    destruct (Hre n c Hc) as (c' & Hc' & _ & _ & Hd').
    exists c'. split; [by apply lookup_app_l_Some|].
    destruct Hd' as [->|?]; done. }
  assert (Hnode : ∃ c, (bound ++ new) !! node = Some c
                       ∧ datum c ∈ stationsData app).
  { destruct Hn as [Hn|Hn]; [apply Hold; by left|].
    unfold remove in Hn. apply list_elem_of_filter in Hn as [_ Hn].
    apply elem_of_app in Hn as [Hn|Hn]; [apply Hold; by right|].
    apply elem_of_seq in Hn.
    destruct (lookup_lt_is_Some_2 new (node - length bound)) as [c Hc];
      [lia|].
    exists c. split; [by rewrite lookup_app_r by lia|].
    rewrite Forall_forall in Hnew. apply Hnew.
    by eapply list_elem_of_lookup_2. }
  destruct Hnode as (c & Hc & Hd). rewrite draw_lookup, Hc.
  destruct (decide (node ∈ joined)); simpl; by eexists.
Qed.

(** A run of slider events that ends in [v] leaves the counts, the scale
    and the filter that the event [v] alone leaves. *)
Lemma slide_snoc (earlier : list Z) (v : Z) (app : App) :
  well_formed (store app) (stationsData app) → circles_bound app →
  ∃ app', slide app (earlier ++ [v]) = Some app'
    ∧ buckets app' = buckets app
    ∧ stationsData app' = stationsData app
    ∧ circles app' = circles app
    ∧ radiusScale app'
      = {| domain := domain (radiusScale app); range := range_for v |}
    ∧ timeFilter app' = v
    ∧ circles_bound app'
    ∧ length (store app') = length (store app)
    ∧ (∀ r, r ∈ stationsData app →
         store app' !! r
         = derived (window_arrivals (buckets app) v)
                   (window_departures (buckets app) v)
           <$> store app !! r)
    ∧ (∀ r, r ∉ stationsData app → store app' !! r = store app !! r).
Proof.
  revert app. induction earlier as [|u earlier IH]; intros app Hwf Hcb.
  - destruct (updateTimeDisplay_run app v Hwf Hcb) as (app' & Hrun & Hrest).
    exists app'. split; [|exact Hrest]. simpl. by rewrite Hrun.
  - destruct (updateTimeDisplay_run app u Hwf Hcb)
      as (app1 & Hrun1 & Hb1 & Hsd1 & Hc1 & Hrs1 & Htf1 & Hcb1 & Hlen1
          & Hin1 & Hout1).
    assert (Hwf1 : well_formed (store app1) (stationsData app1)).
    { rewrite Hsd1. apply (well_formed_mono (store app)); [lia|done]. }
    destruct (IH app1 Hwf1 Hcb1)
      as (app' & Hrun & Hb & Hsd & Hc & Hrs & Htf & Hcb' & Hlen & Hin & Hout).
    exists app'. split_and!.
    + change (slide app ((u :: earlier) ++ [v]))
        with (updateTimeDisplay app u ≫= λ a, slide a (earlier ++ [v])).
      rewrite Hrun1. exact Hrun.
    + by rewrite Hb.
    + by rewrite Hsd.
    + by rewrite Hc.
    + rewrite Hrs, Hrs1. done.
    + done.
    + done.
    + by rewrite Hlen.
    + intros r Hr. rewrite Hin, Hb1, Hin1 by by rewrite ?Hsd1.
      by destruct (store app !! r).
    + intros r Hr. rewrite Hout, Hout1 by by rewrite ?Hsd1. done.
Qed.

(** Any run of slider events. *)
Lemma slide_ok (values : list Z) (app : App) :
  well_formed (store app) (stationsData app) → circles_bound app →
  (∀ r, r ∈ stationsData app → carries_counts (store app) r) →
  ∃ app', slide app values = Some app'
    ∧ stationsData app' = stationsData app
    ∧ domain (radiusScale app') = domain (radiusScale app)
    ∧ range (radiusScale app')
      = match values with
        | [] => range (radiusScale app)
        | _ => last_range values
        end
    ∧ (∀ r, r ∈ stationsData app → carries_counts (store app') r).
Proof.
  intros Hwf Hcb Htot.
  destruct values as [|v earlier _] using rev_ind.
  - exists app. by split_and!.
  - destruct (slide_snoc earlier v app Hwf Hcb)
      as (app' & Hrun & _ & Hsd & _ & Hrs & _ & _ & _ & Hin & _).
    exists app'. split_and!; [done|done|by rewrite Hrs| |].
    + rewrite Hrs, last_range_snoc. by destruct earlier.
    + intros r Hr. unfold carries_counts. rewrite Hin by done.
      unfold well_formed in Hwf. rewrite Forall_forall in Hwf.
      destruct (lookup_lt_is_Some_2 (store app) r (Hwf r Hr)) as [s ->].
      eexists _, _, _. split; [reflexivity|]. apply derived_counted.
Qed.
End SlidingProperties.

(** ** The join on a page with one circle per station *)

Lemma alter_rebind_same (els : list Circle) (node : elem) (c : Circle) :
  els !! node = Some c → alter (rebind (datum c)) node els = els.
Proof.
  intros Hc. apply list_eq. intros n.
  destruct (decide (node = n)) as [<-|Hne].
  - rewrite list_lookup_alter.
    rewrite (decide_True (P := node = node)) by done.
    rewrite Hc. simpl. by destruct c.
  - by rewrite list_lookup_alter_ne.
Qed.

(** The first loop on nodes with pairwise distinct keys, none of them in
    the map yet: every node enters the map under its key and none is
    marked. *)
Lemma key_nodes_distinct (h : heap) (els : list Circle) (group : list elem)
    (keys : list string) (m : gmap string elem) :
  Forall2 (λ node k, ∃ c, els !! node = Some c
                          ∧ key_of h (datum c) = Some k) group keys →
  NoDup keys → (∀ k, k ∈ keys → m !! k = None) →
  ∃ m', key_nodes h els group m
        = Some (m', (λ p : elem * string, (p.1, p.2, false))
                      <$> zip group keys)
    ∧ (∀ i node k, group !! i = Some node → keys !! i = Some k →
         m' !! k = Some node)
    ∧ (∀ k, k ∉ keys → m' !! k = m !! k).
Proof.
  intros Hall. revert m.
  induction Hall as [|node k group keys (c & Hc & Hk) Hall IH];
    intros m Hnd Hfresh.
  - exists m. split_and!; [done| |done]. intros i node k Hi.
    by rewrite lookup_nil in Hi.
  - apply NoDup_cons in Hnd as [Hk' Hnd].
    destruct (IH (<[k := node]> m) Hnd) as (m' & Hrun & Hlook & Hother).
    { intros k' Hin. rewrite lookup_insert_ne; [apply Hfresh; by right|].
      by intros ->. }
    exists m'. split_and!.
    + simpl. rewrite Hc. simpl. rewrite Hk. simpl.
      rewrite (Hfresh k) by by left. by rewrite Hrun.
    + intros [|i] n k'; simpl.
      * intros [= <-] [= <-]. rewrite Hother by done.
        by rewrite lookup_insert_eq.
      * apply Hlook.
    + intros k' Hk''. rewrite Hother.
      * rewrite lookup_insert_ne; [done|]. intros ->. apply Hk''. by left.
      * intros ?. apply Hk''. by right.
Qed.

(** The second loop on data that are, place by place, the data of the
    nodes, with pairwise distinct keys that lead to these nodes: every
    datum takes its node, nothing is rebound to another object, and the
    keys are used up. *)
Lemma key_data_aligned (h : heap) (els : list Circle) (group : list elem)
    (data : list ref) (keys : list string) (m : gmap string elem) :
  length group = length data → length keys = length data →
  (∀ i node d k, group !! i = Some node → data !! i = Some d →
     keys !! i = Some k →
     (∃ c, els !! node = Some c ∧ datum c = d)
     ∧ key_of h d = Some k ∧ m !! k = Some node) →
  NoDup keys →
  ∃ m', key_data h els data m = Some (els, m', Some <$> group)
    ∧ (∀ k, k ∈ keys → m' !! k = None)
    ∧ (∀ k, m !! k = None → m' !! k = None).
Proof.
  revert group keys m.
  induction data as [|d data IH]; intros group keys m Hlg Hlk Hall Hnd.
  - destruct group; [|done]. exists m. split_and!; [done| |done].
    destruct keys; [|done]. intros k Hk. by apply elem_of_nil in Hk.
  - destruct group as [|node group]; [done|].
    destruct keys as [|k keys]; [done|].
    apply NoDup_cons in Hnd as [Hk' Hnd].
    destruct (Hall 0%nat node d k eq_refl eq_refl eq_refl)
      as ((c & Hc & Hd) & Hk & Hm).
    destruct (IH group keys (delete k m)) as (m' & Hrun & Hnone & Hmono);
      [simpl in *; lia|simpl in *; lia| |done|].
    { intros i n d' k' Hn Hd' Hk''.
      destruct (Hall (S i) n d' k' Hn Hd' Hk'') as (? & ? & Hm').
      split_and!; [done|done|].
      rewrite lookup_delete_ne; [done|]. intros <-. apply Hk'.
      by eapply list_elem_of_lookup_2. }
    exists m'. split_and!.
    + simpl. rewrite Hk. simpl. rewrite Hm. subst d.
      rewrite alter_rebind_same by done. by rewrite Hrun.
    + intros k0 [->|Hk0]%elem_of_cons; [|by apply Hnone].
      apply Hmono. by rewrite lookup_delete_eq.
    + intros k0 Hk0. apply Hmono.
      destruct (decide (k = k0)) as [<-|Hne];
        [by rewrite lookup_delete_eq|by rewrite lookup_delete_ne].
Qed.

Lemma exit_nodes_none (m : gmap string elem) (group : list elem)
    (keys : list string) :
  (∀ k, k ∈ keys → m !! k = None) →
  exit_nodes m ((λ p : elem * string, (p.1, p.2, false)) <$> zip group keys)
  = [].
Proof.
  revert keys. induction group as [|node group IH]; intros keys Hnone;
    [done|].
  destruct keys as [|k keys]; [done|].
  assert (IH' := IH keys). clear IH.
  assert (Hrest : ∀ k', k' ∈ keys → m !! k' = None)
    by (intros k' Hk'; apply Hnone; by right).
  specialize (IH' Hrest).
  assert (Hk : bool_decide (m !! k = Some node) = false).
  { apply bool_decide_eq_false_2. rewrite Hnone; [done|by left]. }
  unfold exit_nodes in *. simpl. rewrite Hk. exact IH'.
Qed.

Lemma enter_append_full (els : list Circle) (data : list ref)
    (group : list elem) :
  length group = length data →
  enter_append els data (Some <$> group) = (els, [], group).
Proof.
  revert group. induction data as [|d data IH]; intros group Hlen.
  - by destruct group.
  - destruct group as [|node group]; [done|].
    simpl. rewrite IH by (simpl in Hlen; lia). done.
Qed.

(** On a page that holds circle [i] for station [i], with pairwise
    distinct names, the join takes every circle into the update
    selection: nothing enters, nothing exits, nothing is rebound. *)
Lemma bindKey_one_each (h : heap) (els : list Circle) (data : list ref)
    (keys : list string) :
  datum <$> els = data →
  Forall2 (λ d k, key_of h d = Some k) data keys →
  NoDup keys →
  bindKey h els (seq 0 (length els)) data
  = Some (els, Some <$> seq 0 (length els), []).
Proof.
  intros Hdata Hkeys Hnd.
  assert (Hlen : length data = length els)
    by by rewrite <- Hdata, length_fmap.
  pose proof (Forall2_length _ _ _ Hkeys) as Hlk.
  assert (Hat : ∀ i node d k,
            seq 0 (length els) !! i = Some node → data !! i = Some d →
            keys !! i = Some k →
            (∃ c, els !! node = Some c ∧ datum c = d)
            ∧ key_of h d = Some k).
  { intros i node d k [-> _]%lookup_seq Hd Hk. simpl. split.
    - rewrite <- Hdata, list_lookup_fmap in Hd.
      destruct (els !! i) as [c|]; [|done]. injection Hd as <-. by exists c.
    - by apply (Forall2_lookup_lr _ _ _ i d k Hkeys). }
  destruct (key_nodes_distinct h els (seq 0 (length els)) keys ∅)
    as (m & Hrun1 & Hlook & _); [|done|done|].
  { apply Forall2_same_length_lookup_2.
    - rewrite length_seq. lia.
    - intros i node k Hn Hk.
      destruct (lookup_lt_is_Some_2 data i) as [d Hd].
      { rewrite Hlk. by eapply lookup_lt_Some. }
      destruct (Hat i node d k Hn Hd Hk) as [(c & Hc & <-) Hkey].
      by exists c. }
  destruct (key_data_aligned h els (seq 0 (length els)) data keys m)
    as (m' & Hrun2 & Hnone & _); [rewrite length_seq; lia|lia| |done|].
  { intros i node d k Hn Hd Hk.
    destruct (Hat i node d k Hn Hd Hk) as [Hc Hkey].
    split_and!; [done|done|]. by apply (Hlook i). }
  unfold bindKey. rewrite Hrun1. simpl. rewrite Hrun2. simpl.
  by rewrite exit_nodes_none.
Qed.

Lemma listed_names_cons (h : heap) (r : ref) (refs : list ref) :
  listed_names h (r :: refs)
  = match h !! r with
    | Some s => short_name s :: listed_names h refs
    | None => listed_names h refs
    end.
Proof. unfold listed_names. simpl. by destruct (h !! r). Qed.

(** The names of listed objects, as the keys of the join. *)
Lemma keys_listed_names (h : heap) (refs : list ref) :
  well_formed h refs →
  Forall2 (λ d k, key_of h d = Some k) refs (listed_names h refs).
Proof.
  induction refs as [|r refs IH]; intros Hwf; [constructor|].
  apply well_formed_cons in Hwf as [Hr Hwf].
  destruct (lookup_lt_is_Some_2 h r Hr) as [s Hs].
  rewrite listed_names_cons, Hs.
  constructor; [unfold key_of; by rewrite Hs|by apply IH].
Qed.

Lemma listed_names_recounted (arr dep : gmap string nat) (h h' : heap)
    (refs : list ref) :
  (∀ r, r ∈ refs → h' !! r = derived arr dep <$> h !! r) →
  listed_names h' refs = listed_names h refs.
Proof.
  induction refs as [|r refs IH]; intros Hin; [done|].
  rewrite !listed_names_cons, Hin by by left.
  rewrite IH by (intros r' Hr'; apply Hin; by right).
  by destruct (h !! r).
Qed.

Lemma one_each_bound (app : App) :
  one_circle_per_station app → circles_bound app.
Proof.
  intros (Hc & Hsvg & Hd) node Hn. rewrite Hsvg, Hc in Hn.
  assert (Hlt : (node < length (nodes app))%nat).
  { destruct Hn as [Hn|Hn]; apply elem_of_seq in Hn; lia. }
  destruct (lookup_lt_is_Some_2 (nodes app) node Hlt) as [c Hc'].
  exists c. split; [done|]. rewrite <- Hd.
  apply (list_elem_of_lookup_2 _ node). by rewrite list_lookup_fmap, Hc'.
Qed.

Section DistinctNames.
Context `{Sqrt}.

Lemma drawn_datum (scale : Scale) (h : heap) (data : list ref) :
  datum <$> drawn scale h data = data.
Proof.
  unfold drawn. rewrite <- list_fmap_compose.
  rewrite <- (list_fmap_id data) at 2. by apply list_fmap_ext.
Qed.

Lemma drawn_length (scale : Scale) (h : heap) (data : list ref) :
  length (drawn scale h data) = length data.
Proof. unfold drawn. by rewrite length_fmap. Qed.

(** One slider event on a page with one circle per station and pairwise
    distinct names: every circle is drawn again, none is added and none
    removed. *)
Lemma updateTimeDisplay_run_distinct (app : App) (v : Z) :
  well_formed (store app) (stationsData app) →
  one_circle_per_station app →
  NoDup (listed_names (store app) (stationsData app)) →
  ∃ h',
    updateTimeDisplay app v
    = Some {| buckets := buckets app; store := h';
              stationsData := stationsData app;
              nodes := drawn {| domain := domain (radiusScale app);
                                range := range_for v |} h' (stationsData app);
              svg := svg app; circles := circles app;
              radiusScale := {| domain := domain (radiusScale app);
                                range := range_for v |};
              timeFilter := v |}
    ∧ length h' = length (store app)
    ∧ (∀ r, r ∈ stationsData app →
         h' !! r = derived (window_arrivals (buckets app) v)
                           (window_departures (buckets app) v)
                   <$> store app !! r)
    ∧ (∀ r, r ∉ stationsData app → h' !! r = store app !! r).
Proof.
  intros Hwf (Hc & Hsvg & Hd) Hnd.
  destruct (map_refs_update (window_arrivals (buckets app) v)
              (window_departures (buckets app) v)
              (store app) (stationsData app) Hwf)
    as (h' & Hrun & Hlen & Hin & Hout).
  exists h'. split; [|done].
  assert (Hwf' : well_formed h' (stationsData app))
    by (apply (well_formed_mono (store app)); [lia|done]).
  pose proof (keys_listed_names h' (stationsData app) Hwf') as Hkeys.
  rewrite (listed_names_recounted _ _ (store app) h' _ Hin) in Hkeys.
  pose proof (bindKey_one_each h' (nodes app) (stationsData app) _
                Hd Hkeys Hnd) as Hbind.
  rewrite <- Hc in Hbind.
  unfold updateTimeDisplay, updateScatterPlot, computeStationTraffic.
  cbn [store buckets stationsData nodes circles svg radiusScale timeFilter].
  unfold window_arrivals, window_departures in Hrun. rewrite Hrun.
  cbn [mbind option_bind]. rewrite Hbind. cbn [mbind option_bind].
  rewrite enter_append_full
    by (rewrite Hc, length_seq, <- Hd; by rewrite length_fmap).
  rewrite app_nil_r, remove_nil. do 2 f_equal.
  rewrite Hc, draw_all, Hd. done.
Qed.

Lemma one_each_after (app : App) (scale : Scale) (h' : heap) (v : Z) :
  one_circle_per_station app →
  one_circle_per_station
    {| buckets := buckets app; store := h';
       stationsData := stationsData app;
       nodes := drawn scale h' (stationsData app);
       svg := svg app; circles := circles app;
       radiusScale := scale; timeFilter := v |}.
Proof.
  intros (Hc & Hsvg & Hd).
  unfold one_circle_per_station.
  cbn [store buckets stationsData nodes circles svg radiusScale timeFilter].
  rewrite drawn_datum, drawn_length. split_and!; [|done|done].
  rewrite Hc, <- Hd. by rewrite length_fmap.
Qed.

(** With one circle per station and pairwise distinct names, a run of
    slider events leaves the page that its last event alone leaves. *)
Lemma slide_snoc_distinct (earlier : list Z) (v : Z) (app : App) :
  well_formed (store app) (stationsData app) →
  one_circle_per_station app →
  NoDup (listed_names (store app) (stationsData app)) →
  ∃ app', slide app (earlier ++ [v]) = Some app'
    ∧ updateTimeDisplay app v = Some app'.
Proof.
  revert app. induction earlier as [|u earlier IH]; intros app Hwf Hone Hnd.
  - destruct (updateTimeDisplay_run_distinct app v Hwf Hone Hnd)
      as (h' & Hrun & _).
    eexists. simpl. rewrite Hrun. by split.
  - destruct (updateTimeDisplay_run_distinct app u Hwf Hone Hnd)
      as (h1 & Hrun1 & Hlen1 & Hin1 & Hout1).
    match type of Hrun1 with _ = Some ?a => set (app1 := a) in * end.
    assert (Hwf1 : well_formed (store app1) (stationsData app1)).
    { apply (well_formed_mono (store app)); [simpl; lia|done]. }
    assert (Hone1 : one_circle_per_station app1) by by apply one_each_after.
    assert (Hnd1 : NoDup (listed_names (store app1) (stationsData app1))).
    { simpl. by rewrite (listed_names_recounted _ _ (store app) h1 _ Hin1). }
    destruct (IH app1 Hwf1 Hone1 Hnd1) as (app' & Hslide & Hlast).
    exists app'. split.
    + change (slide app ((u :: earlier) ++ [v]))
        with (updateTimeDisplay app u ≫= λ a, slide a (earlier ++ [v])).
      rewrite Hrun1. exact Hslide.
    + rewrite <- Hlast.
      destruct (updateTimeDisplay_run_distinct app v Hwf Hone Hnd)
        as (h' & -> & Hlen & Hin & Hout).
      destruct (updateTimeDisplay_run_distinct app1 v Hwf1 Hone1 Hnd1)
        as (h1' & -> & Hlen' & Hin' & Hout').
      subst app1.
      cbn [store buckets stationsData nodes circles svg radiusScale
           timeFilter domain] in *.
      assert (Heq : h' = h1').
      { apply list_eq. intros r.
        destruct (decide (r ∈ stationsData app)) as [Hr|Hr].
        - rewrite Hin, Hin', Hin1 by done. by destruct (store app !! r).
        - by rewrite Hout, Hout', Hout1. }
      by rewrite Heq.
Qed.
End DistinctNames.

(** ** The join at load, on an SVG that holds no circle *)

Lemma key_data_empty (h : heap) (els : list Circle) (data : list ref) :
  well_formed h data →
  key_data h els data ∅ = Some (els, ∅, replicate (length data) None).
Proof.
  induction data as [|d data IH]; intros Hwf; [done|].
  apply well_formed_cons in Hwf as [Hd Hwf].
  destruct (lookup_lt_is_Some_2 h d Hd) as [s Hs].
  simpl. unfold key_of. rewrite Hs. simpl.
  rewrite lookup_empty, IH by done. done.
Qed.

Lemma enter_append_holes (els : list Circle) (data : list ref) :
  enter_append els data (replicate (length data) None)
  = (els ++ ((λ d, mkCircle d None None) <$> data),
     seq (length els) (length data), seq (length els) (length data)).
Proof.
  revert els. induction data as [|d data IH]; intros els.
  - simpl. by rewrite app_nil_r.
  - simpl. rewrite IH, length_app, <- app_assoc. simpl.
    by rewrite Nat.add_1_r.
Qed.

Section PageProperties.
Context `{TimeZone} `{Sqrt}.

(** Loading returns, with one circle entered and drawn for every listed
    station. *)
Lemma on_load_run (h : heap) (listed : list ref) (trips : list Trip) :
  Forall valid_trip trips → well_formed h listed →
  ∃ b h0,
    csv_rows empty_buckets trips = Some b
    ∧ on_load h listed trips
      = Some {| buckets := b; store := h0; stationsData := listed;
                nodes :=
                  drawn {| domain :=
                             (Fin 0%Q,
                              to_num (d3_max (total_of h0 <$> listed)));
                           range := range initial_radiusScale |} h0 listed;
                svg := seq 0 (length listed);
                circles := seq 0 (length listed);
                radiusScale :=
                  {| domain := (Fin 0%Q,
                                to_num (d3_max (total_of h0 <$> listed)));
                     range := range initial_radiusScale |};
                timeFilter := -1 |}
    ∧ length h0 = length h
    ∧ (∀ r, r ∈ listed →
         h0 !! r = derived (window_arrivals b (-1)) (window_departures b (-1))
                   <$> h !! r).
Proof.
  intros Hvalid Hwf.
  destruct (csv_rows_buckets trips empty_buckets) as (b & Hrun & _);
    [reflexivity|reflexivity|done|].
  destruct (map_refs_update (window_arrivals b (-1))
              (window_departures b (-1)) h listed Hwf)
    as (h0 & Hrun0 & Hlen & Hin & _).
  exists b, h0. split; [done|]. split; [|done].
  assert (Hwf0 : well_formed h0 listed)
    by (apply (well_formed_mono h); [lia|done]).
  unfold on_load. rewrite Hrun. cbn [mbind option_bind].
  unfold computeStationTraffic.
  change (rollup (filterByMinute (arrivalsByMinute b) (-1))
                 length end_station_id) with (window_arrivals b (-1)).
  change (rollup (filterByMinute (departuresByMinute b) (-1))
                 length start_station_id) with (window_departures b (-1)).
  rewrite Hrun0. cbn [mbind option_bind].
  unfold bindKey. cbn [key_nodes mbind option_bind].
  rewrite key_data_empty by done. cbn [mbind option_bind].
  rewrite enter_append_holes. rewrite app_nil_l. do 2 f_equal.
  pose proof (draw_all
                {| domain := (Fin 0%Q, to_num (d3_max (total_of h0 <$> listed)));
                   range := range initial_radiusScale |} h0
                ((λ d, mkCircle d None None) <$> listed)) as Hdraw.
  rewrite length_fmap in Hdraw. simpl in Hdraw. simpl. rewrite Hdraw.
  unfold drawn. f_equal. rewrite <- list_fmap_compose.
  rewrite <- (list_fmap_id listed) at 2. by apply list_fmap_ext.
Qed.

Lemma on_load_ok (h : heap) (listed : list ref) (trips : list Trip) :
  Forall valid_trip trips → well_formed h listed →
  ∃ app0, on_load h listed trips = Some app0
    ∧ well_formed (store app0) (stationsData app0)
    ∧ stationsData app0 = listed
    ∧ one_circle_per_station app0
    ∧ listed_names (store app0) (stationsData app0) = listed_names h listed
    ∧ radiusScale app0
      = {| domain :=
             (Fin 0%Q,
              to_num (d3_max (total_of (store app0) <$> stationsData app0)));
           range := range initial_radiusScale |}
    ∧ (∀ r, r ∈ listed → ∃ s s',
         h !! r = Some s ∧ store app0 !! r = Some s'
         ∧ has_traffic s' (count_departures trips (short_name s))
                          (count_arrivals trips (short_name s))).
Proof.
  intros Hvalid Hwf.
  destruct (csv_rows_buckets trips empty_buckets)
    as (b' & Hrun' & _ & _ & _ & _ & Hpd & Hpa);
    [reflexivity|reflexivity|done|].
  change (departuresByMinute empty_buckets) with empty_table in Hpd.
  change (arrivalsByMinute empty_buckets) with empty_table in Hpa.
  rewrite concat_empty_table in Hpd, Hpa. simpl in Hpd, Hpa.
  destruct (on_load_run h listed trips Hvalid Hwf)
    as (b & h0 & Hb & Hload & Hlen & Hin).
  rewrite Hrun' in Hb. injection Hb as ->.
  eexists. split; [exact Hload|].
  cbn [store buckets stationsData nodes circles svg radiusScale timeFilter].
  split_and!; try done.
  - apply (well_formed_mono h); [lia|done].
  - unfold one_circle_per_station.
    cbn [store buckets stationsData nodes circles svg radiusScale timeFilter].
    by rewrite drawn_length, drawn_datum.
  - exact (listed_names_recounted _ _ h h0 listed Hin).
  - intros r Hr. rewrite Hin by done.
    unfold well_formed in Hwf. rewrite Forall_forall in Hwf.
    destruct (lookup_lt_is_Some_2 h r (Hwf r Hr)) as [s Hs].
    eexists s, _. rewrite Hs. split_and!; [done|reflexivity|].
    unfold has_traffic, derived. simpl.
    unfold window_arrivals, window_departures. rewrite !rollup_count.
    change (filterByMinute (arrivalsByMinute b) (-1))
      with (concat (arrivalsByMinute b)).
    change (filterByMinute (departuresByMinute b) (-1))
      with (concat (departuresByMinute b)).
    unfold count_arrivals, count_departures. by rewrite Hpa, Hpd.
Qed.

Lemma carries_counts_total (h : heap) (r : ref) :
  carries_counts h r → is_Some (total_of h r).
Proof.
  intros (s & dep & arr & Hs & _ & _ & Ht). unfold total_of.
  rewrite Hs. simpl. by eexists.
Qed.

Lemma scan_updateScatterPlot_ok (app : ScanPage.App) (f : Z) :
  well_formed (ScanPage.store app) (ScanPage.stations app) →
  ∃ app', ScanPage.updateScatterPlot app f = Some app'
    ∧ well_formed (ScanPage.store app') (ScanPage.stations app')
    ∧ domain (ScanPage.radiusScale app') = domain (ScanPage.radiusScale app)
    ∧ range (ScanPage.radiusScale app') = range_for f.
Proof.
  intros Hwf. unfold ScanPage.updateScatterPlot, Scan.computeStationTraffic.
  set (active := Scan.filterTripsByTime (ScanPage.trips app) f).
  destruct (map_refs_copy (rollup active length start_station_id)
              (rollup active length end_station_id)
              (ScanPage.store app) (ScanPage.stations app) Hwf)
    as (new & Hrun & _).
  rewrite Hrun. simpl. eexists. split; [reflexivity|]. simpl.
  split_and!; try done.
  apply (well_formed_mono (ScanPage.store app)); [|done].
  rewrite length_app. lia.
Qed.

Lemma scan_slide_ok (values : list Z) (app : ScanPage.App) :
  well_formed (ScanPage.store app) (ScanPage.stations app) →
  ∃ app', ScanPage.slide app values = Some app'
    ∧ domain (ScanPage.radiusScale app') = domain (ScanPage.radiusScale app)
    ∧ range (ScanPage.radiusScale app')
      = match values with
        | [] => range (ScanPage.radiusScale app)
        | _ => last_range values
        end.
Proof.
  revert app. induction values as [|v rest IH]; intros app Hwf.
  - exists app. by split_and!.
  - destruct (scan_updateScatterPlot_ok
                {| ScanPage.trips := ScanPage.trips app;
                   ScanPage.store := ScanPage.store app;
                   ScanPage.stations := ScanPage.stations app;
                   ScanPage.stationsWithTraffic :=
                     ScanPage.stationsWithTraffic app;
                   ScanPage.radiusScale := ScanPage.radiusScale app;
                   ScanPage.timeFilter := v |} v Hwf)
      as (app1 & Hrun & Hwf1 & Hdom & Hrng).
    simpl in Hdom.
    destruct (IH app1 Hwf1) as (app' & Hrun' & Hdom' & Hrng').
    exists app'. split_and!.
    + simpl. unfold ScanPage.updateTimeDisplay. rewrite Hrun. simpl.
      exact Hrun'.
    + by rewrite Hdom', Hdom.
    + rewrite Hrng', last_range_cons. by destruct rest.
Qed.

Lemma scan_on_load_ok (h : heap) (listed : list ref) (trips : list Trip) :
  well_formed h listed →
  ∃ app0, ScanPage.on_load h listed trips = Some app0
    ∧ well_formed (ScanPage.store app0) (ScanPage.stations app0)
    ∧ ScanPage.radiusScale app0
      = {| domain :=
             (Fin 0%Q,
              to_num (d3_max (total_of (ScanPage.store app0)
                                <$> ScanPage.stationsWithTraffic app0)));
           range := range initial_radiusScale |}.
Proof.
  intros Hwf. unfold ScanPage.on_load, Scan.computeStationTraffic.
  set (active := Scan.filterTripsByTime trips (-1)).
  destruct (map_refs_copy (rollup active length start_station_id)
              (rollup active length end_station_id) h listed Hwf)
    as (new & Hrun & _).
  rewrite Hrun. simpl. eexists. split; [reflexivity|]. simpl.
  split; [|done].
  apply (well_formed_mono h); [|done]. rewrite length_app. lia.
Qed.

(** C5, amended. In both variants, loading sets the domain of the radius
    scale to run from 0 to the largest totalTraffic of the unfiltered
    count; a filter change sets the range alone, to [0, 25] for the
    sentinel and to [3, 50] for a minute, and leaves the domain as
    loading set it. *)
Theorem radius_domain_is_fixed_at_load (h : heap) (listed : list ref)
    (trips : list Trip) :
  Forall valid_trip trips → well_formed h listed →
  (∃ app0, on_load h listed trips = Some app0
     ∧ domain (radiusScale app0)
       = (Fin 0%Q,
          to_num (d3_max (total_of (store app0) <$> stationsData app0)))
     ∧ ∀ values, ∃ app,
         slide app0 values = Some app
         ∧ domain (radiusScale app) = domain (radiusScale app0)
         ∧ range (radiusScale app) = last_range values)
  ∧ (∃ app0, ScanPage.on_load h listed trips = Some app0
       ∧ domain (ScanPage.radiusScale app0)
         = (Fin 0%Q,
            to_num (d3_max (total_of (ScanPage.store app0)
                              <$> ScanPage.stationsWithTraffic app0)))
       ∧ ∀ values, ∃ app,
           ScanPage.slide app0 values = Some app
           ∧ domain (ScanPage.radiusScale app)
             = domain (ScanPage.radiusScale app0)
           ∧ range (ScanPage.radiusScale app) = last_range values).
Proof.
  intros Hvalid Hwf. split.
  - destruct (on_load_ok h listed trips Hvalid Hwf)
      as (app0 & Hrun & Hwf0 & Hsd & Hone & _ & Hrs & Htot).
    exists app0. split_and!; [done|by rewrite Hrs|].
    intros values.
    destruct (slide_ok values app0) as (app & Hs & _ & Hdom & Hrng & _).
    { done. }
    { by apply one_each_bound. }
    { intros r Hr. rewrite Hsd in Hr.
      destruct (Htot r Hr) as (s & s' & _ & Hs' & Ht). by eexists s', _, _. }
    exists app. split_and!; [done|done|].
    rewrite Hrng. destruct values; [|done]. by rewrite Hrs.
  - destruct (scan_on_load_ok h listed trips Hwf) as (app0 & Hrun & Hwf0 & Hrs).
    exists app0. split_and!; [done|by rewrite Hrs|].
    intros values.
    destruct (scan_slide_ok values app0 Hwf0) as (app & Hs & Hdom & Hrng).
    exists app. split_and!; [done|done|].
    rewrite Hrng. destruct values; [|done]. by rewrite Hrs.
Qed.

(** C8. For every station that carries counts, the argument handed to the
    flow scale is a finite number in the unit interval: the departure
    fraction when there is traffic and 0 when there is none, so that no
    division by zero takes place; the level is 0 below one third, one half
    from one third up to two thirds, and 1 from two thirds on.  On the
    page, at load and after every filter change, the flow style that the
    callback returns for every station is one of these three levels. *)
Theorem flow_level_is_quantized_fraction :
  (∀ (d : Station) (dep arr : nat),
     has_traffic d dep arr →
     ∃ q level,
       departure_ratio d = Fin q
       ∧ stationFlow (departure_ratio d) = Some level
       ∧ (0 <= q <= 1)%Q
       ∧ ((arr + dep = 0)%nat → q = 0%Q ∧ level = 0%Q)
       ∧ ((0 < arr + dep)%nat →
          q = (inject_Z (Z.of_nat dep) / inject_Z (Z.of_nat (arr + dep)))%Q)
       ∧ ((q < 1 # 3)%Q → level = 0%Q)
       ∧ ((1 # 3 <= q)%Q → (q < 2 # 3)%Q → level = (1 # 2)%Q)
       ∧ ((2 # 3 <= q)%Q → level = 1%Q)
       ∧ level ∈ [0%Q; (1 # 2)%Q; 1%Q])
  ∧ (∀ (h : heap) (listed : list ref) (trips : list Trip),
       Forall valid_trip trips → well_formed h listed →
       ∃ app0, on_load h listed trips = Some app0
         ∧ flows_are_levels app0
         ∧ ∀ values, ∃ app,
             slide app0 values = Some app ∧ flows_are_levels app).
Proof.
  split; [exact departure_ratio_level|].
  intros h listed trips Hvalid Hwf.
  destruct (on_load_ok h listed trips Hvalid Hwf)
    as (app0 & Hrun & Hwf0 & Hsd & Hone & _ & Hrs & Htot).
  assert (Hcc : ∀ r, r ∈ stationsData app0 → carries_counts (store app0) r).
  { intros r Hr. rewrite Hsd in Hr.
    destruct (Htot r Hr) as (s & s' & _ & Hs' & Ht). by eexists s', _, _. }
  exists app0. split_and!; [done| |].
  - by apply flows_levels.
  - intros values.
    destruct (slide_ok values app0 Hwf0) as (app & Hs & Hsd' & _ & _ & Hcc');
      [by apply one_each_bound|exact Hcc|].
    exists app. split; [done|].
    apply flows_levels. intros r Hr. apply Hcc'. by rewrite Hsd' in Hr.
Qed.
End PageProperties.

(** ** The radius scale on an empty domain *)

Lemma d3_max_zeros (l : list (option nat)) :
  l ≠ [] → Forall (λ v, v = Some 0%nat) l → d3_max l = Some 0%nat.
Proof.
  destruct l as [|v l]; [done|]. intros _ Hall.
  apply Forall_cons in Hall as [-> Hall]. unfold d3_max. simpl.
  induction Hall as [|v l -> Hall IH]; [done|]. simpl. exact IH.
Qed.

Lemma range_for_finite (v : Z) : ∃ r0 r1, range_for v = (Fin r0, Fin r1).
Proof. unfold range_for. destruct (v =? -1); by eexists _, _. Qed.

Section DegenerateScale.
Context `{Sqrt}.

(** With both ends of the domain at 0, [normalize] is the constant 0.5
    and the scale returns the middle of its range, whatever the input. *)
Lemma scale_sqrt_degenerate (s : Scale) (r0 r1 : Q) (n : nat) :
  domain s = (Fin 0%Q, Fin 0%Q) → range s = (Fin r0, Fin r1) →
  scale_sqrt s (Some n)
  = Some (Fin (r0 * (1 + - (1 # 2)) + r1 * (1 # 2))%Q).
Proof.
  intros Hd Hr. unfold scale_sqrt. rewrite Hd, Hr. f_equal.
  change (transformSqrt (Fin 0%Q, Fin 0%Q).1) with (Fin (Math_sqrt 0%Q)).
  change (transformSqrt (Fin 0%Q, Fin 0%Q).2) with (Fin (Math_sqrt 0%Q)).
  set (s0 := Math_sqrt 0%Q). unfold bimap.
  assert (Hlt : num_ltb (Fin s0) (Fin s0) = false).
  { simpl. unfold Qltb. apply negb_false_iff, Qle_bool_iff. lra. }
  assert (Hz : truthy (num_sub (Fin s0) (Fin s0)) = false).
  { simpl. apply negb_false_iff, Qeq_bool_iff. ring. }
  rewrite Hlt. unfold normalize. rewrite Hz. reflexivity.
Qed.

Lemma radii_middle (app : App) :
  domain (radiusScale app) = (Fin 0%Q, Fin 0%Q) →
  (∃ r0 r1, range (radiusScale app) = (Fin r0, Fin r1)) →
  (∀ r, r ∈ stationsData app → is_Some (total_of (store app) r)) →
  radii_at_range_middle app.
Proof.
  intros Hd (r0 & r1 & Hr) Htot.
  unfold radii_at_range_middle, radius_attrs.
  apply Forall_fmap, Forall_forall. intros r Hin. simpl.
  destruct (Htot r Hin) as [n ->].
  rewrite (scale_sqrt_degenerate _ r0 r1 n Hd Hr).
  eexists _, r0, r1. split_and!; [done|done|]. field.
Qed.
End DegenerateScale.

Section DegeneratePage.
Context `{TimeZone} `{Sqrt}.

(** C9, amended. When no trip starts or ends at any listed station, every
    station has totalTraffic 0 after loading and the domain of the radius
    scale is from 0 to 0; evaluating the scale then returns a finite
    number for every station, at load and after every filter change, and
    that number is the middle of the range. *)
Theorem degenerate_domain_gives_range_middle (h : heap)
    (listed : list ref) (trips : list Trip) :
  Forall valid_trip trips → well_formed h listed → listed ≠ [] →
  (∀ r s, r ∈ listed → h !! r = Some s →
     count_arrivals trips (short_name s) = 0%nat
     ∧ count_departures trips (short_name s) = 0%nat) →
  ∃ app0, on_load h listed trips = Some app0
    ∧ (∀ r, r ∈ stationsData app0 → total_of (store app0) r = Some 0%nat)
    ∧ domain (radiusScale app0) = (Fin 0%Q, Fin 0%Q)
    ∧ radii_at_range_middle app0
    ∧ ∀ values, ∃ app,
        slide app0 values = Some app ∧ radii_at_range_middle app.
Proof.
  intros Hvalid Hwf Hne Hnone.
  destruct (on_load_ok h listed trips Hvalid Hwf)
    as (app0 & Hrun & Hwf0 & Hsd & Hone & _ & Hrs & Htot).
  assert (Hzero : ∀ r, r ∈ stationsData app0 →
            total_of (store app0) r = Some 0%nat).
  { intros r Hr. rewrite Hsd in Hr.
    destruct (Htot r Hr) as (s & s' & Hs & Hs' & _ & _ & Ht).
    unfold total_of. rewrite Hs'. simpl. rewrite Ht.
    by destruct (Hnone r s Hr Hs) as [-> ->]. }
  assert (Hcc : ∀ r, r ∈ stationsData app0 → carries_counts (store app0) r).
  { intros r Hr. rewrite Hsd in Hr.
    destruct (Htot r Hr) as (s & s' & _ & Hs' & Ht). by eexists s', _, _. }
  assert (Hdom : domain (radiusScale app0) = (Fin 0%Q, Fin 0%Q)).
  { rewrite Hrs. simpl. rewrite d3_max_zeros; [done| |].
    - rewrite Hsd. by destruct listed.
    - apply Forall_fmap, Forall_forall. intros r Hr. simpl. by apply Hzero. }
  exists app0. split_and!; [done|done|done| |].
  - apply radii_middle; [done| |].
    + rewrite Hrs. simpl. by eexists _, _.
    + intros r Hr. rewrite Hzero by done. by eexists.
  - intros values.
    destruct (slide_ok values app0)
      as (app & Hs & Hsd' & Hdom' & Hrng & Htot').
    { done. }
    { by apply one_each_bound. }
    { exact Hcc. }
    exists app. split; [done|]. apply radii_middle.
    + by rewrite Hdom', Hdom.
    + rewrite Hrng. destruct values as [|v rest].
      * rewrite Hrs. simpl. by eexists _, _.
      * unfold last_range. destruct (last (v :: rest)).
        -- apply range_for_finite.
        -- simpl. by eexists _, _.
    + intros r Hr. apply carries_counts_total, Htot'. by rewrite Hsd' in Hr.
Qed.
End DegeneratePage.

(** * Part IV: the scenario of the specification, run in UTC *)

Lemma scenario_trips_valid : Forall valid_trip scenario_trips.
Proof. repeat (constructor; [split; discriminate|]). constructor. Defined.

Lemma scenario_well_formed : well_formed scenario_heap scenario_refs.
Proof. repeat (constructor; [simpl; lia|]). constructor. Defined.

Lemma windowed_query_per_variant_witness :
  length sample_table = 1440%nat
  ∧ 0 ≤ 30 ≤ 1439
  ∧ trip_late ∈ filterByMinute sample_table 30
  ∧ trip_early ∈ filterByMinute sample_table 30
  ∧ (trip_other ∉ filterByMinute sample_table 30)
  ∧ trip_early ∈ @Scan.filterTripsByTime UTC sample_trips 30
  ∧ (trip_late ∉ @Scan.filterTripsByTime UTC sample_trips 30).
Proof.
  assert (Hlen : length sample_table = 1440%nat) by reflexivity.
  assert (Hm : 0 ≤ 30 ≤ 1439) by lia.
  destruct (@windowed_query_per_variant UTC Trip sample_table sample_trips 30
              Hlen Hm) as [(_ & _ & _ & Htable) (_ & _ & _ & Hscan)].
  destruct (Htable eq_refl trip_late) as (Hlate & _ & _).
  destruct (Htable eq_refl trip_early) as (_ & Hearly & _).
  destruct (Htable eq_refl trip_other) as (_ & _ & Hother).
  assert (Hin_late : trip_late ∈ sample_trips) by (by left).
  assert (Hin_early : trip_early ∈ sample_trips) by (right; by left).
  destruct (Hscan eq_refl trip_early Hin_early) as [Hscan_early _].
  destruct (Hscan eq_refl trip_late Hin_late) as [_ Hscan_late].
  split_and!; [exact Hlen|lia|lia| | | | |].
  - apply Hlate. by left.
  - apply Hearly. by left.
  - apply Hother. intros i Hi.
    destruct (decide (i = 200%nat)) as [->|Hne]; [done|exfalso].
    unfold bucket, sample_table in Hi.
    destruct (decide (i = 1430%nat)) as [->|H1].
    { vm_compute in Hi. apply list_elem_of_singleton in Hi. discriminate. }
    destruct (decide (i = 50%nat)) as [->|H2].
    { vm_compute in Hi. apply list_elem_of_singleton in Hi. discriminate. }
    rewrite !list_lookup_insert_ne in Hi by done.
    unfold empty_table in Hi.
    destruct (replicate 1440 [] !! i) as [l|] eqn:Hl;
      [|by apply elem_of_nil in Hi].
    apply lookup_replicate in Hl as [-> _]. by apply elem_of_nil in Hi.
  - apply Hscan_early. reflexivity.
  - apply Hscan_late; [reflexivity|].
    intros i Hi. vm_compute in Hi. injection Hi as <-. lia.
Defined.

(** C1 as worded fails on the variant: at minute 30 the trip that starts
    at 23:50 has its start minute 1430 inside the circular window, and
    the variant, whose range from -30 to 90 does not wrap, does not
    return it. *)
Lemma scan_misses_trip_before_midnight :
  ¬ @scan_returns_window UTC sample_trips 30.
Proof.
  intros Hall. destruct (Hall trip_late) as [_ Hback].
  assert (Hin : trip_late ∈ @Scan.filterTripsByTime UTC sample_trips 30).
  { apply Hback. split; [by left|].
    unfold in_window. apply Exists_exists. exists 1430%nat.
    split; [|reflexivity]. apply (bool_decide_unpack _). vm_compute. exact I. }
  vm_compute in Hin. apply list_elem_of_singleton in Hin. discriminate.
Qed.

Lemma bucketing_is_complete_witness :
  Forall valid_trip scenario_trips
  ∧ ∃ b, @csv_rows UTC empty_buckets scenario_trips = Some b
      ∧ total_length (departuresByMinute b) = 2%nat
      ∧ total_length (arrivalsByMinute b) = 2%nat
      ∧ bucket (departuresByMinute b) 485 = [trip_AB]
      ∧ bucket (arrivalsByMinute b) 505 = [trip_BA].
Proof.
  split; [exact scenario_trips_valid|].
  destruct (@bucketing_is_complete UTC scenario_trips scenario_trips_valid)
    as (b & Hrun & _ & _ & Hd & Ha & Hdep & Harr & _).
  exists b. rewrite Hd, Ha, Hdep, Harr. by split_and!.
Defined.

Lemma unfiltered_query_returns_all_trips_witness :
  Forall valid_trip scenario_trips
  ∧ ∃ b, @csv_rows UTC empty_buckets scenario_trips = Some b
      ∧ filterByMinute (departuresByMinute b) (-1) ≡ₚ scenario_trips
      ∧ filterByMinute (arrivalsByMinute b) (-1) ≡ₚ scenario_trips.
Proof.
  split; [exact scenario_trips_valid|].
  destruct (@unfiltered_query_returns_all_trips UTC scenario_trips)
    as (_ & _ & _ & Hall).
  exact (Hall scenario_trips_valid).
Defined.

Lemma aggregation_counts_matching_trips_witness :
  well_formed scenario_heap scenario_refs
  ∧ ∃ h', computeStationTraffic scenario_buckets scenario_heap
                                scenario_refs (-1)
          = Some (h', scenario_refs)
      ∧ counted scenario_heap h' 0 0
          (filterByMinute (departuresByMinute scenario_buckets) (-1))
          (filterByMinute (arrivalsByMinute scenario_buckets) (-1)).
Proof.
  split; [exact scenario_well_formed|].
  destruct (@aggregation_counts_matching_trips UTC scenario_buckets
              scenario_trips scenario_heap scenario_refs (-1)
              scenario_well_formed) as [(h' & Hrun & Hc) _].
  exists h'. split; [exact Hrun|]. apply Hc. by left.
Defined.

Lemma aggregation_copies_or_updates_in_place_witness :
  well_formed scenario_heap scenario_refs
  ∧ (∃ h' out, @Scan.computeStationTraffic UTC scenario_trips scenario_heap
                 scenario_refs 600 = Some (h', out)
       ∧ leaves_input_untouched scenario_heap h' scenario_refs out)
  ∧ (∃ h', computeStationTraffic scenario_buckets scenario_heap
             scenario_refs 600 = Some (h', scenario_refs)
       ∧ length h' = length scenario_heap).
Proof.
  split; [exact scenario_well_formed|].
  destruct (@aggregation_copies_or_updates_in_place UTC scenario_buckets
              scenario_trips scenario_heap scenario_refs 600
              scenario_well_formed)
    as [(h2 & out & Hrun2 & Hun & _) (h1 & Hrun1 & Hlen & _)].
  split; [by exists h2, out|by exists h1].
Defined.

(** C7 as worded fails on map.js: the record of station A, counted
    before, is overwritten when the filter moves to 10:00. *)
Lemma inplace_update_changes_input :
  ∃ h', computeStationTraffic empty_buckets [counted_station_A] [0%nat] 600
        = Some (h', [0%nat])
    ∧ ¬ leaves_input_untouched [counted_station_A] h' [0%nat] [0%nat].
Proof.
  eexists. split; [vm_compute; reflexivity|].
  intros [Hsame _]. specialize (Hsame 0%nat ltac:(by left)).
  vm_compute in Hsame. discriminate.
Qed.

Lemma scenario_selections_coincide :
  @selections_coincide UTC scenario_trips 485.
Proof.
  intros t Ht. unfold scenario_trips in Ht.
  rewrite !elem_of_cons, elem_of_nil in Ht.
  destruct Ht as [->|[->|[]]];
    (split; split; intros _;
     apply (bool_decide_unpack _); vm_compute; exact I).
Defined.

Lemma variants_agree_on_equal_selections_witness :
  Forall valid_trip scenario_trips
  ∧ well_formed scenario_heap scenario_refs
  ∧ (0 ≤ 485 ≤ 1439 ∧ @selections_coincide UTC scenario_trips 485)
  ∧ @variants_agree UTC scenario_heap scenario_refs scenario_trips 485.
Proof.
  assert (Hf : 0 ≤ 485 ≤ 1439) by lia.
  split_and!;
    [exact scenario_trips_valid|exact scenario_well_formed|lia|lia
    |exact scenario_selections_coincide|].
  apply (@variants_agree_on_equal_selections UTC scenario_trips scenario_heap
           scenario_refs 485 scenario_trips_valid scenario_well_formed).
  right. split; [exact Hf|exact scenario_selections_coincide].
Defined.

(** C10 as worded fails: a trip leaving at 11:00 is outside the window of
    10:00 in map.js and inside the range of the variant. *)
Lemma variants_differ_at_window_edge :
  ¬ @variants_agree UTC scenario_heap scenario_refs [trip_edge] 600.
Proof.
  intros (b & h1 & out1 & h2 & out2 & Hb & H1 & H2 & Hv).
  vm_compute in Hb. injection Hb as <-.
  vm_compute in H1. injection H1 as <- <-.
  vm_compute in H2. injection H2 as <- <-.
  vm_compute in Hv. discriminate.
Qed.

Lemma flow_level_is_quantized_fraction_witness :
  has_traffic counted_station_A 1 1
  ∧ ∃ q level,
      departure_ratio counted_station_A = Fin q
      ∧ stationFlow (departure_ratio counted_station_A) = Some level
      ∧ level ∈ [0%Q; (1 # 2)%Q; 1%Q]
      ∧ Forall valid_trip scenario_trips
      ∧ well_formed scenario_heap scenario_refs
      ∧ ∃ app0, scenario_page = Some app0 ∧ flows_are_levels app0.
Proof.
  assert (Ht : has_traffic counted_station_A 1 1) by by split_and!.
  split; [exact Ht|].
  destruct (@flow_level_is_quantized_fraction UTC rational_sqrt)
    as [Hstation Hpage].
  destruct (Hstation counted_station_A 1%nat 1%nat Ht)
    as (q & level & Hq & Hl & _ & _ & _ & _ & _ & _ & Hin).
  destruct (Hpage scenario_heap scenario_refs scenario_trips
              scenario_trips_valid scenario_well_formed)
    as (app0 & Hrun & Hflows & _).
  exists q, level.
  split_and!;
    [exact Hq|exact Hl|exact Hin|exact scenario_trips_valid
    |exact scenario_well_formed|by exists app0].
Defined.

Lemma radius_domain_is_fixed_at_load_witness :
  Forall valid_trip scenario_trips
  ∧ well_formed scenario_heap scenario_refs
  ∧ ∃ app0, scenario_page = Some app0
      ∧ ∀ values, ∃ app,
          @slide rational_sqrt app0 values = Some app
          ∧ domain (radiusScale app) = domain (radiusScale app0)
          ∧ range (radiusScale app) = last_range values.
Proof.
  split_and!; [exact scenario_trips_valid|exact scenario_well_formed|].
  destruct (@radius_domain_is_fixed_at_load UTC rational_sqrt scenario_heap
              scenario_refs scenario_trips scenario_trips_valid
              scenario_well_formed)
    as [(app0 & Hrun & _ & Hslide) _].
  by exists app0.
Defined.

(** C5 as worded fails: after the slider moves to 10:00 no station has
    traffic, and the domain still ends at the 2 of the unfiltered count. *)
Lemma domain_is_stale_after_filter :
  ∃ app1, scenario_page_at_ten = Some app1 ∧ ¬ domain_tracks_filter app1.
Proof.
  eexists. split; [vm_compute; reflexivity|].
  unfold domain_tracks_filter. vm_compute. discriminate.
Qed.

Lemma degenerate_domain_gives_range_middle_witness :
  Forall valid_trip []
  ∧ well_formed scenario_heap scenario_refs
  ∧ scenario_refs ≠ []
  ∧ ∃ app0, idle_page = Some app0
      ∧ domain (radiusScale app0) = (Fin 0%Q, Fin 0%Q)
      ∧ @radii_at_range_middle rational_sqrt app0.
Proof.
  assert (Hv : Forall valid_trip []) by constructor.
  assert (Hne : scenario_refs ≠ []) by discriminate.
  split_and!; [exact Hv|exact scenario_well_formed|exact Hne|].
  destruct (@degenerate_domain_gives_range_middle UTC rational_sqrt
              scenario_heap scenario_refs [] Hv scenario_well_formed Hne)
    as (app0 & Hrun & _ & Hdom & Hmid & _).
  { intros r s _ _. by split. }
  by exists app0.
Defined.

(** C9 as worded fails: with no trips, every radius is 12.5, the middle
    of the range from 0 to 25, not its lower end. *)
Lemma degenerate_radius_is_not_minimum :
  ∃ app0, idle_page = Some app0
    ∧ (∀ r, r ∈ stationsData app0 → total_of (store app0) r = Some 0%nat)
    ∧ ¬ @radii_at_range_minimum rational_sqrt app0.
Proof.
  eexists. split; [vm_compute; reflexivity|]. split.
  - intros r Hr. simpl in Hr.
    rewrite !elem_of_cons, elem_of_nil in Hr.
    by destruct Hr as [->|[->|[]]].
  - unfold radii_at_range_minimum. intros Hall.
    apply Forall_inv in Hall. vm_compute in Hall. discriminate.
Qed.

(** * Part V: further properties of the code *)

(** ** Clock time and loading *)

Section ClockProperties.
Context `{TimeZone} `{Sqrt}.

(** X1. The minute of the day of a parsed timestamp is the number of whole
    local minutes since the epoch, taken modulo 1440: it lies between 0
    and 1439 for every time value, before the epoch too, and in every
    time zone. *)
Theorem minute_of_day_is_local_minute_mod_1440 (t : Z) :
  minutesSinceMidnight (TimeValue t)
  = Some ((LocalTime t / msPerMinute) mod 1440)
  ∧ 0 ≤ (LocalTime t / msPerMinute) mod 1440 < 1440.
Proof.
  split; [|apply Z.mod_pos_bound; lia].
  unfold minutesSinceMidnight, getHours, getMinutes. simpl. f_equal.
  unfold msPerHour, msPerMinute. generalize (LocalTime t). intros x. euclid.
Qed.

(** X2. One row with an unparsed timestamp makes the load handler of
    map.js give up: no page is set up.  The variant, which does not
    bucket at load, sets its page up on the same input. *)
Theorem unparsed_timestamp_aborts_load (h : heap) (listed : list ref)
    (trips : list Trip) :
  Exists (λ t, ¬ valid_trip t) trips → well_formed h listed →
  on_load h listed trips = None
  ∧ ∃ app0, ScanPage.on_load h listed trips = Some app0
      ∧ ScanPage.trips app0 = trips.
Proof.
  intros Hbad Hwf. split.
  - unfold on_load. by rewrite (csv_rows_invalid trips empty_buckets Hbad).
  - unfold ScanPage.on_load, Scan.computeStationTraffic.
    set (active := Scan.filterTripsByTime trips (-1)).
    destruct (map_refs_copy (rollup active length start_station_id)
                (rollup active length end_station_id) h listed Hwf)
      as (new & Hrun & _).
    rewrite Hrun. simpl. by eexists.
Qed.
End ClockProperties.

Lemma unparsed_timestamp_aborts_load_witness :
  Exists (λ t, ¬ valid_trip t) [trip_AB; trip_unparsed]
  ∧ well_formed scenario_heap scenario_refs
  ∧ @on_load UTC rational_sqrt scenario_heap scenario_refs
       [trip_AB; trip_unparsed] = None.
Proof.
  assert (Hbad : Exists (λ t, ¬ valid_trip t) [trip_AB; trip_unparsed]).
  { apply Exists_cons_tl, Exists_cons_hd. intros [Hs _]. by apply Hs. }
  split_and!; [exact Hbad|exact scenario_well_formed|].
  exact (proj1 (@unparsed_timestamp_aborts_load UTC rational_sqrt
                  scenario_heap scenario_refs _ Hbad scenario_well_formed)).
Defined.

(** ** The windowed query outside the minutes of one day *)

(** X3. From minute -60 on, the sentinel apart, the windowed query depends
    on the minute modulo 1440 only: a slider value of 1440 selects what
    0 selects. *)
Theorem query_repeats_every_1440_minutes {A} (tbl : list (list A)) (m : Z) :
  -60 ≤ m → m ≠ -1 →
  filterByMinute tbl (m + 1440) = filterByMinute tbl m.
Proof.
  intros Hm Hne. unfold filterByMinute.
  destruct (Z.eqb_spec (m + 1440) (-1)); [lia|].
  destruct (Z.eqb_spec m (-1)); [done|].
  assert (Hlo : Z.rem (m + 1440 - 60 + 1440) 1440
                = Z.rem (m - 60 + 1440) 1440)
    by (rewrite !Z.rem_mod_nonneg by lia; euclid).
  assert (Hhi : Z.rem (m + 1440 + 60) 1440 = Z.rem (m + 60) 1440)
    by (rewrite !Z.rem_mod_nonneg by lia; euclid).
  by rewrite Hlo, Hhi.
Qed.

Lemma query_repeats_every_1440_minutes_witness :
  -60 ≤ 0 ∧ 0 ≠ -1
  ∧ filterByMinute sample_table (0 + 1440) = filterByMinute sample_table 0.
Proof.
  split_and!; [lia|lia|].
  apply (query_repeats_every_1440_minutes sample_table 0); lia.
Defined.

Lemma concat_submseteq {A} (l1 l2 : list (list A)) :
  l1 ⊆+ l2 → concat l1 ⊆+ concat l2.
Proof.
  induction 1 as [|x l1 l2 _ IH|x y l|x l1 l2 _ IH|l1 l2 l3 _ IH1 _ IH2].
  - done.
  - simpl. by apply submseteq_app.
  - simpl. rewrite !app_assoc. apply submseteq_app; [|done].
    apply Permutation_submseteq, Permutation_app_comm.
  - simpl. by apply submseteq_inserts_l.
  - by etrans.
Qed.

Lemma filter_length_submseteq {A} (P : A → Prop) `{!∀ x, Decision (P x)}
    (l1 l2 : list A) :
  l1 ⊆+ l2 → (length (filter P l1) ≤ length (filter P l2))%nat.
Proof.
  intros (k & Hk)%submseteq_Permutation.
  rewrite Hk, filter_app, length_app. lia.
Qed.

(** The two slices of the wrapping branch never overlap when both bounds
    are non-negative and the first is the larger. *)
Lemma wrapped_slices_submseteq {A} (l : list A) (lo hi : Z) :
  0 ≤ hi → hi < lo →
  slice l lo None ++ slice l 0 (Some hi) ⊆+ l.
Proof.
  intros Hhi Hlt. unfold slice, rel_index.
  destruct (Z.ltb_spec lo 0); [lia|].
  destruct (Z.ltb_spec hi 0); [lia|].
  destruct (Z.ltb_spec 0 0); [lia|].
  set (ka := Z.to_nat (Z.min lo (Z.of_nat (length l)))).
  set (kb := Z.to_nat (Z.min hi (Z.of_nat (length l)))).
  assert (Hk : (kb ≤ ka)%nat) by lia.
  replace (Z.to_nat (Z.min 0 (Z.of_nat (length l)))) with 0%nat by lia.
  replace (Z.to_nat (Z.min hi (Z.of_nat (length l))
                     - Z.min 0 (Z.of_nat (length l)))) with kb by lia.
  rewrite drop_0, (take_ge (drop ka l)) by (rewrite length_drop; lia).
  rewrite (Permutation_app_comm (drop ka l)).
  rewrite <- (take_drop kb l) at 3.
  apply submseteq_app; [done|].
  replace ka with (kb + (ka - kb))%nat by lia.
  rewrite <- drop_drop. apply sublist_submseteq, sublist_drop.
Qed.

Lemma slice_sublist {A} (l : list A) (start : Z) (end_ : option Z) :
  slice l start end_ `sublist_of` l.
Proof.
  unfold slice. etrans; [apply sublist_take|apply sublist_drop].
Qed.

(** The buckets that a query walks are buckets of the table, none taken
    twice, as long as the two bounds are not negative. *)
Lemma filterByMinute_submseteq {A} (tbl : list (list A)) (m : Z) :
  -60 ≤ m → filterByMinute tbl m ⊆+ filterByMinute tbl (-1).
Proof.
  intros Hm. change (filterByMinute tbl (-1)) with (concat tbl).
  unfold filterByMinute. destruct (Z.eqb_spec m (-1)); [done|].
  rewrite !Z.rem_mod_nonneg by lia.
  pose proof (Z.mod_pos_bound (m - 60 + 1440) 1440 ltac:(lia)).
  pose proof (Z.mod_pos_bound (m + 60) 1440 ltac:(lia)).
  destruct (Z.gtb_spec ((m - 60 + 1440) mod 1440) ((m + 60) mod 1440));
    unfold flat; apply concat_submseteq.
  - apply wrapped_slices_submseteq; lia.
  - apply sublist_submseteq, slice_sublist.
Qed.

Lemma rollup_count_submseteq {V} (key : V → string) (part whole : list V)
    (id : string) :
  part ⊆+ whole →
  (default 0%nat (rollup part length key !! id)
   ≤ default 0%nat (rollup whole length key !! id))%nat.
Proof. intros Hsub. rewrite !rollup_count. by apply filter_length_submseteq. Qed.

(** X4. From minute -60 on, whatever the table, the windowed query
    returns part of what the unfiltered query returns, no trip more often
    than there; so no count taken over a window exceeds the same count
    taken over all trips. *)
Theorem windowed_query_is_part_of_unfiltered {A} (tbl : list (list A))
    (m : Z) :
  -60 ≤ m →
  filterByMinute tbl m ⊆+ filterByMinute tbl (-1)
  ∧ ∀ (P : A → Prop) (dec : ∀ x, Decision (P x)),
      (length (filter P (filterByMinute tbl m))
       ≤ length (filter P (filterByMinute tbl (-1))))%nat.
Proof.
  intros Hm. pose proof (filterByMinute_submseteq tbl m Hm) as Hsub.
  split; [done|]. intros P dec. by apply filter_length_submseteq.
Qed.

Lemma windowed_query_is_part_of_unfiltered_witness :
  -60 ≤ 30
  ∧ filterByMinute sample_table 30 ⊆+ filterByMinute sample_table (-1).
Proof.
  split; [lia|].
  apply (windowed_query_is_part_of_unfiltered sample_table 30). lia.
Defined.

(** ** d3-array *)

Lemma groups_nonempty {V} (key : V → string) (values : list V)
    (g : gmap string (list V)) :
  (∀ k grp, g !! k = Some grp → grp ≠ []) →
  ∀ k grp,
    foldl (λ groups v, group_push groups (key v) v) g values !! k = Some grp →
    grp ≠ [].
Proof.
  revert g. induction values as [|v values IH]; intros g Hg; [done|].
  simpl. apply IH. intros k grp. unfold group_push.
  destruct (g !! key v) as [group|] eqn:Hgv.
  - destruct (decide (key v = k)) as [<-|Hne].
    + rewrite lookup_insert_eq. intros [= <-]. by destruct group.
    + rewrite lookup_insert_ne by done. apply Hg.
  - destruct (decide (key v = k)) as [<-|Hne].
    + rewrite lookup_insert_eq. by intros [= <-].
    + rewrite lookup_insert_ne by done. apply Hg.
Qed.

(** X5. The map that [rollup] builds for counting holds a key exactly if
    some value has that key, and then holds the number of such values,
    which is at least 1: a station without trips is absent from the map,
    not present with 0. *)
Theorem rollup_holds_the_keys_seen {V} (key : V → string) (values : list V)
    (id : string) :
  (rollup values length key !! id = None
   ↔ ∀ v, v ∈ values → key v ≠ id)
  ∧ (∀ n, rollup values length key !! id = Some n →
       (0 < n)%nat ∧ n = length (filter (λ v, key v = id) values)).
Proof.
  pose proof (groups_lookup key values ∅ id) as Hg.
  rewrite lookup_empty in Hg. simpl in Hg.
  pose proof (groups_nonempty key values ∅
                ltac:(intros k grp; by rewrite lookup_empty)) as Hne.
  unfold rollup. rewrite lookup_fmap.
  destruct (foldl _ _ _ !! id) as [grp|] eqn:Hl; simpl in *.
  - split.
    + split; [done|]. intros Hnone. exfalso. apply (Hne id grp Hl).
      rewrite Hg. clear -Hnone.
      induction values as [|v values IH]; [done|].
      rewrite filter_cons, decide_False by (apply Hnone; by left).
      apply IH. intros w Hw. apply Hnone. by right.
    + intros n [= <-]. split; [|by rewrite Hg].
      specialize (Hne id grp Hl). destruct grp; [done|simpl; lia].
  - split; [|done]. split; [|done]. intros _ v Hv Hkey.
    assert (Hin : v ∈ filter (λ v, key v = id) values)
      by by apply list_elem_of_filter.
    rewrite <- Hg in Hin. by apply elem_of_nil in Hin.
Qed.

Lemma d3_max_from (acc : option nat) (values : list (option nat)) :
  let result :=
    foldl (λ max value,
             match value, max with
             | None, _ => max
             | Some v, None => Some v
             | Some v, Some m => if (m <? v)%nat then Some v else max
             end) acc values in
  (result = None ↔ acc = None ∧ Forall (λ v, v = None) values)
  ∧ (∀ m, result = Some m →
       (acc = Some m ∨ Some m ∈ values)
       ∧ ∀ v, acc = Some v ∨ Some v ∈ values → (v ≤ m)%nat).
Proof.
  revert acc. induction values as [|value values IH]; intros acc; simpl.
  - split; [split; [done|by intros [-> _]]|].
    intros m ->. split; [by left|].
    intros v [[= ->]|Hv]; [done|by apply elem_of_nil in Hv].
  - destruct (IH (match value, acc with
                  | None, _ => acc
                  | Some v, None => Some v
                  | Some v, Some m => if (m <? v)%nat then Some v else acc
                  end)) as [Hnone Hsome].
    split.
    + rewrite Hnone, Forall_cons.
      destruct value as [v|], acc as [a|]; try destruct (a <? v)%nat;
        intuition congruence.
    + intros m Hm. destruct (Hsome m Hm) as [Hin Hle]. clear Hnone Hsome.
      destruct value as [v|], acc as [a|].
      * destruct (Nat.ltb_spec a v).
        -- split; [destruct Hin as [[= ->]|?]; right; by constructor|].
           intros w [[= ->]|[[= ->]|?]%elem_of_cons].
           ++ etrans; [|apply (Hle v); by left]. lia.
           ++ apply Hle. by left.
           ++ apply Hle. by right.
        -- split; [destruct Hin as [?|?]; [by left|right; by constructor]|].
           intros w [[= ->]|[[= ->]|?]%elem_of_cons].
           ++ apply Hle. by left.
           ++ etrans; [|apply (Hle a); by left]. lia.
           ++ apply Hle. by right.
      * split; [destruct Hin as [[= ->]|?]; right; by constructor|].
        intros w [?|[[= ->]|?]%elem_of_cons]; [done| |].
        -- apply Hle. by left.
        -- apply Hle. by right.
      * split; [destruct Hin as [?|?]; [by left|right; by constructor]|].
        intros w [?|[?|?]%elem_of_cons]; [|done|].
        -- apply Hle. by left.
        -- apply Hle. by right.
      * split; [destruct Hin as [?|?]; [done|right; by constructor]|].
        intros w [?|[?|?]%elem_of_cons]; [done|done|].
        apply Hle. by right.
Qed.

(** X6. [d3.max] over field values returns nothing exactly if no value is
    present (an empty list included); otherwise it returns one of the
    values present, and none of them is larger. *)
Theorem d3_max_is_the_largest_present (values : list (option nat)) :
  (d3_max values = None ↔ Forall (λ v, v = None) values)
  ∧ (∀ m, d3_max values = Some m →
       Some m ∈ values ∧ ∀ v, Some v ∈ values → (v ≤ m)%nat).
Proof.
  destruct (d3_max_from None values) as [Hnone Hsome].
  fold (d3_max values) in Hnone, Hsome. split.
  - rewrite Hnone. intuition.
  - intros m Hm. destruct (Hsome m Hm) as [[?|Hin] Hle]; [done|].
    split; [done|]. intros v Hv. apply Hle. by right.
Qed.

(** ** The two scales *)

Lemma Qltb_true (a b : Q) : Qltb a b = true ↔ (a < b)%Q.
Proof. unfold Qltb. rewrite negb_true_iff. apply Qle_bool_false. Qed.

Lemma Qltb_false (a b : Q) : Qltb a b = false ↔ (b <= a)%Q.
Proof. unfold Qltb. rewrite negb_false_iff. apply Qle_bool_iff. Qed.

Lemma Qeq_bool_false (a b : Q) : ¬ (a == b)%Q → Qeq_bool a b = false.
Proof.
  intros Hne. destruct (Qeq_bool a b) eqn:He; [|done].
  by apply Qeq_bool_iff in He.
Qed.

Lemma count_nonneg (n : nat) : (0 <= inject_Z (Z.of_nat n))%Q.
Proof. change 0%Q with (inject_Z 0). rewrite <- Zle_Qle. lia. Qed.

Lemma count_pos (n : nat) : (0 < n)%nat → (0 < inject_Z (Z.of_nat n))%Q.
Proof. intros Hn. change 0%Q with (inject_Z 0). rewrite <- Zlt_Qlt. lia. Qed.

Lemma stationFlow_level (q : Q) :
  ∃ level, stationFlow (Fin q) = Some level
    ∧ level ∈ [0%Q; (1 # 2)%Q; 1%Q].
Proof.
  eexists. split; [apply stationFlow_Fin|].
  destruct (Qle_bool (2 # 3) q), (Qle_bool (1 # 3) q);
    rewrite !elem_of_cons; tauto.
Qed.

(** X7. The flow scale answers every number: it is monotone on the finite
    ones, maps what lies below its domain (minus infinity included) to the
    first level and what lies above it (plus infinity included) to the
    last, and gives its unknown value for NaN alone. *)
Theorem flow_scale_is_monotone_and_clamps :
  (∀ x, stationFlow x = None ↔ x = NaN)
  ∧ stationFlow PosInf = Some 1%Q
  ∧ stationFlow NegInf = Some 0%Q
  ∧ (∀ q, (q < 0)%Q → stationFlow (Fin q) = Some 0%Q)
  ∧ (∀ q, (1 < q)%Q → stationFlow (Fin q) = Some 1%Q)
  ∧ ∀ p q, (p <= q)%Q →
      ∃ lp lq, stationFlow (Fin p) = Some lp
        ∧ stationFlow (Fin q) = Some lq ∧ (lp <= lq)%Q.
Proof.
  split_and!.
  - intros [q| | |]; try (split; [by vm_compute|done]).
    rewrite stationFlow_Fin. split; intros; discriminate.
  - reflexivity.
  - reflexivity.
  - intros q Hq. rewrite stationFlow_Fin.
    assert (H2 : Qle_bool (2 # 3) q = false) by (apply Qle_bool_false; lra).
    assert (H1 : Qle_bool (1 # 3) q = false) by (apply Qle_bool_false; lra).
    by rewrite H2, H1.
  - intros q Hq. rewrite stationFlow_Fin.
    assert (H2 : Qle_bool (2 # 3) q = true) by (apply Qle_bool_iff; lra).
    by rewrite H2.
  - intros p q Hpq. eexists _, _.
    split; [apply stationFlow_Fin|]. split; [apply stationFlow_Fin|].
    destruct (Qle_bool (2 # 3) q) eqn:Hq2.
    + destruct (Qle_bool (2 # 3) p), (Qle_bool (1 # 3) p); lra.
    + apply Qle_bool_false in Hq2.
      assert (Hp2 : Qle_bool (2 # 3) p = false)
        by (apply Qle_bool_false; lra).
      rewrite Hp2. destruct (Qle_bool (1 # 3) q) eqn:Hq1.
      * destruct (Qle_bool (1 # 3) p); lra.
      * apply Qle_bool_false in Hq1.
        assert (Hp1 : Qle_bool (1 # 3) p = false)
          by (apply Qle_bool_false; lra).
        rewrite Hp1. lra.
Qed.

(** X8. The flow style of any station object, whatever its fields hold:
    it is one of the three levels, or undefined; it is undefined exactly
    if totalTraffic is positive and departures is absent; and it is the
    first level when totalTraffic is absent or 0, the guard of the call
    sending both to the argument 0. *)
Theorem flow_style_of_any_record (d : Station) :
  (stationFlow (departure_ratio d) = None
   ↔ (∃ n, totalTraffic d = Some n ∧ (0 < n)%nat) ∧ departures d = None)
  ∧ (∀ level, stationFlow (departure_ratio d) = Some level →
       level ∈ [0%Q; (1 # 2)%Q; 1%Q])
  ∧ (totalTraffic d = None ∨ totalTraffic d = Some 0%nat →
     departure_ratio d = Fin 0%Q
     ∧ stationFlow (departure_ratio d) = Some 0%Q).
Proof.
  unfold departure_ratio.
  destruct (totalTraffic d) as [n|]; simpl.
  - destruct (decide (n = 0)%nat) as [->|Hn].
    + simpl. split_and!.
      * split; [by vm_compute|]. intros [(n & [= <-] & ?) _]. lia.
      * intros level [= <-]. rewrite !elem_of_cons. tauto.
      * done.
    + assert (Hpos : (0 < inject_Z (Z.of_nat n))%Q) by (apply count_pos; lia).
      assert (Hlt : Qltb 0 (inject_Z (Z.of_nat n)) = true)
        by by apply Qltb_true.
      assert (Hne : Qeq_bool (inject_Z (Z.of_nat n)) 0 = false)
        by (apply Qeq_bool_false; lra).
      rewrite Hlt. destruct (departures d) as [dep|]; simpl.
      * rewrite Hne.
        destruct (stationFlow_level
                    (inject_Z (Z.of_nat dep) / inject_Z (Z.of_nat n)))
          as (level & -> & Hlevel).
        split_and!.
        -- split; [done|]. by intros [_ ?].
        -- by intros ? [= <-].
        -- intros [?|[= ?]]; [done|lia].
      * split_and!.
        -- split; [|done]. intros _. split; [|done]. exists n. split; [done|lia].
        -- by intros level.
        -- intros [?|[= ?]]; [done|lia].
  - split_and!.
    + split; [by vm_compute|]. by intros [(n & ? & _) _].
    + intros level [= <-]. rewrite !elem_of_cons. tauto.
    + done.
Qed.

Section RadiusScale.
Context `{Sqrt}.

Lemma transformSqrt_count (k : nat) :
  transformSqrt (of_count k) = Fin (Math_sqrt (inject_Z (Z.of_nat k))).
Proof.
  unfold transformSqrt, of_count. simpl.
  assert (Hk : Qltb (inject_Z (Z.of_nat k)) 0 = false)
    by (apply Qltb_false, count_nonneg).
  by rewrite Hk.
Qed.

(** The square-root scale by formula, on a domain from 0 to a count
    whose root is positive. *)
Lemma scale_sqrt_formula (s : Scale) (M n : nat) (r0 r1 : Q) :
  domain s = (Fin 0%Q, of_count M) → range s = (Fin r0, Fin r1) →
  (Math_sqrt 0 == 0)%Q →
  (0 < Math_sqrt (inject_Z (Z.of_nat M)))%Q →
  ∃ v, scale_sqrt s (Some n) = Some (Fin v)
    ∧ (v == r0 + (r1 - r0) * (Math_sqrt (inject_Z (Z.of_nat n))
                              / Math_sqrt (inject_Z (Z.of_nat M))))%Q.
Proof.
  intros Hd Hr Hs0 HsM.
  set (s0 := Math_sqrt 0%Q) in *.
  set (sM := Math_sqrt (inject_Z (Z.of_nat M))) in *.
  set (sn := Math_sqrt (inject_Z (Z.of_nat n))).
  exists (r0 * (1 + - ((sn + - s0) / (sM + - s0)))
          + r1 * ((sn + - s0) / (sM + - s0)))%Q.
  split.
  - unfold scale_sqrt. rewrite Hd, Hr. f_equal.
    change ((Fin 0%Q, of_count M).1) with (of_count 0).
    change ((Fin 0%Q, of_count M).2) with (of_count M).
    rewrite !transformSqrt_count.
    change (Math_sqrt (inject_Z (Z.of_nat 0))) with s0.
    fold sM sn. unfold bimap.
    assert (Hlt : num_ltb (Fin sM) (Fin s0) = false)
      by (apply Qltb_false; lra).
    rewrite Hlt. unfold normalize.
    assert (Htr : truthy (num_sub (Fin sM) (Fin s0)) = true).
    { simpl. apply negb_true_iff, Qeq_bool_false. lra. }
    rewrite Htr. unfold interpolateNumber. simpl.
    assert (Hne : Qeq_bool (sM + - s0) 0 = false)
      by (apply Qeq_bool_false; lra).
    by rewrite Hne.
  - rewrite Hs0. field. lra.
Qed.

(** Within the range: on any domain from 0 to a count, a count up to
    that count is sent into the range. *)
Lemma scale_sqrt_within (s : Scale) (M n : nat) (r0 r1 : Q) :
  sqrt_fits_counts →
  domain s = (Fin 0%Q, of_count M) → range s = (Fin r0, Fin r1) →
  (n ≤ M)%nat → (r0 <= r1)%Q →
  ∃ v, scale_sqrt s (Some n) = Some (Fin v) ∧ (r0 <= v <= r1)%Q.
Proof.
  intros (Hs0 & Hpos & Hmono) Hd Hr Hle Hrr.
  destruct (decide (M = 0)%nat) as [->|HM].
  - rewrite (scale_sqrt_degenerate s r0 r1 n Hd Hr).
    eexists. split; [done|]. lra.
  - destruct (scale_sqrt_formula s M n r0 r1 Hd Hr Hs0)
      as (v & Hv & Hformula); [apply Hpos; lia|].
    exists v. split; [done|]. rewrite Hformula.
    pose proof (Hpos M ltac:(lia)) as HsM.
    pose proof (Hmono 0%nat n ltac:(lia)) as Hn0.
    change (Math_sqrt (inject_Z (Z.of_nat 0))) with (Math_sqrt 0) in Hn0.
    pose proof (Hmono n M Hle) as HnM.
    set (sM := Math_sqrt (inject_Z (Z.of_nat M))) in *.
    set (sn := Math_sqrt (inject_Z (Z.of_nat n))) in *.
    assert (Hq : (0 <= sn / sM <= 1)%Q).
    { split.
      - apply Qle_shift_div_l; [done|]. lra.
      - apply Qle_shift_div_r; [done|]. lra. }
    nra.
Qed.

(** X9. On a domain from 0 to a positive maximum the radius scale is the
    square-root scale by formula, provided the host's square root sends 0
    to 0 and the maximum to something positive: a count [n] gets
    [r0 + (r1 - r0) * sqrt n / sqrt M]; so 0 gets the lower end of the
    range and the maximum the upper end, and with a monotone square root
    every count up to the maximum stays within the range. *)
Theorem radius_scale_spans_the_range (M n : nat) (r0 r1 : Q) :
  (Math_sqrt 0 == 0)%Q →
  (0 < Math_sqrt (inject_Z (Z.of_nat M)))%Q →
  ∃ v,
    scale_sqrt {| domain := (Fin 0%Q, of_count M);
                  range := (Fin r0, Fin r1) |} (Some n)
    = Some (Fin v)
    ∧ (v == r0 + (r1 - r0) * (Math_sqrt (inject_Z (Z.of_nat n))
                              / Math_sqrt (inject_Z (Z.of_nat M))))%Q
    ∧ (n = 0%nat → (v == r0)%Q)
    ∧ (n = M → (v == r1)%Q)
    ∧ ((∀ a b, (0 <= a)%Q → (a <= b)%Q → (Math_sqrt a <= Math_sqrt b)%Q) →
       (n ≤ M)%nat → (r0 <= r1)%Q → (r0 <= v <= r1)%Q).
Proof.
  intros Hs0 HsM.
  destruct (scale_sqrt_formula
              {| domain := (Fin 0%Q, of_count M); range := (Fin r0, Fin r1) |}
              M n r0 r1 eq_refl eq_refl Hs0 HsM) as (v & Hv & Hformula).
  set (s0 := Math_sqrt 0%Q) in *.
  set (sM := Math_sqrt (inject_Z (Z.of_nat M))) in *.
  set (sn := Math_sqrt (inject_Z (Z.of_nat n))) in *.
  exists v. split_and!.
  - exact Hv.
  - exact Hformula.
  - intros ->. rewrite Hformula. change sn with s0. rewrite Hs0.
    field. lra.
  - intros ->. rewrite Hformula. change sn with sM. field. lra.
  - intros Hmono Hle Hr. rewrite Hformula.
    assert (Hn0 : (0 <= sn)%Q).
    { rewrite <- Hs0. apply Hmono; [lra|apply count_nonneg]. }
    assert (HnM : (sn <= sM)%Q).
    { apply Hmono; [apply count_nonneg|]. rewrite <- Zle_Qle. lia. }
    assert (Hq : (0 <= sn / sM <= 1)%Q).
    { split.
      - apply Qle_shift_div_l; [done|]. lra.
      - apply Qle_shift_div_r; [done|]. lra. }
    nra.
Qed.
End RadiusScale.

Lemma radius_scale_spans_the_range_witness :
  (@Math_sqrt rational_sqrt 0 == 0)%Q
  ∧ (0 < @Math_sqrt rational_sqrt (inject_Z (Z.of_nat 4)))%Q
  ∧ ∃ v,
      @scale_sqrt rational_sqrt
        {| domain := (Fin 0%Q, of_count 4); range := (Fin 3%Q, Fin 50%Q) |}
        (Some 1%nat)
      = Some (Fin v)
      ∧ (v == 53 # 2)%Q.
Proof.
  assert (H0 : (@Math_sqrt rational_sqrt 0 == 0)%Q) by by vm_compute.
  assert (H4 : (0 < @Math_sqrt rational_sqrt (inject_Z (Z.of_nat 4)))%Q)
    by by vm_compute.
  split; [exact H0|]. split; [exact H4|].
  destruct (@radius_scale_spans_the_range rational_sqrt 4 1 3 50 H0 H4)
    as (v & Hv & Hf & _).
  exists v. split; [exact Hv|]. rewrite Hf. by vm_compute.
Defined.

(** ** The linear-scan filter *)

Section ScanFilter.
Context `{TimeZone}.

(** X10. The filter of the variant keeps the order of the trips and tests
    each one on its own: the result is a subsequence of the input,
    filtering twice with one value changes nothing, a minute value keeps
    exactly the trips whose start or end minute lies in the closed range
    (no wrap around midnight), and a trip neither of whose timestamps was
    parsed is dropped by every minute value. *)
Theorem scan_filter_is_an_order_preserving_test (trips : list Trip) (f : Z) :
  Scan.filterTripsByTime trips f `sublist_of` trips
  ∧ Scan.filterTripsByTime (Scan.filterTripsByTime trips f) f
    = Scan.filterTripsByTime trips f
  ∧ (∀ more, Scan.filterTripsByTime (trips ++ more) f
             = Scan.filterTripsByTime trips f
               ++ Scan.filterTripsByTime more f)
  ∧ (f ≠ -1 → ∀ t, t ∈ Scan.filterTripsByTime trips f
                   ↔ t ∈ trips ∧ scan_selects f t)
  ∧ (f ≠ -1 → ∀ t, started_at t = InvalidDate → ended_at t = InvalidDate →
       t ∉ Scan.filterTripsByTime trips f).
Proof.
  destruct (decide (f = -1)) as [->|Hf].
  - split_and!; try done.
  - assert (Hsel : ∀ l, Scan.filterTripsByTime l f = filter (scan_selects f) l)
      by (intros l; by apply scan_filter_selects).
    rewrite !Hsel. split_and!.
    + apply sublist_filter.
    + rewrite list_filter_filter. apply list_filter_iff. tauto.
    + intros more. rewrite !Hsel. apply filter_app.
    + intros _ t. rewrite list_elem_of_filter. tauto.
    + intros _ t Hs He. rewrite list_elem_of_filter.
      intros [[Hsel'|Hsel'] _]; unfold start_minute, end_minute in Hsel';
        [rewrite Hs in Hsel'|rewrite He in Hsel']; exact Hsel'.
Qed.

Lemma filter_sublist_impl {A} (P Q : A → Prop)
    `{!∀ x, Decision (P x), !∀ x, Decision (Q x)} (l : list A) :
  (∀ x, x ∈ l → P x → Q x) → filter P l `sublist_of` filter Q l.
Proof.
  induction l as [|x l IH]; intros HPQ; [done|].
  assert (IH' : filter P l `sublist_of` filter Q l).
  { apply IH. intros y Hy. apply HPQ. by right. }
  rewrite !filter_cons. destruct (decide (P x)) as [HP|HP].
  - rewrite decide_True by (apply HPQ; [by left|done]).
    by apply sublist_skip.
  - destruct (decide (Q x)); [by apply sublist_cons|done].
Qed.

(** X11. For a minute from 60 to 1380, where the window of map.js does
    not wrap, every trip that map.js counts as a departure (an arrival)
    passes the test of the variant: per station id, the variant counts at
    least as many departures and arrivals as map.js does. *)
Theorem scan_counts_dominate_window_counts (trips : list Trip) (f : Z)
    (id : string) :
  Forall valid_trip trips → 60 ≤ f ≤ 1380 →
  ∃ b, csv_rows empty_buckets trips = Some b
    ∧ (count_departures (filterByMinute (departuresByMinute b) f) id
       ≤ count_departures (Scan.filterTripsByTime trips f) id)%nat
    ∧ (count_arrivals (filterByMinute (arrivalsByMinute b) f) id
       ≤ count_arrivals (Scan.filterTripsByTime trips f) id)%nat.
Proof.
  intros Hvalid Hf.
  destruct (csv_rows_buckets trips empty_buckets)
    as (b & Hrun & Hld & Hla & Hbd & Hba & _ & _);
    [reflexivity|reflexivity|done|].
  exists b. split; [done|].
  destruct (query_selects_window b trips f) as [Hqd Hqa];
    [lia|done|done| | |].
  { intros i. rewrite Hbd.
    change (departuresByMinute empty_buckets) with empty_table.
    by rewrite bucket_empty_table. }
  { intros i. rewrite Hba.
    change (arrivalsByMinute empty_buckets) with empty_table.
    by rewrite bucket_empty_table. }
  rewrite scan_filter_selects by lia.
  unfold count_departures, count_arrivals. rewrite Hqd, Hqa.
  assert (Hwin : ∀ m, in_window f m → in_closed_range f m).
  { intros m Hm. unfold in_window in Hm.
    rewrite window_indices_walk in Hm by lia.
    apply Exists_exists in Hm as (i & Hi & ->).
    apply elem_of_window in Hi as [Hi1 Hi2]; [|lia]. simpl. euclid. }
  split; apply filter_length_submseteq, sublist_submseteq,
           filter_sublist_impl; intros t _ Ht; [left|right]; by apply Hwin.
Qed.
End ScanFilter.

Lemma scan_counts_dominate_window_counts_witness :
  Forall (@valid_trip) scenario_trips ∧ 60 ≤ 485 ≤ 1380
  ∧ ∃ b, @csv_rows UTC empty_buckets scenario_trips = Some b
      ∧ (count_departures (filterByMinute (departuresByMinute b) 485) "A"
         ≤ count_departures (@Scan.filterTripsByTime UTC scenario_trips 485)
                            "A")%nat.
Proof.
  assert (Hv : Forall valid_trip scenario_trips)
    by (repeat constructor; done).
  split; [exact Hv|]. split; [lia|].
  destruct (@scan_counts_dominate_window_counts UTC scenario_trips 485 "A"
              Hv ltac:(lia)) as (b & Hb & Hd & _).
  by exists b.
Defined.

(** ** The page of map.js along a run of slider events *)

Section SliderRun.
Context `{Sqrt}.

(** X12. Whatever run of slider events map.js handles on a page whose
    circles are bound to listed stations, the page returns from it with
    its two bucket tables and its station list as they were, no object
    allocated, every object with the name and coordinates it had, every
    object outside the station list untouched, and the time filter at the
    last value of the run. *)
Theorem slider_run_keeps_the_page_frame (app : App) (values : list Z) :
  well_formed (store app) (stationsData app) → circles_bound app →
  ∃ app', slide app values = Some app'
    ∧ buckets app' = buckets app
    ∧ stationsData app' = stationsData app
    ∧ timeFilter app' = default (timeFilter app) (last values)
    ∧ length (store app') = length (store app)
    ∧ (∀ r s, store app !! r = Some s →
         ∃ s', store app' !! r = Some s' ∧ ident s' = ident s
               ∧ (r ∉ stationsData app → s' = s)).
Proof.
  intros Hwf Hcb. destruct values as [|v earlier _] using rev_ind.
  - exists app. split_and!; try done. intros r s Hs. by exists s.
  - destruct (slide_snoc earlier v app Hwf Hcb)
      as (app' & Hrun & Hb & Hsd & _ & _ & Htf & _ & Hlen & Hin & Hout).
    exists app'. split_and!; [done|done|done| |done|].
    + by rewrite last_snoc.
    + intros r s Hs. destruct (decide (r ∈ stationsData app)) as [Hr|Hr].
      * rewrite Hin, Hs by done. by eexists.
      * rewrite Hout, Hs by done. by eexists.
Qed.

(** X13. On a page that holds one circle for every station, the stations
    having pairwise distinct names, the last slider value wins: two runs
    of slider events that end in the same value leave the same page,
    circles included, the one that the last event alone leaves; the
    in-place updates of earlier events leave no trace. *)
Theorem last_slider_value_wins (app : App) (run1 run2 : list Z) (v : Z) :
  well_formed (store app) (stationsData app) →
  one_circle_per_station app →
  NoDup (listed_names (store app) (stationsData app)) →
  ∃ app', slide app (run1 ++ [v]) = Some app'
    ∧ slide app (run2 ++ [v]) = Some app'
    ∧ updateTimeDisplay app v = Some app'.
Proof.
  intros Hwf Hone Hnd.
  destruct (slide_snoc_distinct run1 v app Hwf Hone Hnd)
    as (app1 & Hrun1 & Hlast1).
  destruct (slide_snoc_distinct run2 v app Hwf Hone Hnd)
    as (app2 & Hrun2 & Hlast2).
  exists app1. split_and!; [done| |done].
  rewrite Hrun2. congruence.
Qed.
End SliderRun.

Lemma scenario_page_loads :
  ∃ app0, scenario_page = Some app0
    ∧ well_formed (store app0) (stationsData app0)
    ∧ one_circle_per_station app0
    ∧ NoDup (listed_names (store app0) (stationsData app0)).
Proof.
  destruct (@on_load_ok UTC rational_sqrt scenario_heap scenario_refs
              scenario_trips scenario_trips_valid scenario_well_formed)
    as (app0 & Hrun & Hwf & _ & Hone & Hnames & _).
  exists app0. split_and!; [exact Hrun|exact Hwf|exact Hone|].
  rewrite Hnames. apply (bool_decide_unpack _). vm_compute. exact I.
Defined.

Lemma slider_run_keeps_the_page_frame_witness :
  ∃ app0, scenario_page = Some app0
    ∧ well_formed (store app0) (stationsData app0)
    ∧ circles_bound app0
    ∧ ∃ app', @slide rational_sqrt app0 [600; 485] = Some app'
        ∧ buckets app' = buckets app0 ∧ timeFilter app' = 485.
Proof.
  destruct scenario_page_loads as (app0 & Hload & Hwf & Hone & _).
  pose proof (one_each_bound app0 Hone) as Hcb.
  exists app0. split_and!; [exact Hload|exact Hwf|exact Hcb|].
  destruct (@slider_run_keeps_the_page_frame rational_sqrt app0 [600; 485]
              Hwf Hcb)
    as (app' & Hrun & Hb & _ & Htf & _).
  exists app'. split_and!; [exact Hrun|exact Hb|exact Htf].
Defined.

Lemma last_slider_value_wins_witness :
  ∃ app0, scenario_page = Some app0
    ∧ well_formed (store app0) (stationsData app0)
    ∧ one_circle_per_station app0
    ∧ NoDup (listed_names (store app0) (stationsData app0))
    ∧ ∃ app', @slide rational_sqrt app0 ([600; -1] ++ [485]) = Some app'
        ∧ @slide rational_sqrt app0 ([] ++ [485]) = Some app'.
Proof.
  destruct scenario_page_loads as (app0 & Hload & Hwf & Hone & Hnd).
  exists app0. split_and!; [exact Hload|exact Hwf|exact Hone|exact Hnd|].
  destruct (@last_slider_value_wins rational_sqrt app0 [600; -1] [] 485
              Hwf Hone Hnd)
    as (app' & Hrun1 & Hrun2 & _).
  exists app'. split; [exact Hrun1|exact Hrun2].
Defined.

(** Where two stations share a name the join goes another way: the
    second of them finds no circle under its name, so that every event
    appends a circle for it, and a circle so appended is not drawn again.
    After loading two stations named A, the call of [updateTimeDisplay]
    at -1 that ends the load handler and the slider events 485 and -1,
    the SVG holds four circles, and the one appended at 485 has kept the
    radius 50 under the range from 0 to 25. *)
Lemma repeated_name_appends_circles :
  ∃ app, twin_page = Some app
    ∧ length (svg app) = 4%nat
    ∧ range (radiusScale app) = (Fin 0%Q, Fin 25%Q)
    ∧ (∃ q, nodes app !! 3%nat ≫= attr_r = Some (Fin q) ∧ (q == 50)%Q)
    ∧ ¬ radii_within_range app.
Proof.
  eexists. split; [vm_compute; reflexivity|].
  split; [reflexivity|]. split; [reflexivity|].
  split; [eexists; split; [reflexivity|by vm_compute]|].
  intros (r0 & r1 & Hr & Hall). simpl in Hr. injection Hr as <- <-.
  rewrite Forall_lookup in Hall.
  destruct (Hall 2%nat _ eq_refl) as (v & Hv & _ & Hle).
  injection Hv as <-. vm_compute in Hle. by apply Hle.
Qed.

(** ** The page of the variant along a run of slider events *)

Section ScanRun.
Context `{TimeZone}.

Lemma scan_updateTimeDisplay_run (app : ScanPage.App) (v : Z) :
  well_formed (ScanPage.store app) (ScanPage.stations app) →
  ∃ new,
    ScanPage.updateTimeDisplay app v
    = Some {| ScanPage.trips := ScanPage.trips app;
              ScanPage.store := ScanPage.store app ++ new;
              ScanPage.stations := ScanPage.stations app;
              ScanPage.stationsWithTraffic :=
                seq (length (ScanPage.store app))
                    (length (ScanPage.stations app));
              ScanPage.radiusScale :=
                {| domain := domain (ScanPage.radiusScale app);
                   range := range_for v |};
              ScanPage.timeFilter := v |}
    ∧ length new = length (ScanPage.stations app)
    ∧ Some <$> new
      = (λ r, scan_derived
                (rollup (Scan.filterTripsByTime (ScanPage.trips app) v)
                        length start_station_id)
                (rollup (Scan.filterTripsByTime (ScanPage.trips app) v)
                        length end_station_id)
              <$> ScanPage.store app !! r) <$> ScanPage.stations app.
Proof.
  intros Hwf.
  set (active := Scan.filterTripsByTime (ScanPage.trips app) v).
  destruct (map_refs_copy (rollup active length start_station_id)
              (rollup active length end_station_id)
              (ScanPage.store app) (ScanPage.stations app) Hwf)
    as (new & Hrun & Hnew).
  exists new. split; [|split; [by eapply copies_length|done]].
  unfold ScanPage.updateTimeDisplay, ScanPage.updateScatterPlot,
    Scan.computeStationTraffic.
  simpl. fold active. by rewrite Hrun.
Qed.

(** X14. The variant allocates on every slider event: after a run the
    trips and the station list are as they were, the objects that were
    there are all unchanged, one new object per listed station has been
    added for each event of the run, and the circles are bound to the
    objects added last. *)
Theorem scan_slider_run_allocates_per_event (app : ScanPage.App)
    (values : list Z) :
  well_formed (ScanPage.store app) (ScanPage.stations app) →
  ∃ app' added,
    ScanPage.slide app values = Some app'
    ∧ ScanPage.trips app' = ScanPage.trips app
    ∧ ScanPage.stations app' = ScanPage.stations app
    ∧ ScanPage.store app' = ScanPage.store app ++ added
    ∧ length added
      = (length values * length (ScanPage.stations app))%nat
    ∧ (values ≠ [] →
       ScanPage.stationsWithTraffic app'
       = seq (length (ScanPage.store app')
              - length (ScanPage.stations app))
             (length (ScanPage.stations app))).
Proof.
  revert app. induction values as [|u rest IH]; intros app Hwf.
  - exists app, []. split_and!; try done. by rewrite app_nil_r.
  - destruct (scan_updateTimeDisplay_run app u Hwf)
      as (new & Hrun1 & Hnew & _).
    match type of Hrun1 with _ = Some ?a => set (app1 := a) in * end.
    assert (Hwf1 : well_formed (ScanPage.store app1) (ScanPage.stations app1)).
    { apply (well_formed_mono (ScanPage.store app)); [|done].
      simpl. rewrite length_app. lia. }
    destruct (IH app1 Hwf1)
      as (app' & added & Hslide & Htr & Hst & Hstore & Hlen & Hbound).
    exists app', (new ++ added). split_and!.
    + simpl. rewrite Hrun1. simpl. exact Hslide.
    + by rewrite Htr.
    + by rewrite Hst.
    + rewrite Hstore. simpl. by rewrite app_assoc.
    + rewrite length_app, Hlen, Hnew. simpl. lia.
    + intros _. destruct rest as [|u' rest].
      * simpl in Hslide. injection Hslide as <-. simpl.
        f_equal. rewrite length_app. lia.
      * rewrite Hbound by done. done.
Qed.
End ScanRun.

Lemma scan_slider_run_allocates_per_event_witness :
  ∃ app0, @ScanPage.on_load UTC scenario_heap scenario_refs scenario_trips
          = Some app0
    ∧ well_formed (ScanPage.store app0) (ScanPage.stations app0)
    ∧ ∃ app', @ScanPage.slide UTC app0 [600; 485] = Some app'
        ∧ length (ScanPage.store app') = 8%nat.
Proof.
  eexists. split; [vm_compute; reflexivity|].
  match goal with |- well_formed ?h ?l ∧ _ =>
    assert (Hwf : well_formed h l) by (repeat constructor; simpl; lia)
  end.
  split; [exact Hwf|].
  destruct (@scan_slider_run_allocates_per_event UTC _ [600; 485] Hwf)
    as (app' & added & Hrun & _ & _ & Hstore & Hlen & _).
  exists app'. split; [exact Hrun|].
  rewrite Hstore, length_app, Hlen. reflexivity.
Defined.

(** ** What the counts of map.js add up to *)

Lemma sum_counts_by_key {V} (key : V → string) (values : list V)
    (names : list string) :
  NoDup names →
  sum_list ((λ id, default 0%nat (rollup values length key !! id)) <$> names)
  = length (filter (λ v, key v ∈ names) values).
Proof.
  induction 1 as [|id names Hid Hnd IH].
  - simpl. symmetry. apply length_zero_iff_nil.
    induction values as [|v values IHv]; [done|].
    rewrite filter_cons, decide_False by apply not_elem_of_nil. exact IHv.
  - rewrite fmap_cons. simpl sum_list. rewrite IH, rollup_count.
    rewrite <- length_app. apply Permutation_length.
    apply filter_disjoint_union.
    + intros v. rewrite elem_of_cons. tauto.
    + intros v <- Hin. by apply Hid.
Qed.

Lemma shown_counts_by_name (arr dep : gmap string nat) (h h' : heap)
    (refs : list ref) :
  (∀ r, r ∈ refs →
     (r < length h)%nat ∧ h' !! r = derived arr dep <$> h !! r) →
  shown_departures h' <$> refs
  = (λ id, default 0%nat (dep !! id)) <$> listed_names h refs
  ∧ shown_arrivals h' <$> refs
    = (λ id, default 0%nat (arr !! id)) <$> listed_names h refs.
Proof.
  induction refs as [|r refs IH]; intros Hall; [done|].
  destruct (Hall r ltac:(by left)) as [Hlt Hr].
  destruct (lookup_lt_is_Some_2 h r Hlt) as [s Hs].
  destruct IH as [IHd IHa]. { intros r' Hr'. apply Hall. by right. }
  assert (Hnames : listed_names h (r :: refs)
                   = short_name s :: listed_names h refs).
  { unfold listed_names. simpl. by rewrite Hs. }
  rewrite Hnames, !fmap_cons, <- IHd, <- IHa.
  unfold shown_departures, shown_arrivals. by rewrite Hr, Hs.
Qed.

(** X15. Where the listed stations have distinct names, the departures
    that map.js shows add up to the number of selected trips whose start
    id is the name of a listed station, and likewise the arrivals: a trip
    is counted once at its station and a trip whose id matches no listed
    station is not counted at all. *)
Theorem shown_counts_account_for_matching_trips (b : Buckets) (h : heap)
    (refs : list ref) (f : Z) :
  well_formed h refs → NoDup (listed_names h refs) →
  ∃ h', computeStationTraffic b h refs f = Some (h', refs)
    ∧ sum_list (shown_departures h' <$> refs)
      = length (filter (λ t, start_station_id t ∈ listed_names h refs)
                       (filterByMinute (departuresByMinute b) f))
    ∧ sum_list (shown_arrivals h' <$> refs)
      = length (filter (λ t, end_station_id t ∈ listed_names h refs)
                       (filterByMinute (arrivalsByMinute b) f)).
Proof.
  intros Hwf Hnd. unfold computeStationTraffic.
  destruct (map_refs_update
              (rollup (filterByMinute (arrivalsByMinute b) f)
                      length end_station_id)
              (rollup (filterByMinute (departuresByMinute b) f)
                      length start_station_id) h refs Hwf)
    as (h' & Hrun & _ & Hin & _).
  exists h'. split; [done|].
  destruct (shown_counts_by_name
              (rollup (filterByMinute (arrivalsByMinute b) f)
                      length end_station_id)
              (rollup (filterByMinute (departuresByMinute b) f)
                      length start_station_id) h h' refs) as [-> ->].
  { intros r Hr. split; [|by apply Hin].
    unfold well_formed in Hwf. rewrite Forall_forall in Hwf. by apply Hwf. }
  split; by apply sum_counts_by_key.
Qed.

Lemma shown_counts_account_for_matching_trips_witness :
  well_formed scenario_heap scenario_refs
  ∧ NoDup (listed_names scenario_heap scenario_refs)
  ∧ ∃ h', computeStationTraffic scenario_buckets scenario_heap
            scenario_refs (-1) = Some (h', scenario_refs)
      ∧ sum_list (shown_departures h' <$> scenario_refs) = 2%nat.
Proof.
  assert (Hwf : well_formed scenario_heap scenario_refs)
    by (repeat constructor; simpl; lia).
  assert (Hnd : NoDup (listed_names scenario_heap scenario_refs))
    by (apply (bool_decide_unpack _); by vm_compute).
  split; [exact Hwf|]. split; [exact Hnd|].
  destruct (shown_counts_account_for_matching_trips scenario_buckets
              scenario_heap scenario_refs (-1) Hwf Hnd)
    as (h' & Hrun & Hd & _).
  exists h'. split; [exact Hrun|]. rewrite Hd. by vm_compute.
Defined.

(** X16. map.js's aggregation throws exactly if some element of the
    station array is no object; no such element is skipped. *)
Theorem aggregation_throws_exactly_on_a_missing_object (b : Buckets)
    (h : heap) (refs : list ref) (f : Z) :
  computeStationTraffic b h refs f = None ↔ ¬ well_formed h refs.
Proof.
  unfold computeStationTraffic.
  set (arr := rollup (filterByMinute (arrivalsByMinute b) f)
                     length end_station_id).
  set (dep := rollup (filterByMinute (departuresByMinute b) f)
                     length start_station_id).
  split.
  - intros Hnone Hwf.
    destruct (map_refs_update arr dep h refs Hwf) as (h' & Hrun & _).
    congruence.
  - revert h. induction refs as [|r refs IH]; intros h Hn.
    + exfalso. apply Hn. constructor.
    + rewrite map_refs_cons. destruct (h !! r) as [s|] eqn:Hs.
      * assert (Hstep : update_station arr dep h r
                        = Some (<[r:=derived arr dep s]> h, r))
          by (unfold update_station; by rewrite Hs).
        rewrite Hstep. simpl. rewrite IH; [done|].
        intros Hwf. apply Hn, well_formed_cons.
        split; [by eapply lookup_lt_Some|].
        apply (well_formed_mono (<[r:=derived arr dep s]> h)); [|done].
        by rewrite length_insert.
      * assert (Hstep : update_station arr dep h r = None)
          by (unfold update_station; by rewrite Hs).
        by rewrite Hstep.
Qed.

(** ** Loading, then sliding *)

Lemma d3_max_bound (values : list (option nat)) (n : nat) :
  Some n ∈ values → ∃ M, d3_max values = Some M ∧ (n ≤ M)%nat.
Proof.
  intros Hn. destruct (d3_max_from None values) as [Hnone Hsome].
  fold (d3_max values) in Hnone, Hsome.
  destruct (d3_max values) as [M|].
  - exists M. split; [done|]. apply (Hsome M eq_refl). by right.
  - destruct Hnone as [Hnone _]. destruct (Hnone eq_refl) as [_ Hall].
    rewrite Forall_forall in Hall. by specialize (Hall _ Hn).
Qed.

Section LoadThenSlide.
Context `{TimeZone} `{Sqrt}.

(** The page after loading and a run of slider events: the scale it
    holds, the stations its circles are bound to and their totals. *)
Lemma load_then_slide (h : heap) (listed : list ref)
    (trips : list Trip) (values : list Z) :
  Forall valid_trip trips → well_formed h listed →
  Forall (λ v, -60 ≤ v) values →
  ∃ app0 app' r0 r1,
    on_load h listed trips = Some app0
    ∧ slide app0 values = Some app'
    ∧ stationsData app' = listed
    ∧ circles_bound app'
    ∧ range (radiusScale app') = (Fin r0, Fin r1)
    ∧ (r0 <= r1)%Q
    ∧ ∀ r, r ∈ listed →
        ∃ n M, total_of (store app') r = Some n
          ∧ domain (radiusScale app') = (Fin 0%Q, of_count M)
          ∧ (n ≤ M)%nat.
Proof.
  intros Hvalid Hwf Hvals.
  destruct (on_load_run h listed trips Hvalid Hwf)
    as (b & h0 & Hb & Hload & Hlen0 & Hin0).
  destruct (on_load_ok h listed trips Hvalid Hwf)
    as (app0 & Hload' & Hwf0 & Hsd0 & Hone0 & _).
  pose proof (one_each_bound app0 Hone0) as Hcb0.
  rewrite Hload' in Hload. injection Hload as Happ0.
  assert (Hb0 : buckets app0 = b) by by rewrite Happ0.
  assert (Hst0 : store app0 = h0) by by rewrite Happ0.
  assert (Hrs0 : radiusScale app0
                 = {| domain := (Fin 0%Q,
                                 to_num (d3_max (total_of h0 <$> listed)));
                      range := range initial_radiusScale |})
    by by rewrite Happ0.
  clear Happ0.
  assert (Hobj : ∀ r, r ∈ listed → ∃ s, h !! r = Some s).
  { intros r Hr. unfold well_formed in Hwf. rewrite Forall_forall in Hwf.
    by apply lookup_lt_is_Some_2, Hwf. }
  assert (Hmax : ∀ r s, r ∈ listed → h !! r = Some s →
    ∃ M, d3_max (total_of h0 <$> listed) = Some M
      ∧ (default 0 (window_arrivals b (-1) !! short_name s)
         + default 0 (window_departures b (-1) !! short_name s) ≤ M)%nat).
  { intros r s Hr Hs. apply d3_max_bound.
    apply (list_elem_of_fmap_2' _ _ r); [done|].
    unfold total_of. by rewrite Hin0, Hs. }
  exists app0. induction values as [|v earlier _] using rev_ind.
  - exists app0, 0%Q, 25%Q.
    split_and!; [done|done|done|done|by rewrite Hrs0|lra|].
    intros r Hr.
    destruct (Hobj r Hr) as [s Hs].
    destruct (Hmax r s Hr Hs) as (M & HM & Hle).
    eexists _, M. split_and!; [|rewrite Hrs0; simpl; by rewrite HM|exact Hle].
    unfold total_of. rewrite Hst0. by rewrite Hin0, Hs.
  - rewrite Forall_app, Forall_singleton in Hvals.
    destruct Hvals as [_ Hv].
    destruct (slide_snoc earlier v app0 Hwf0 Hcb0)
      as (app' & Hrun & _ & Hsd & _ & Hrs & _ & Hcb' & _ & Hin' & _).
    assert (Hrng : ∃ r0 r1, range_for v = (Fin r0, Fin r1) ∧ (r0 <= r1)%Q).
    { unfold range_for. destruct (v =? -1); eexists _, _; (split; [done|lra]). }
    destruct Hrng as (r0 & r1 & Hrng & Hrr).
    exists app', r0, r1.
    split_and!; [done|exact Hrun|by rewrite Hsd|exact Hcb'
                |by rewrite Hrs|exact Hrr|].
    intros r Hr.
    destruct (Hobj r Hr) as [s Hs].
    destruct (Hmax r s Hr Hs) as (M & HM & Hle).
    exists (default 0 (window_arrivals b v !! short_name s)
            + default 0 (window_departures b v !! short_name s))%nat, M.
    split_and!.
    + unfold total_of. rewrite Hin' by by rewrite Hsd0.
      rewrite Hst0, Hb0, Hin0, Hs by done. done.
    + rewrite Hrs, Hrs0. simpl. by rewrite HM.
    + etrans; [|exact Hle].
      unfold window_arrivals, window_departures.
      apply Nat.add_le_mono;
        by apply rollup_count_submseteq, filterByMinute_submseteq.
Qed.

(** With pairwise distinct names, loading and a run of slider events
    leave one circle for every station, drawn with the scale and the
    counts of the page. *)
Lemma load_then_slide_distinct (h : heap) (listed : list ref)
    (trips : list Trip) (values : list Z) :
  Forall valid_trip trips → well_formed h listed →
  NoDup (listed_names h listed) →
  ∃ app0 app',
    on_load h listed trips = Some app0
    ∧ slide app0 values = Some app'
    ∧ stationsData app' = listed
    ∧ nodes app' = drawn (radiusScale app') (store app') listed
    ∧ svg app' = seq 0 (length listed).
Proof.
  intros Hvalid Hwf Hnd.
  destruct (on_load_run h listed trips Hvalid Hwf)
    as (b & h0 & Hb & Hload & Hlen0 & Hin0).
  destruct (on_load_ok h listed trips Hvalid Hwf)
    as (app0 & Hload' & Hwf0 & Hsd0 & Hone0 & Hnames & _).
  rewrite <- Hnames in Hnd.
  exists app0. destruct values as [|v earlier _] using rev_ind.
  - exists app0. split_and!; [done|done|done| |].
    + rewrite Hload' in Hload. injection Hload as ->. done.
    + rewrite Hload' in Hload. injection Hload as ->. done.
  - destruct (slide_snoc_distinct earlier v app0 Hwf0 Hone0 Hnd)
      as (app' & Hrun & Hlast).
    destruct (updateTimeDisplay_run_distinct app0 v Hwf0 Hone0 Hnd)
      as (h' & Hrun' & _).
    rewrite Hrun' in Hlast. injection Hlast as <-.
    eexists. split_and!; [done|exact Hrun|exact Hsd0| |].
    + simpl. by rewrite Hsd0.
    + simpl. destruct Hone0 as (Hc & -> & Hd).
      rewrite Hc, <- Hsd0, <- Hd. by rewrite length_fmap.
Qed.

(** With pairwise distinct names the circles under the SVG show, station
    by station, what the two callbacks return with the scale and the
    counts of the page. *)
Lemma page_shows_the_callbacks (h : heap) (listed : list ref)
    (trips : list Trip) (values : list Z) :
  Forall valid_trip trips → well_formed h listed →
  NoDup (listed_names h listed) →
  ∃ app0 app',
    on_load h listed trips = Some app0
    ∧ slide app0 values = Some app'
    ∧ page_radii app' = radius_attrs app'
    ∧ page_flows app' = flow_attrs app'.
Proof.
  intros Hvalid Hwf Hnd.
  destruct (load_then_slide_distinct h listed trips values Hvalid Hwf Hnd)
    as (app0 & app' & Hload & Hrun & Hsd & Hnodes & Hsvg).
  exists app0, app'. split_and!; [done|done| |].
  - unfold page_radii, radius_attrs. rewrite Hsvg, Hnodes, Hsd.
    apply list_eq. intros i. rewrite !list_lookup_fmap.
    destruct (listed !! i) as [r|] eqn:Hr.
    + rewrite lookup_seq_lt by by eapply lookup_lt_Some. simpl.
      unfold drawn. by rewrite list_lookup_fmap, Hr.
    + rewrite lookup_ge_None_2; [done|].
      rewrite length_seq. by apply lookup_ge_None.
  - unfold page_flows, flow_attrs. rewrite Hsvg, Hnodes, Hsd.
    apply list_eq. intros i. rewrite !list_lookup_fmap.
    destruct (listed !! i) as [r|] eqn:Hr.
    + rewrite lookup_seq_lt by by eapply lookup_lt_Some. simpl.
      unfold drawn. by rewrite list_lookup_fmap, Hr.
    + rewrite lookup_ge_None_2; [done|].
      rewrite length_seq. by apply lookup_ge_None.
Qed.

(** X17. The domain of the radius scale, though fixed at load, bounds
    what it is applied to: after loading and any run of slider events
    with values from -60 on, every circle under the SVG is bound to a
    station whose totalTraffic is at most the upper end of the domain. *)
Theorem load_domain_bounds_every_later_total (h : heap) (listed : list ref)
    (trips : list Trip) (values : list Z) :
  Forall valid_trip trips → well_formed h listed →
  Forall (λ v, -60 ≤ v) values →
  ∃ app0 app',
    on_load h listed trips = Some app0
    ∧ slide app0 values = Some app'
    ∧ ∀ node, node ∈ svg app' →
        ∃ c n M, nodes app' !! node = Some c
          ∧ total_of (store app') (datum c) = Some n
          ∧ (domain (radiusScale app')).2 = of_count M
          ∧ (n ≤ M)%nat.
Proof.
  intros Hvalid Hwf Hvals.
  destruct (load_then_slide h listed trips values Hvalid Hwf Hvals)
    as (app0 & app' & r0 & r1 & Hload & Hrun & Hsd & Hcb & _ & _ & Htot).
  exists app0, app'. split_and!; [done|done|].
  intros node Hn. destruct (Hcb node (or_intror Hn)) as (c & Hc & Hd).
  rewrite Hsd in Hd.
  destruct (Htot _ Hd) as (n & M & Hn' & Hdom & Hle).
  exists c, n, M. split_and!; [done|done| |done]. by rewrite Hdom.
Qed.

(** X18. Where the stations have pairwise distinct names, no circle
    outgrows the range: with a square root that is 0 at 0, positive on
    positive counts and monotone, after loading and any run of slider
    events with values from -60 on the page holds one circle for every
    station, and the radius of every circle under the SVG is a finite
    number between the two ends of the range then set, the degenerate
    domain from 0 to 0 included. *)
Theorem radii_stay_within_the_range (h : heap) (listed : list ref)
    (trips : list Trip) (values : list Z) :
  sqrt_fits_counts →
  Forall valid_trip trips → well_formed h listed →
  NoDup (listed_names h listed) →
  Forall (λ v, -60 ≤ v) values →
  ∃ app0 app',
    on_load h listed trips = Some app0
    ∧ slide app0 values = Some app'
    ∧ length (svg app') = length listed
    ∧ radii_within_range app'.
Proof.
  intros Hsqrt Hvalid Hwf Hnd Hvals.
  destruct (load_then_slide h listed trips values Hvalid Hwf Hvals)
    as (app0 & app' & r0 & r1 & Hload & Hrun & Hsd & _ & Hrng & Hrr & Htot).
  destruct (load_then_slide_distinct h listed trips values Hvalid Hwf Hnd)
    as (app0' & app'' & Hload' & Hrun' & _ & Hnodes & Hsvg).
  rewrite Hload in Hload'. injection Hload' as <-.
  rewrite Hrun in Hrun'. injection Hrun' as <-.
  exists app0, app'. split_and!; [done|done|by rewrite Hsvg, length_seq|].
  exists r0, r1. split; [done|].
  unfold page_radii. rewrite Hsvg, Hnodes.
  apply Forall_fmap, Forall_forall. intros node Hnode. simpl.
  apply elem_of_seq in Hnode.
  destruct (lookup_lt_is_Some_2 listed node) as [r Hr]; [lia|].
  unfold drawn. rewrite list_lookup_fmap, Hr. simpl.
  destruct (Htot r (list_elem_of_lookup_2 _ _ _ Hr))
    as (n & M & -> & Hd & Hle).
  by apply (scale_sqrt_within _ M).
Qed.
End LoadThenSlide.

Lemma rational_sqrt_fits_counts : @sqrt_fits_counts rational_sqrt.
Proof.
  split_and!.
  - by vm_compute.
  - intros k Hk. unfold Math_sqrt, rational_sqrt, Qlt.
    cbn [Qnum Qden inject_Z]. rewrite Z.div_1_r.
    assert (0 < Z.sqrt (Z.of_nat k * 2 ^ 52)) by (apply Z.sqrt_pos; lia).
    lia.
  - intros j k Hjk. unfold Math_sqrt, rational_sqrt, Qle.
    cbn [Qnum Qden inject_Z]. rewrite !Z.div_1_r.
    assert (Z.sqrt (Z.of_nat j * 2 ^ 52) ≤ Z.sqrt (Z.of_nat k * 2 ^ 52))
      by (apply Z.sqrt_le_mono; lia).
    nia.
Qed.

Lemma radii_stay_within_the_range_witness :
  @sqrt_fits_counts rational_sqrt
  ∧ Forall (@valid_trip) scenario_trips
  ∧ well_formed scenario_heap scenario_refs
  ∧ NoDup (listed_names scenario_heap scenario_refs)
  ∧ Forall (λ v, -60 ≤ v) [600; 485]
  ∧ ∃ app0 app',
      @on_load UTC rational_sqrt scenario_heap scenario_refs scenario_trips
      = Some app0
      ∧ @slide rational_sqrt app0 [600; 485] = Some app'
      ∧ length (svg app') = length scenario_refs
      ∧ radii_within_range app'.
Proof.
  assert (Hv : Forall valid_trip scenario_trips)
    by (repeat constructor; done).
  assert (Hwf : well_formed scenario_heap scenario_refs)
    by (repeat constructor; simpl; lia).
  assert (Hnd : NoDup (listed_names scenario_heap scenario_refs))
    by (apply (bool_decide_unpack _); vm_compute; exact I).
  assert (Hvals : Forall (λ v, -60 ≤ v) [600; 485])
    by (repeat constructor; lia).
  split; [exact rational_sqrt_fits_counts|].
  split; [exact Hv|]. split; [exact Hwf|]. split; [exact Hnd|].
  split; [exact Hvals|].
  exact (@radii_stay_within_the_range UTC rational_sqrt scenario_heap
           scenario_refs scenario_trips [600; 485]
           rational_sqrt_fits_counts Hv Hwf Hnd Hvals).
Defined.

Lemma load_domain_bounds_every_later_total_witness :
  Forall (@valid_trip) scenario_trips
  ∧ well_formed scenario_heap scenario_refs
  ∧ Forall (λ v, -60 ≤ v) [600; 485]
  ∧ ∃ app0 app',
      @on_load UTC rational_sqrt scenario_heap scenario_refs scenario_trips
      = Some app0
      ∧ @slide rational_sqrt app0 [600; 485] = Some app'
      ∧ ∀ node, node ∈ svg app' →
          ∃ c n M, nodes app' !! node = Some c
            ∧ total_of (store app') (datum c) = Some n
            ∧ (domain (radiusScale app')).2 = of_count M
            ∧ (n ≤ M)%nat.
Proof.
  assert (Hv : Forall valid_trip scenario_trips)
    by (repeat constructor; done).
  assert (Hwf : well_formed scenario_heap scenario_refs)
    by (repeat constructor; simpl; lia).
  assert (Hvals : Forall (λ v, -60 ≤ v) [600; 485])
    by (repeat constructor; lia).
  split; [exact Hv|]. split; [exact Hwf|]. split; [exact Hvals|].
  exact (@load_domain_bounds_every_later_total UTC rational_sqrt scenario_heap
           scenario_refs scenario_trips [600; 485] Hv Hwf Hvals).
Defined.

(** ** Loading, then sliding, in the variant *)

Section ScanLoadThenSlide.
Context `{TimeZone}.

Lemma scan_filter_sublist (trips : list Trip) (f : Z) :
  Scan.filterTripsByTime trips f `sublist_of` trips.
Proof.
  destruct (decide (f = -1)) as [->|Hf]; [done|].
  rewrite scan_filter_selects by done. apply sublist_filter.
Qed.

(** The total of the copy made for the [k]-th listed station. *)
Lemma copied_totals (active : list Trip) (h new : heap) (refs : list ref)
    (k : nat) (r0 : ref) :
  well_formed h refs →
  Some <$> new
  = (λ r, scan_derived (rollup active length start_station_id)
                       (rollup active length end_station_id)
          <$> h !! r) <$> refs →
  refs !! k = Some r0 →
  ∃ s, h !! r0 = Some s
    ∧ total_of (h ++ new) (length h + k)
      = Some (count_departures active (short_name s)
              + count_arrivals active (short_name s))%nat.
Proof.
  intros Hwf Hnew Hk.
  unfold well_formed in Hwf. rewrite Forall_forall in Hwf.
  destruct (lookup_lt_is_Some_2 h r0) as [s Hs].
  { apply Hwf. by eapply list_elem_of_lookup_2. }
  exists s. split; [done|].
  unfold total_of. rewrite lookup_fresh.
  rewrite (copies_lookup _ _ h new refs k r0 s Hnew Hk Hs). simpl.
  by rewrite !rollup_count.
Qed.

Lemma scan_slide_totals (h : heap) (listed : list ref) (values : list Z)
    (app : ScanPage.App) :
  well_formed h listed →
  ScanPage.stations app = listed →
  (∃ extra, ScanPage.store app = h ++ extra) →
  values ≠ [] →
  ∃ app', ScanPage.slide app values = Some app'
    ∧ domain (ScanPage.radiusScale app')
      = domain (ScanPage.radiusScale app)
    ∧ ∀ r, r ∈ ScanPage.stationsWithTraffic app' →
        ∃ r0 s n, r0 ∈ listed ∧ h !! r0 = Some s
          ∧ total_of (ScanPage.store app') r = Some n
          ∧ (n ≤ count_departures (ScanPage.trips app) (short_name s)
                 + count_arrivals (ScanPage.trips app) (short_name s))%nat.
Proof.
  revert app. induction values as [|u rest IH];
    intros app Hwf Hst [extra Hstore] Hne; [done|].
  assert (Hwfa : well_formed (ScanPage.store app) (ScanPage.stations app)).
  { rewrite Hst, Hstore.
    apply (well_formed_mono h); [rewrite length_app; lia|done]. }
  destruct (scan_updateTimeDisplay_run app u Hwfa)
    as (new & Hrun1 & Hlen & Hnew).
  match type of Hrun1 with _ = Some ?a => set (app1 := a) in * end.
  destruct rest as [|u' rest].
  - exists app1. split_and!.
    + simpl. by rewrite Hrun1.
    + done.
    + intros r Hr. simpl in Hr. apply elem_of_seq in Hr as [Hr1 Hr2].
      destruct (lookup_lt_is_Some_2 (ScanPage.stations app)
                  (r - length (ScanPage.store app))) as [r0 Hk]; [lia|].
      destruct (copied_totals _ _ _ _ _ r0 Hwfa Hnew Hk)
        as (s & Hs & Htot).
      replace (length (ScanPage.store app)
               + (r - length (ScanPage.store app)))%nat with r in Htot by lia.
      assert (Hr0 : r0 ∈ listed).
      { rewrite <- Hst. by eapply list_elem_of_lookup_2. }
      exists r0, s. eexists. split_and!; [done| |exact Htot|].
      * rewrite Hstore, lookup_app_l in Hs; [done|].
        unfold well_formed in Hwf. rewrite Forall_forall in Hwf.
        by apply Hwf.
      * apply Nat.add_le_mono; unfold count_departures, count_arrivals;
          apply filter_length_submseteq, sublist_submseteq,
            scan_filter_sublist.
  - destruct (IH app1) as (app' & Hslide & Hdom & Htot);
      [done|done| |done|].
    { exists (extra ++ new). simpl. by rewrite Hstore, app_assoc. }
    exists app'. split_and!.
    + change (ScanPage.slide app (u :: u' :: rest))
        with (ScanPage.updateTimeDisplay app u
              ≫= λ a, ScanPage.slide a (u' :: rest)).
      rewrite Hrun1. exact Hslide.
    + by rewrite Hdom.
    + exact Htot.
Qed.

(** X19. In the variant too the domain fixed at load bounds what the
    radius scale is applied to, here for every trip list and every run of
    slider values: the filter only ever drops trips, so no total exceeds
    the upper end of the domain. *)
Theorem scan_load_domain_bounds_every_later_total (h : heap)
    (listed : list ref) (trips : list Trip) (values : list Z) :
  well_formed h listed →
  ∃ app0 app',
    ScanPage.on_load h listed trips = Some app0
    ∧ ScanPage.slide app0 values = Some app'
    ∧ ∀ r, r ∈ ScanPage.stationsWithTraffic app' →
        ∃ n M, total_of (ScanPage.store app') r = Some n
          ∧ (domain (ScanPage.radiusScale app')).2 = of_count M
          ∧ (n ≤ M)%nat.
Proof.
  intros Hwf.
  destruct (map_refs_copy (rollup trips length start_station_id)
              (rollup trips length end_station_id) h listed Hwf)
    as (new0 & Hrun0 & Hnew0).
  set (totals0 := total_of (h ++ new0) <$> seq (length h) (length listed)).
  set (app0 :=
    {| ScanPage.trips := trips; ScanPage.store := h ++ new0;
       ScanPage.stations := listed;
       ScanPage.stationsWithTraffic := seq (length h) (length listed);
       ScanPage.radiusScale :=
         {| domain := (Fin 0%Q, to_num (d3_max totals0));
            range := range initial_radiusScale |};
       ScanPage.timeFilter := -1 |}).
  assert (Hload : ScanPage.on_load h listed trips = Some app0).
  { unfold ScanPage.on_load, Scan.computeStationTraffic.
    change (Scan.filterTripsByTime trips (-1)) with trips.
    by rewrite Hrun0. }
  assert (Hmax : ∀ r0 s, r0 ∈ listed → h !! r0 = Some s →
    ∃ M, d3_max totals0 = Some M
      ∧ (count_departures trips (short_name s)
         + count_arrivals trips (short_name s) ≤ M)%nat).
  { intros r0 s Hr0 Hs. apply d3_max_bound.
    apply list_elem_of_lookup_1 in Hr0 as [k Hk].
    destruct (copied_totals trips h new0 listed k r0 Hwf Hnew0 Hk)
      as (s' & Hs' & Htot).
    assert (s' = s) by congruence. subst s'.
    apply (list_elem_of_fmap_2' _ _ (length h + k)%nat); [|done].
    apply elem_of_seq. apply lookup_lt_Some in Hk. lia. }
  exists app0. destruct (decide (values = [])) as [->|Hne].
  - exists app0. split_and!; [done|done|]. intros r Hr. simpl in Hr.
    apply elem_of_seq in Hr as [Hr1 Hr2].
    destruct (lookup_lt_is_Some_2 listed (r - length h)) as [r0 Hk]; [lia|].
    destruct (copied_totals trips h new0 listed _ r0 Hwf Hnew0 Hk)
      as (s & Hs & Htot).
    replace (length h + (r - length h))%nat with r in Htot by lia.
    destruct (Hmax r0 s) as (M & HM & Hle);
      [by eapply list_elem_of_lookup_2|done|].
    eexists _, M. split_and!; [exact Htot|simpl; by rewrite HM|done].
  - destruct (scan_slide_totals h listed values app0 Hwf)
      as (app' & Hslide & Hdom & Htot); [done|by exists new0|done|].
    exists app'. split_and!; [done|done|]. intros r Hr.
    destruct (Htot r Hr) as (r0 & s & n & Hr0 & Hs & Hn & Hle).
    destruct (Hmax r0 s Hr0 Hs) as (M & HM & HleM).
    exists n, M. split_and!; [done| |by etrans].
    rewrite Hdom. simpl. by rewrite HM.
Qed.
End ScanLoadThenSlide.

Lemma scan_load_domain_bounds_every_later_total_witness :
  well_formed scenario_heap scenario_refs
  ∧ ∃ app0 app',
      @ScanPage.on_load UTC scenario_heap scenario_refs [trip_unparsed]
      = Some app0
      ∧ @ScanPage.slide UTC app0 [600; -1] = Some app'
      ∧ ∀ r, r ∈ ScanPage.stationsWithTraffic app' →
          ∃ n M, total_of (ScanPage.store app') r = Some n
            ∧ (domain (ScanPage.radiusScale app')).2 = of_count M
            ∧ (n ≤ M)%nat.
Proof.
  assert (Hwf : well_formed scenario_heap scenario_refs)
    by (repeat constructor; simpl; lia).
  split; [exact Hwf|].
  exact (@scan_load_domain_bounds_every_later_total UTC scenario_heap
           scenario_refs [trip_unparsed] [600; -1] Hwf).
Defined.

Lemma traffic_view_copies (dep arr : gmap string nat) (h new : heap)
    (refs : list ref) :
  Some <$> new = (λ r, scan_derived dep arr <$> h !! r) <$> refs →
  traffic_view (h ++ new) (seq (length h) (length refs))
  = traffic_view (scan_derived dep arr <$> h) refs.
Proof.
  intros Hnew. rewrite <- (copies_length dep arr h new refs Hnew).
  rewrite traffic_view_fresh. unfold traffic_view.
  apply list_eq. intros k. rewrite !list_lookup_fmap.
  apply (f_equal (λ l, l !! k)) in Hnew.
  rewrite !list_lookup_fmap in Hnew.
  destruct (new !! k) as [s|], (refs !! k) as [r|]; simpl in *; try done.
  injection Hnew as Hnew. by rewrite list_lookup_fmap, <- Hnew.
Qed.

Lemma traffic_view_prefix (f : Station → Station) (h extra : heap)
    (refs : list ref) :
  well_formed h refs →
  traffic_view (f <$> (h ++ extra)) refs = traffic_view (f <$> h) refs.
Proof.
  intros Hwf. unfold traffic_view. apply list_fmap_ext. intros i r Hr.
  rewrite !list_lookup_fmap, lookup_app_l; [done|].
  unfold well_formed in Hwf. rewrite Forall_forall in Hwf.
  apply Hwf. by eapply list_elem_of_lookup_2.
Qed.

Section ScanLastValue.
Context `{TimeZone}.

(** What the circles of the variant show after a run of slider events:
    the stations as they were, with the counts of the last value. *)
Lemma scan_slide_snoc_view (earlier : list Z) (v : Z) (app : ScanPage.App) :
  well_formed (ScanPage.store app) (ScanPage.stations app) →
  ∃ app', ScanPage.slide app (earlier ++ [v]) = Some app'
    ∧ ScanPage.radiusScale app'
      = {| domain := domain (ScanPage.radiusScale app);
           range := range_for v |}
    ∧ traffic_view (ScanPage.store app') (ScanPage.stationsWithTraffic app')
      = traffic_view
          (scan_derived
             (rollup (Scan.filterTripsByTime (ScanPage.trips app) v)
                     length start_station_id)
             (rollup (Scan.filterTripsByTime (ScanPage.trips app) v)
                     length end_station_id)
           <$> ScanPage.store app)
          (ScanPage.stations app).
Proof.
  revert app. induction earlier as [|u earlier IH]; intros app Hwf.
  - destruct (scan_updateTimeDisplay_run app v Hwf)
      as (new & Hrun & _ & Hnew).
    match type of Hrun with _ = Some ?a => exists a end.
    split_and!.
    + simpl. by rewrite Hrun.
    + done.
    + simpl. by apply traffic_view_copies.
  - destruct (scan_updateTimeDisplay_run app u Hwf)
      as (new & Hrun1 & Hlen & _).
    match type of Hrun1 with _ = Some ?a => set (app1 := a) in * end.
    assert (Hwf1 : well_formed (ScanPage.store app1) (ScanPage.stations app1)).
    { apply (well_formed_mono (ScanPage.store app)); [|done].
      simpl. rewrite length_app. lia. }
    destruct (IH app1 Hwf1) as (app' & Hslide & Hscale & Hview).
    exists app'. split_and!.
    + change (ScanPage.slide app ((u :: earlier) ++ [v]))
        with (ScanPage.updateTimeDisplay app u
              ≫= λ a, ScanPage.slide a (earlier ++ [v])).
      rewrite Hrun1. exact Hslide.
    + by rewrite Hscale.
    + rewrite Hview. simpl. by apply traffic_view_prefix.
Qed.

(** X20. In the variant too the last slider value wins: two runs of
    slider events that end in the same value leave the same radius scale
    and circles that show the same names and counts, though the objects
    bound to them are new ones every time. *)
Theorem scan_last_slider_value_wins (app : ScanPage.App)
    (run1 run2 : list Z) (v : Z) :
  well_formed (ScanPage.store app) (ScanPage.stations app) →
  ∃ app1 app2,
    ScanPage.slide app (run1 ++ [v]) = Some app1
    ∧ ScanPage.slide app (run2 ++ [v]) = Some app2
    ∧ ScanPage.radiusScale app1 = ScanPage.radiusScale app2
    ∧ traffic_view (ScanPage.store app1) (ScanPage.stationsWithTraffic app1)
      = traffic_view (ScanPage.store app2)
                     (ScanPage.stationsWithTraffic app2).
Proof.
  intros Hwf.
  destruct (scan_slide_snoc_view run1 v app Hwf) as (app1 & Hrun1 & Hs1 & Hv1).
  destruct (scan_slide_snoc_view run2 v app Hwf) as (app2 & Hrun2 & Hs2 & Hv2).
  exists app1, app2. split_and!; [done|done| |].
  - by rewrite Hs1, Hs2.
  - by rewrite Hv1, Hv2.
Qed.
End ScanLastValue.

Lemma scan_last_slider_value_wins_witness :
  ∃ app0, @ScanPage.on_load UTC scenario_heap scenario_refs scenario_trips
          = Some app0
    ∧ well_formed (ScanPage.store app0) (ScanPage.stations app0)
    ∧ ∃ app1 app2,
        @ScanPage.slide UTC app0 ([600; -1] ++ [485]) = Some app1
        ∧ @ScanPage.slide UTC app0 ([] ++ [485]) = Some app2
        ∧ traffic_view (ScanPage.store app1)
                       (ScanPage.stationsWithTraffic app1)
          = traffic_view (ScanPage.store app2)
                         (ScanPage.stationsWithTraffic app2).
Proof.
  eexists. split; [vm_compute; reflexivity|].
  match goal with |- well_formed ?h ?l ∧ _ =>
    assert (Hwf : well_formed h l) by (repeat constructor; simpl; lia)
  end.
  split; [exact Hwf|].
  destruct (@scan_last_slider_value_wins UTC _ [600; -1] [] 485 Hwf)
    as (app1 & app2 & Hrun1 & Hrun2 & _ & Hview).
  exists app1, app2. split_and!; [exact Hrun1|exact Hrun2|exact Hview].
Defined.
